(** * second-brain-mcp: the vector store (src/vector-store.ts) and the
      tool layer (src/index.ts)

    A shallow embedding of [VectorStore]: the chunker, the two SQLite tables
    with their [INSERT OR REPLACE] statements, the indexing loop over the
    embedding client, the cosine-similarity search and the recency query;
    and of the request handler that serves the four tools with it.

    JavaScript values are modelled as the code has them: strings are
    sequences of UTF-16 code units, numbers are binary64 floats (Rocq's
    primitive floats) where the code computes with them, and integers
    where it counts or holds a timestamp. *)

From Stdlib Require Import List ZArith NArith Lia Bool Arith.
From Stdlib Require Import Permutation Sorted.
From Stdlib Require Import Floats.
From Stdlib Require Ascii String DecimalString.
Import String.StringSyntax.
Delimit Scope string_scope with string.
Import ListNotations.

(* ================================================================= *)
(** ** JavaScript strings *)

Module JsString.

(** A string is its sequence of UTF-16 code units; [length] is
    [String.prototype.length]. *)
Definition char := N.
Definition t := list char.

Definition LF : char := 10%N.

Definition eq_dec : forall a b : t, {a = b} + {a <> b} := list_eq_dec N.eq_dec.

Definition eqb (a b : t) : bool := if eq_dec a b then true else false.

(** Truthiness of a string: the empty string is falsy. *)
Definition truthy (s : t) : bool :=
  match s with [] => false | _ :: _ => true end.

(** ECMAScript [WhiteSpace] and [LineTerminator] code points, the ones
    [String.prototype.trim] strips. *)
Definition isWhiteSpace (c : char) : bool :=
  ((9 <=? c) && (c <=? 13) || (c =? 32) || (c =? 160) || (c =? 5760)
   || (8192 <=? c) && (c <=? 8202) || (c =? 8232) || (c =? 8233)
   || (c =? 8239) || (c =? 8287) || (c =? 12288) || (c =? 65279))%N.

Fixpoint trimStart (s : t) : t :=
  match s with
  | [] => []
  | c :: s' => if isWhiteSpace c then trimStart s' else s
  end.

Definition trimEnd (s : t) : t := rev (trimStart (rev s)).

Definition trim (s : t) : t := trimStart (trimEnd s).

(** [s.split('\n')]: never empty, [""] splits to [[""]]. *)
Fixpoint split (s : t) : list t :=
  match s with
  | [] => [[]]
  | c :: s' =>
      if (c =? LF)%N then [] :: split s'
      else match split s' with
           | l :: ls => (c :: l) :: ls
           | [] => [[c]]
           end
  end.

(** [parts.join('\n')]. *)
Fixpoint join (parts : list t) : t :=
  match parts with
  | [] => []
  | [p] => p
  | p :: ps => p ++ LF :: join ps
  end.

(** An ASCII literal as a JavaScript string. *)
Definition lit (s : String.string) : t :=
  map Ascii.N_of_ascii (String.list_ascii_of_string s).

End JsString.

Abbreviation jsstring := JsString.t.
Abbreviation LF := JsString.LF.
Arguments JsString.lit s%_string.

(* ================================================================= *)
(** ** The chunker: [VectorStore.chunkText] *)

(** One iteration of [for (const line of lines)]: the state is
    [(chunks, currentChunk)]. *)
Definition chunkText_step (maxChunkSize : Z)
    (st : list jsstring * jsstring) (line : jsstring) : list jsstring * jsstring :=
  let '(chunks, currentChunk) := st in
  let '(chunks, currentChunk) :=
    if (Z.of_nat (length currentChunk) + Z.of_nat (length line) >? maxChunkSize)%Z
       && JsString.truthy currentChunk
    then (chunks ++ [JsString.trim currentChunk], [])
    else (chunks, currentChunk) in
  (chunks, currentChunk ++ line ++ [LF]).

Definition chunkText (text : jsstring) (maxChunkSize : Z) : list jsstring :=
  let lines := JsString.split text in
  let '(chunks, currentChunk) :=
    fold_left (chunkText_step maxChunkSize) lines ([], []) in
  if JsString.truthy (JsString.trim currentChunk)
  then chunks ++ [JsString.trim currentChunk]
  else chunks.

(* ================================================================= *)
(** ** JavaScript arrays and numbers *)

(** [arr.slice(start, end)] with relative (negative) indices. *)
Definition Array_slice {A} (arr : list A) (start end_ : Z) : list A :=
  let len := Z.of_nat (length arr) in
  let clamp k := (if k <? 0 then Z.max (len + k) 0 else Z.min k len)%Z in
  let from := clamp start in
  let to := clamp end_ in
  firstn (Z.to_nat (to - from)) (skipn (Z.to_nat from) arr).

(** A stable insertion sort; [after x y] says that [x] has to be placed
    behind [y]. Every stable sort returns this list when [after] is a strict
    weak order. *)
Section StableSort.
Context {A : Type}.
Variable after : A -> A -> bool.

Fixpoint insert_sorted (x : A) (l : list A) : list A :=
  match l with
  | [] => [x]
  | y :: l' => if after x y then y :: insert_sorted x l' else x :: l
  end.

Fixpoint stable_sort (l : list A) : list A :=
  match l with
  | [] => []
  | x :: l' => insert_sorted x (stable_sort l')
  end.

(** [x] may stand before [y]. *)
Definition in_order (x y : A) : Prop := after x y = false.

End StableSort.

(** [arr.sort(comparefn)]: the specification's SortCompare reads the
    comparator's number [v]; [v > 0] puts [x] behind [y], and [NaN] counts
    as [+0]. The sort is stable. For a comparator that never returns NaN
    this is the sorted array; for one that does, the specification leaves
    the order to the engine, and the insertion order used here is one
    choice, which an engine need not share. *)
Definition Array_sort {A} (comparefn : A -> A -> float) (arr : list A) : list A :=
  stable_sort (fun x y => (0 <? comparefn x y)%float) arr.

(** [ToNumber] of an array element that may be [undefined]. *)
Definition ToNumber (v : option float) : float :=
  match v with Some x => x | None => nan end.

(** [new Float32Array(xs)]: every number is rounded to the nearest binary32
    value (ties to even); reading the array back widens without loss. *)
Definition fround (x : float) : float :=
  match Prim2SF x with
  | S754_finite s m e => SF2Prim (binary_round 24 128 s m e)
  | _ => x
  end.

Definition Float32Array (xs : list float) : list float := map fround xs.

(** The value a call returns: [undefined], or a number. *)
Inductive jsval := JsUndefined | JsNumber (n : Z).

(* ================================================================= *)
(** ** [VectorStore.cosineSimilarity] *)

(** The body of [for (let i = 0; i < a.length; i++)]; the accumulator is
    [(dotProduct, normA, normB)]. [b[i]] is [undefined] past the end of [b]. *)
Definition cosine_step (a b : list float) (acc : float * float * float) (i : nat)
  : float * float * float :=
  let '(dotProduct, normA, normB) := acc in
  let ai := ToNumber (nth_error a i) in
  let bi := ToNumber (nth_error b i) in
  (dotProduct + ai * bi, normA + ai * ai, normB + bi * bi)%float.

Definition cosineSimilarity (a b : list float) : float :=
  let '(dotProduct, normA, normB) :=
    fold_left (cosine_step a b) (seq 0 (length a)) (0, 0, 0)%float in
  (dotProduct / (sqrt normA * sqrt normB))%float.

(* ================================================================= *)
(** ** The persistent store: the schema of [VectorStore.initialize] *)

Module IndexedFile.
(** [interface IndexedFile]; [mtime] is [file.mtime.getTime()], in
    milliseconds, of a valid date as [fs.stat] gives it (an invalid date
    has no time value and is not an [IndexedFile.t] here). *)
Record t := { path : jsstring; content : jsstring; mtime : Z; size : Z;
              extension : jsstring }.
End IndexedFile.

Module Files.
(** A row of table [files]: [id INTEGER PRIMARY KEY AUTOINCREMENT],
    [path TEXT UNIQUE NOT NULL]. *)
Record row := { id : Z; path : jsstring; content : jsstring; mtime : Z;
                size : Z; extension : jsstring }.
End Files.

Module Embeddings.
(** A row of table [embeddings]: [PRIMARY KEY (file_id, chunk_index)],
    [FOREIGN KEY (file_id) REFERENCES files(id) ON DELETE CASCADE]. The
    BLOB [embedding] is kept as the binary32 numbers it holds, which is what
    [Array.from(new Float32Array(...))] reads back. *)
Record row := { file_id : Z; chunk_index : Z; chunk_text : jsstring;
                embedding : list float }.
End Embeddings.

(** Both tables in rowid order, the AUTOINCREMENT counter that SQLite keeps
    for [files] in [sqlite_sequence], and the connection's
    [PRAGMA foreign_keys]. *)
Record Database := {
  files : list Files.row;
  embeddings : list Embeddings.row;
  sqlite_sequence : Z;
  foreign_keys : bool
}.

(** The database after [new Database(dbPath)] and [CREATE TABLE IF NOT
    EXISTS] on a new file; better-sqlite3 opens every connection with
    foreign keys enforced, and nothing in the code switches them off. *)
Definition empty_db : Database :=
  {| files := []; embeddings := []; sqlite_sequence := 0; foreign_keys := true |}.

Definition max_rowid (rows : list Files.row) : Z :=
  fold_right (fun r m => Z.max (Files.id r) m) 0%Z rows.

(** The largest rowid that [files] has ever had (AUTOINCREMENT). *)
Definition rowid_bound (d : Database) : Z :=
  Z.max (sqlite_sequence d) (max_rowid (files d)).

(** The record of [file] under the given rowid. *)
Definition file_row (rowid : Z) (file : IndexedFile.t) : Files.row :=
  {| Files.id := rowid;
     Files.path := IndexedFile.path file;
     Files.content := IndexedFile.content file;
     Files.mtime := IndexedFile.mtime file;
     Files.size := IndexedFile.size file;
     Files.extension := IndexedFile.extension file |}.
Arguments file_row rowid file /.

(** [INSERT OR REPLACE INTO files (path, content, mtime, size, extension)]:
    the row that holds [path] already is deleted, and with it, when foreign
    keys are enforced, the embeddings that reference it (ON DELETE
    CASCADE); the new row takes a rowid above every rowid the table ever
    had. The result is the database and [lastInsertRowid]. *)
Definition insertFile_run (d : Database) (file : IndexedFile.t) : Database * Z :=
  let conflict r := JsString.eqb (Files.path r) (IndexedFile.path file) in
  let deleted := map Files.id (filter conflict (files d)) in
  let rowid := (rowid_bound d + 1)%Z in
  ({| files := filter (fun r => negb (conflict r)) (files d) ++ [file_row rowid file];
      embeddings :=
        if foreign_keys d then
          filter (fun e => negb (existsb (Z.eqb (Embeddings.file_id e)) deleted))
                 (embeddings d)
        else embeddings d;
      sqlite_sequence := rowid;
      foreign_keys := foreign_keys d |},
   rowid).

(** The REPLACE of a row of [embeddings]: the row with the same primary
    key goes, the new row is appended. *)
Definition replace_embedding (d : Database) (row : Embeddings.row) : Database :=
  let same_key e :=
    ((Embeddings.file_id e =? Embeddings.file_id row)
     && (Embeddings.chunk_index e =? Embeddings.chunk_index row))%Z in
  {| files := files d;
     embeddings := filter (fun e => negb (same_key e)) (embeddings d) ++ [row];
     sqlite_sequence := sqlite_sequence d;
     foreign_keys := foreign_keys d |}.

(** [INSERT OR REPLACE INTO embeddings (file_id, chunk_index, chunk_text,
    embedding)]: a row with the same primary key is deleted first; with
    foreign keys enforced, a [file_id] that no row of [files] carries makes
    the statement throw. *)
Definition insertEmbedding_run (d : Database) (fileId chunkIndex : Z)
    (text : jsstring) (buffer : list float) : option Database :=
  if negb (foreign_keys d)
     || existsb (fun r => (Files.id r =? fileId)%Z) (files d) then
    Some (replace_embedding d
            {| Embeddings.file_id := fileId;
               Embeddings.chunk_index := chunkIndex;
               Embeddings.chunk_text := text;
               Embeddings.embedding := buffer |})
  else None.

(** [SELECT e.file_id, e.chunk_text, e.embedding, f.path, f.content, f.mtime
    FROM embeddings e JOIN files f ON e.file_id = f.id], scanned in the
    order of [embeddings]. *)
Module Joined.
Record row := { file_id : Z; chunk_text : jsstring; embedding : list float;
                path : jsstring; content : jsstring; mtime : Z }.
End Joined.

Definition select_embeddings_join_files (d : Database) : list Joined.row :=
  flat_map
    (fun e =>
       map (fun f =>
              {| Joined.file_id := Embeddings.file_id e;
                 Joined.chunk_text := Embeddings.chunk_text e;
                 Joined.embedding := Embeddings.embedding e;
                 Joined.path := Files.path f;
                 Joined.content := Files.content f;
                 Joined.mtime := Files.mtime f |})
           (filter (fun f => (Files.id f =? Embeddings.file_id e)%Z) (files d)))
    (embeddings d).

(** [ORDER BY mtime DESC] on [files]: the query runs down the index
    [idx_files_mtime], whose entries are ordered by mtime and, within one
    mtime, by rowid. [x] is placed behind [y] when [y] has the greater
    mtime, or the same mtime and the greater rowid. *)
Definition mtime_desc (x y : Files.row) : bool :=
  ((Files.mtime x <? Files.mtime y)
   || (Files.mtime x =? Files.mtime y) && (Files.id x <? Files.id y))%Z.

(** [SELECT path, mtime FROM files WHERE mtime > ? ORDER BY mtime DESC],
    the parameter an integer. *)
Definition select_files_modified_after (d : Database) (cutoff : Z) : list Files.row :=
  stable_sort mtime_desc (filter (fun r => (cutoff <? Files.mtime r)%Z) (files d)).

(** The Number that an integer is: the nearest binary64 value, which is the
    integer itself up to [2^53] in magnitude. *)
Definition Number_of_Z (z : Z) : float :=
  SF2Prim (binary_normalize prec emax z 0 false).

(** [mtime > ?] with the parameter a Number: SQLite compares an INTEGER
    with a REAL by value, the value of a finite number being [m * 2^e] with
    its sign; a NaN is bound as NULL, and no comparison with NULL holds. *)
Definition gt_number (i : Z) (r : float) : bool :=
  match Prim2SF r with
  | S754_nan => false
  | S754_infinity s => s
  | S754_zero _ => (0 <? i)%Z
  | S754_finite s m e =>
      let v := if s then Z.neg m else Z.pos m in
      if (0 <=? e)%Z then (v * 2 ^ e <? i)%Z else (v <? i * 2 ^ (- e))%Z
  end.

(** [SELECT path, mtime FROM files WHERE mtime > ? ORDER BY mtime DESC],
    the parameter a Number. *)
Definition select_files_modified_after_number (d : Database) (cutoff : float)
  : list Files.row :=
  stable_sort mtime_desc (filter (fun r => gt_number (Files.mtime r) cutoff) (files d)).

(* ================================================================= *)
(** ** Effects: the database, the embedding client, exceptions *)

Inductive error :=
| EmbeddingError   (* the embedding request was rejected *)
| TypeError        (* [response.data[j]] is [undefined] *)
| SqliteError.     (* a constraint of the schema failed *)

Inductive completion (A : Type) :=
| Normal (a : A)
| Throw (e : error).
Arguments Normal {A} a.
Arguments Throw {A} e.

(** The store and the number of embedding requests issued so far. *)
Record World := { db : Database; requests : nat }.

Definition M (A : Type) : Type := World -> completion A * World.

Definition ret {A} (a : A) : M A := fun w => (Normal a, w).

Definition throw {A} (e : error) : M A := fun w => (Throw e, w).

Definition bind {A B} (c : M A) (k : A -> M B) : M B :=
  fun w =>
    match c w with
    | (Normal a, w') => k a w'
    | (Throw e, w') => (Throw e, w')
    end.

Notation "x <- c ;; k" := (bind c (fun x => k))
  (at level 61, c at next level, right associativity).
Notation "c ;; k" := (bind c (fun _ => k))
  (at level 61, right associativity).

Module SearchResult.
(** [interface SearchResult]. *)
Record t := { path : jsstring; content : jsstring; score : float; mtime : Z }.
End SearchResult.

Module RecentFile.
Record t := { path : jsstring; mtime : Z }.
End RecentFile.

Definition batchSize : nat := 20.

Section VectorStore.

(** The embedding client, [openai.embeddings.create]: what the [n]-th
    request of the process answers on an input, [None] when the request
    is rejected; a response is the list of its [data[j].embedding]. *)
Variable openai : nat -> list jsstring -> option (list (list float)).

Definition embeddings_create (input : list jsstring) : M (list (list float)) :=
  fun w =>
    let w' := {| db := db w; requests := S (requests w) |} in
    match openai (requests w) input with
    | Some data => (Normal data, w')
    | None => (Throw EmbeddingError, w')
    end.

(** [insertFile.run(...)]: every NOT NULL column receives a value from the
    fields of [IndexedFile.t], and REPLACE resolves a clash on [path], so
    the statement succeeds. *)
Definition insertFile (file : IndexedFile.t) : M Z :=
  fun w =>
    let '(d, rowid) := insertFile_run (db w) file in
    (Normal rowid, {| db := d; requests := requests w |}).

Definition insertEmbedding (fileId chunkIndex : Z) (text : jsstring)
    (buffer : list float) : M unit :=
  fun w =>
    match insertEmbedding_run (db w) fileId chunkIndex text buffer with
    | Some d => (Normal tt, {| db := d; requests := requests w |})
    | None => (Throw SqliteError, w)
    end.

(** [for (let j = 0; j < batch.length; j++)], entered at [j] with
    [rest = batch.slice(j)]. *)
Fixpoint storeEmbeddings (fileId : Z) (i j : nat) (rest : list jsstring)
    (data : list (list float)) : M unit :=
  match rest with
  | [] => ret tt
  | text :: rest' =>
      match nth_error data j with
      | None => throw TypeError
      | Some embedding =>
          insertEmbedding fileId (Z.of_nat (i + j)) text (Float32Array embedding) ;;
          storeEmbeddings fileId i (S j) rest' data
      end
  end.

(** [for (let i = 0; i < chunks.length; i += batchSize)], entered at [i];
    [fuel] bounds the number of iterations. *)
Fixpoint embedBatches (fuel : nat) (fileId : Z) (chunks : list jsstring) (i : nat)
  : M unit :=
  match fuel with
  | 0 => ret tt
  | S fuel' =>
      if i <? length chunks then
        let batch := Array_slice chunks (Z.of_nat i) (Z.of_nat (i + batchSize)) in
        data <- embeddings_create batch ;;
        storeEmbeddings fileId i 0 batch data ;;
        embedBatches fuel' fileId chunks (i + batchSize)
      else ret tt
  end.

(** The body of [for (const file of files)]. *)
Definition indexFile (file : IndexedFile.t) : M unit :=
  fileId <- insertFile file ;;
  let chunks := chunkText (IndexedFile.content file) 500 in
  embedBatches (length chunks) fileId chunks 0.

Fixpoint indexFiles_loop (files : list IndexedFile.t) : M unit :=
  match files with
  | [] => ret tt
  | file :: files' => indexFile file ;; indexFiles_loop files'
  end.

(** [async indexFiles(files)]: the body has no [return]. *)
Definition indexFiles (files : list IndexedFile.t) : M jsval :=
  indexFiles_loop files ;; ret JsUndefined.

Definition toSearchResult (queryEmbedding : list float) (row : Joined.row)
  : SearchResult.t :=
  {| SearchResult.path := Joined.path row;
     SearchResult.content := Joined.chunk_text row;
     SearchResult.score := cosineSimilarity queryEmbedding (Joined.embedding row);
     SearchResult.mtime := Joined.mtime row |}.

Definition by_score_desc (a b : SearchResult.t) : float :=
  (SearchResult.score b - SearchResult.score a)%float.

(** [async search(query, limit)]; the query is the one input of its
    embedding request. *)
Definition search (query : jsstring) (limit : Z) : M (list SearchResult.t) :=
  data <- embeddings_create [query] ;;
  match nth_error data 0 with
  | None => throw TypeError
  | Some queryEmbedding =>
      fun w =>
        let rows := select_embeddings_join_files (db w) in
        let results := map (toSearchResult queryEmbedding) rows in
        (Normal (Array_slice (Array_sort by_score_desc results) 0 limit), w)
  end.

End VectorStore.

(** [(row) => ({ path: row.path, mtime: new Date(row.mtime) })]; the date
    is held as its time value, the stored times being those of valid
    dates. *)
Definition recent_of (row : Files.row) : RecentFile.t :=
  {| RecentFile.path := Files.path row; RecentFile.mtime := Files.mtime row |}.

(** [getRecentFiles(days)] for any Number [days]; [now] is [Date.now()], in
    milliseconds. The cutoff is computed in binary64, one product after the
    other. A call without argument is the call with [days = 7]. *)
Definition getRecentFiles_number (now : Z) (days : float) (d : Database)
  : list RecentFile.t :=
  let cutoff := (Number_of_Z now - days * 24 * 60 * 60 * 1000)%float in
  map recent_of (select_files_modified_after_number d cutoff).

(** [getRecentFiles(days)] on a whole number of days, in integers: on the
    days that a [Date] spans the arithmetic of Numbers is exact, and this
    is what [getRecentFiles_number] returns. *)
Definition getRecentFiles (now : Z) (days : Z) (d : Database) : list RecentFile.t :=
  let cutoff := (now - days * 24 * 60 * 60 * 1000)%Z in
  map recent_of (select_files_modified_after d cutoff).

(** [new VectorStore(dbPath)] on a fresh database file. *)
Definition initial_world : World := {| db := empty_db; requests := 0 |}.

(* ================================================================= *)
(** ** The tool layer: the request handler of src/index.ts *)

(** [String(n)] of an integer below 10^21 in absolute value: its decimal
    digits, with a minus sign when negative. *)
Definition Number_toString (n : Z) : jsstring :=
  JsString.lit (DecimalString.NilZero.string_of_int (Z.to_int n)).

(** [s.substring(0, n)]. *)
Definition substring0 (n : nat) (s : jsstring) : jsstring := firstn n s.

(** [(v as number) || dflt]: an absent number and the number 0 are falsy. *)
Definition or_default (v : option Z) (dflt : Z) : Z :=
  match v with
  | Some n => if (n =? 0)%Z then dflt else n
  | None => dflt
  end.

Module ToolResult.
(** The result of a tool call: the text of its one content item and
    [isError], absent (false) on success. *)
Record t := { text : jsstring; isError : bool }.
End ToolResult.

Module ToolArguments.
(** [request.params.arguments] of a request that conforms to the tools'
    input schemas: [path] and [query] are strings, read by the tools that
    require them; [limit] and [days] are whole numbers, or absent. *)
Record t := { path : jsstring; query : jsstring; limit : option Z; days : option Z }.
End ToolArguments.

Module CallToolRequest.
(** [request.params]; [arguments] may be absent altogether. *)
Record t := { name : jsstring; arguments : option ToolArguments.t }.
End CallToolRequest.

(** What a handler can throw. *)
Inductive failure :=
| StoreFailure (e : error)        (* thrown inside [VectorStore] *)
| EnumeratorFailure               (* thrown by [indexer.indexDirectory] *)
| ReadFailure                     (* thrown by [fs.readFile] *)
| RangeError                      (* [toISOString] of an invalid date *)
| UnknownTool (name : jsstring).  (* [new Error(`Unknown tool: ${name}`)] *)

Section ToolLayer.

Variable openai : nat -> list jsstring -> option (list (list float)).

(** The collaborators of the handlers, as they answer during the call:
    the file enumerator [indexer.indexDirectory] and [fs.readFile], [None]
    when they throw; the built-ins [Number.prototype.toFixed(3)] and
    [Date.prototype.toISOString], which throws on an invalid date; and the
    [message] of an error that a library throws. *)
Variable indexDirectory : jsstring -> option (list IndexedFile.t).
Variable readFile : jsstring -> option jsstring.
Variable toFixed3 : float -> jsstring.
Variable toISOString : Z -> option jsstring.
Variable message : failure -> jsstring.

Definition success (text : jsstring) : ToolResult.t + failure :=
  inl {| ToolResult.text := text; ToolResult.isError := false |}.

Definition handleIndexDirectory (dirPath : jsstring) (w : World)
  : (ToolResult.t + failure) * World :=
  match indexDirectory dirPath with
  | None => (inr EnumeratorFailure, w)
  | Some files =>
      match indexFiles openai files w with
      | (Normal _, w') =>
          (success (JsString.lit "Indexed " ++ Number_toString (Z.of_nat (length files))
                    ++ JsString.lit " files from " ++ dirPath),
           w')
      | (Throw e, w') => (inr (StoreFailure e), w')
      end
  end.

(** One result of a search, as the handler prints it. *)
Definition formatResult (r : SearchResult.t) : jsstring :=
  JsString.lit "**" ++ SearchResult.path r ++ JsString.lit "** (score: "
  ++ toFixed3 (SearchResult.score r) ++ JsString.lit ")" ++ [LF]
  ++ substring0 200 (SearchResult.content r) ++ JsString.lit "..." ++ [LF].

Definition handleSemanticSearch (query : jsstring) (limit : Z) (w : World)
  : (ToolResult.t + failure) * World :=
  match search openai query limit w with
  | (Normal results, w') =>
      let formatted := JsString.join (map formatResult results) in
      (success (JsString.lit "Found " ++ Number_toString (Z.of_nat (length results))
                ++ JsString.lit " results:" ++ [LF; LF] ++ formatted),
       w')
  | (Throw e, w') => (inr (StoreFailure e), w')
  end.

Definition handleSummarizeFile (filePath : jsstring) (w : World)
  : (ToolResult.t + failure) * World :=
  match readFile filePath with
  | None => (inr ReadFailure, w)
  | Some content =>
      (success (JsString.lit "File: " ++ filePath ++ [LF; LF]
                ++ JsString.lit "Size: " ++ Number_toString (Z.of_nat (length content))
                ++ JsString.lit " bytes" ++ [LF; LF] ++ JsString.lit "Preview:" ++ [LF]
                ++ substring0 500 content ++ JsString.lit "..."),
       w)
  end.

(** [files.map(f => `${f.mtime.toISOString()}: ${f.path}`)]: the first
    invalid date stops the loop. *)
Fixpoint formatRecent (files : list RecentFile.t) : option (list jsstring) :=
  match files with
  | [] => Some []
  | f :: files' =>
      match toISOString (RecentFile.mtime f) with
      | None => None
      | Some iso =>
          match formatRecent files' with
          | None => None
          | Some lines => Some ((iso ++ JsString.lit ": " ++ RecentFile.path f) :: lines)
          end
      end
  end.

(** [now] is [Date.now()] at the call. *)
Definition handleRecentActivity (now : Z) (days : Z) (w : World)
  : (ToolResult.t + failure) * World :=
  match formatRecent (getRecentFiles now days (db w)) with
  | None => (inr RangeError, w)
  | Some lines =>
      (success (JsString.lit "Recent activity (last " ++ Number_toString days
                ++ JsString.lit " days):" ++ [LF; LF] ++ JsString.join lines),
       w)
  end.

Definition error_message (f : failure) : jsstring :=
  match f with
  | UnknownTool name => JsString.lit "Unknown tool: " ++ name
  | _ => message f
  end.

Definition error_result (text : jsstring) : ToolResult.t :=
  {| ToolResult.text := text; ToolResult.isError := true |}.

(** The handler of [CallToolRequestSchema]: the check of [args], the
    [switch] on the tool name inside [try], and the [catch]. *)
Definition callTool (now : Z) (request : CallToolRequest.t) (w : World)
  : ToolResult.t * World :=
  let name := CallToolRequest.name request in
  match CallToolRequest.arguments request with
  | None => (error_result (JsString.lit "Error: Missing arguments"), w)
  | Some args =>
      let '(r, w') :=
        if JsString.eqb name (JsString.lit "index_directory") then
          handleIndexDirectory (ToolArguments.path args) w
        else if JsString.eqb name (JsString.lit "semantic_search") then
          handleSemanticSearch (ToolArguments.query args)
                               (or_default (ToolArguments.limit args) 5) w
        else if JsString.eqb name (JsString.lit "summarize_file") then
          handleSummarizeFile (ToolArguments.path args) w
        else if JsString.eqb name (JsString.lit "recent_activity") then
          handleRecentActivity now (or_default (ToolArguments.days args) 7) w
        else (inr (UnknownTool name), w) in
      match r with
      | inl result => (result, w')
      | inr f => (error_result (JsString.lit "Error: " ++ error_message f), w')
      end
  end.

End ToolLayer.

(* ================================================================= *)
(** ** Vocabulary of the properties *)

(** A line or chunk that is not empty and neither begins nor ends with a
    white-space character: [trim] leaves it alone. *)
Definition no_edge_space (s : jsstring) : bool :=
  match s with
  | [] => false
  | c :: _ => negb (JsString.isWhiteSpace c) && negb (JsString.isWhiteSpace (last s c))
  end.

(** The characters of a string that are not white space, in order. *)
Definition non_space (s : jsstring) : jsstring :=
  filter (fun c => negb (JsString.isWhiteSpace c)) s.

(** A string of white-space characters only. *)
Definition blank (s : jsstring) : bool := forallb JsString.isWhiteSpace s.

Module Piece.
(** A chunk where it lies in the text: the white space before it, the chunk
    itself, and the white space after it up to the separator that ends its
    last line. *)
Record t := { lead : jsstring; chunk : jsstring; trail : jsstring }.
End Piece.

(** The part of the text that a piece covers. *)
Definition spread (p : Piece.t) : jsstring :=
  Piece.lead p ++ Piece.chunk p ++ Piece.trail p ++ [LF].

(** The chunk is what [trim] leaves of the part it covers: around it there
    is white space only. *)
Definition trimmed_from (p : Piece.t) : Prop :=
  blank (Piece.lead p) = true /\ blank (Piece.trail p) = true
  /\ Piece.chunk p = JsString.trim (spread p).

(** [trim] took nothing from the part that the piece covers. *)
Definition nothing_trimmed (p : Piece.t) : Prop :=
  Piece.lead p = [] /\ Piece.trail p = [].

(** A buffer of the chunker's loop: empty, or whole lines with their
    separators. *)
Definition whole_lines (cur : jsstring) : Prop :=
  cur = [] \/ exists x, cur = x ++ [LF].

Module Ieee.



(** Not NaN. *)
Definition number (x : float) : Prop := Prim2SF x <> S754_nan.

End Ieee.

Module IeeeInt.
(** The binary64 representation of an integer below [2^53] in magnitude:
    the mantissa is the magnitude shifted to 53 bits. *)
Definition mantissa (m : positive) : positive :=
  Z.to_pos (Zpos m * 2 ^ (53 - Zpos (digits2_pos m))).
Definition exponent (m : positive) : Z := Zpos (digits2_pos m) - 53.
Definition canon (v : Z) : spec_float :=
  match v with
  | Z0 => S754_zero false
  | Zpos m => S754_finite false (mantissa m) (exponent m)
  | Zneg m => S754_finite true (mantissa m) (exponent m)
  end.

(** The magnitude [mr * 2^er] of a finite number against a positive
    integer, by value. *)
Definition magnitude_compare (mr : positive) (er : Z) (m : positive) : comparison :=
  (if 0 <=? er then Zpos mr * 2 ^ er ?= Zpos m
   else Zpos mr ?= Zpos m * 2 ^ (- er))%Z.
End IeeeInt.


(** The rows of the join, scored against the query embedding, in retrieval
    order. *)
Definition scored (q : list float) (w : World) : list SearchResult.t :=
  map (toSearchResult q) (select_embeddings_join_files (db w)).

(** [r1] may stand before [r2]: its score is at least as high. *)
Definition ge_score (r1 r2 : SearchResult.t) : Prop :=
  (SearchResult.score r2 <=? SearchResult.score r1)%float = true.

Definition score_is_number (r : SearchResult.t) : bool :=
  negb (is_nan (SearchResult.score r)).

Definition lt_score (r1 r2 : SearchResult.t) : bool :=
  (SearchResult.score r1 <? SearchResult.score r2)%float.

(** The file records of a path, the chunk-vector records of a file id, and
    what a reader who joins the two tables sees for a path. *)
Definition file_rows (d : Database) (p : jsstring) : list Files.row :=
  filter (fun r => JsString.eqb (Files.path r) p) (files d).

Definition chunks_of (d : Database) (fileId : Z) : list Embeddings.row :=
  filter (fun e => (Embeddings.file_id e =? fileId)%Z) (embeddings d).

Definition view (d : Database) (p : jsstring)
  : list (Files.row * list Embeddings.row) :=
  map (fun r => (r, chunks_of d (Files.id r))) (file_rows d p).

(** The sequence numbers and texts of a file's chunk records, in table
    order. *)
Definition chunk_entries (d : Database) (fileId : Z) : list (Z * jsstring) :=
  map (fun e => (Embeddings.chunk_index e, Embeddings.chunk_text e))
      (chunks_of d fileId).

(** Chunks numbered from [k]. *)
Definition numbered (k : nat) (texts : list jsstring) : list (Z * jsstring) :=
  combine (map Z.of_nat (seq k (length texts))) texts.

(** The record [row] carries what [file] says. *)
Definition row_of (file : IndexedFile.t) (row : Files.row) : Prop :=
  Files.path row = IndexedFile.path file
  /\ Files.content row = IndexedFile.content file
  /\ Files.mtime row = IndexedFile.mtime file
  /\ Files.size row = IndexedFile.size file
  /\ Files.extension row = IndexedFile.extension file.

(** [file] is fully committed: one record for its path, and the chunk
    records joined to it are the chunks of its content, numbered from 0. *)
Definition committed (d : Database) (file : IndexedFile.t) : Prop :=
  exists row,
    file_rows d (IndexedFile.path file) = [row]
    /\ row_of file row
    /\ chunk_entries d (Files.id row)
       = numbered 0 (chunkText (IndexedFile.content file) 500).

(** The last file of the list that has path [p]: the one whose content a
    completed [indexFiles] leaves in the store. *)
Fixpoint latest (files : list IndexedFile.t) (p : jsstring) : option IndexedFile.t :=
  match files with
  | [] => None
  | file :: files' =>
      match latest files' p with
      | Some later => Some later
      | None => if JsString.eqb (IndexedFile.path file) p then Some file else None
      end
  end.

(** What the schema and the code's use of it guarantee: rowids are unique,
    no embedding carries a file id that was never given out, and under
    enforced foreign keys every embedding references a file record. *)
Record consistent (d : Database) : Prop := {
  unique_ids : NoDup (map Files.id (files d));
  known_ids : forall e, In e (embeddings d) ->
                        (Embeddings.file_id e <= rowid_bound d)%Z;
  foreign_key : foreign_keys d = true ->
                forall e, In e (embeddings d) ->
                          In (Embeddings.file_id e) (map Files.id (files d))
}.

(** What storing the chunk vectors of file [fileId] may change in the
    store: its own chunk records, nothing else. *)
Record touches_only (fileId : Z) (w w' : World) : Prop := {
  same_files : files (db w') = files (db w);
  same_pragma : foreign_keys (db w') = foreign_keys (db w);
  same_others : forall fileId', fileId' <> fileId ->
                  chunks_of (db w') fileId' = chunks_of (db w) fileId';
  still_consistent : consistent (db w) -> consistent (db w')
}.

(** How far the chunk records of the file in progress got, by the way its
    indexing ended: all chunks on normal completion; the [k] answered
    batches when the client rejects the next request. *)
Definition progress (file : IndexedFile.t) (w w' : World) (r : completion unit)
    (n : nat) : Prop :=
  let chunks := chunkText (IndexedFile.content file) 500 in
  match r with
  | Normal _ => n = length chunks
  | Throw EmbeddingError =>
      n < length chunks
      /\ exists k, requests w' = S (requests w + k) /\ n = batchSize * k
  | Throw TypeError => n <= length chunks
  | Throw SqliteError => False
  end.

(** The loop of the chunker and its flushes, on lines already split. *)
Definition chunkLines (lines : list jsstring) (maxChunkSize : Z) : list jsstring :=
  let '(chunks, currentChunk) :=
    fold_left (chunkText_step maxChunkSize) lines ([], []) in
  if JsString.truthy (JsString.trim currentChunk)
  then chunks ++ [JsString.trim currentChunk]
  else chunks.

(** What the flush inside the loop pushes when the next line does not fit. *)
Definition flushed (currentChunk : jsstring) : list jsstring :=
  if JsString.truthy currentChunk then [JsString.trim currentChunk] else [].

(** The worlds the process can be in: a new store, then any calls of
    [indexFiles] (completed or failed) and [search]. *)
Inductive reachable (openai : nat -> list jsstring -> option (list (list float)))
  : World -> Prop :=
| reachable_initial : reachable openai initial_world
| reachable_indexFiles files w :
    reachable openai w -> reachable openai (snd (indexFiles openai files w))
| reachable_search query limit w :
    reachable openai w -> reachable openai (snd (search openai query limit w)).

(** The buffer of the loop when every line is at most [M] long, [M] at
    least the bound: empty, or at most [M] characters and the separator. *)
Definition buffer_within (M : Z) (cur : jsstring) : Prop :=
  cur = [] \/ exists x, cur = x ++ [LF] /\ (Z.of_nat (length x) <= M)%Z.

(** The number of requests that embedding [n] chunks takes. *)
Definition batches (n : nat) : nat := (n + (batchSize - 1)) / batchSize.

(** The chunk records of a file record are numbered from 0 without a gap
    and hold the leading chunks of the record's content. *)
Definition chunks_current (d : Database) (row : Files.row) : Prop :=
  exists n, chunk_entries d (Files.id row)
            = numbered 0 (firstn n (chunkText (Files.content row) 500)).

(** A path has no record, or one record with such chunk records. *)
Definition tidy (d : Database) : Prop :=
  forall p, file_rows d p = []
            \/ exists row, file_rows d p = [row] /\ chunks_current d row.

(** The chunk record that [insertEmbedding.run(fileId, k, text, buffer)]
    writes for the client's vector [vec]. *)
Definition chunk_record (fileId : Z) (k : nat) (text : jsstring) (vec : list float)
  : Embeddings.row :=
  {| Embeddings.file_id := fileId;
     Embeddings.chunk_index := Z.of_nat k;
     Embeddings.chunk_text := text;
     Embeddings.embedding := Float32Array vec |}.

(* ################################################################# *)
(** * Properties *)

(* ================================================================= *)
(** ** Strings *)

Module JsStringFacts.
Import JsString.

Lemma eqb_eq a b : eqb a b = true <-> a = b.
Proof. unfold eqb. destruct (eq_dec a b); split; congruence. Qed.

Lemma eqb_neq a b : eqb a b = false <-> a <> b.
Proof. unfold eqb. destruct (eq_dec a b); split; congruence. Qed.

Lemma eqb_refl a : eqb a a = true.
Proof. now apply eqb_eq. Qed.

Lemma split_not_nil s : split s <> [].
Proof.
  destruct s as [|c s]; simpl; [discriminate|].
  destruct (c =? LF)%N; [discriminate|].
  destruct (split s); discriminate.
Qed.

Lemma join_cons p ps : join (p :: ps) = p ++ flat_map (cons LF) ps.
Proof.
  revert p. induction ps as [|q ps IH]; intros p.
  - simpl. now rewrite app_nil_r.
  - change (join (p :: q :: ps)) with (p ++ LF :: join (q :: ps)).
    rewrite IH. reflexivity.
Qed.

Lemma cons_join parts : parts <> [] -> LF :: join parts = flat_map (cons LF) parts.
Proof. destruct parts as [|p ps]; [congruence|]. now rewrite join_cons. Qed.

(** Splitting at the separator and joining again is the identity. *)
Lemma join_split s : join (split s) = s.
Proof.
  induction s as [|c s IH]; [reflexivity|].
  simpl. destruct (N.eqb_spec c LF) as [->|Hc].
  - rewrite join_cons.
    destruct (split s) as [|l ls] eqn:E; [now destruct (split_not_nil s)|].
    rewrite join_cons in IH. simpl. now rewrite IH.
  - destruct (split s) as [|l ls] eqn:E; [now destruct (split_not_nil s)|].
    rewrite join_cons in *. simpl. now rewrite IH.
Qed.

Lemma trimStart_keeps c s : isWhiteSpace c = false -> trimStart (c :: s) = c :: s.
Proof. intros H. simpl. now rewrite H. Qed.

End JsStringFacts.

(* ================================================================= *)
(** ** The chunker *)

(** Lists of lists, flattened: reassociate to the right. *)
Ltac list_norm :=
  repeat (progress (rewrite ?flat_map_app, ?app_nil_r, <- ?app_assoc;
                    cbn [app flat_map])).

Section Chunker.
Import JsString JsStringFacts.

Lemma last_app_cons (A : Type) (l r : list A) (x d : A) :
  last (l ++ x :: r) d = last (x :: r) d.
Proof.
  induction l as [|y l IH]; [reflexivity|].
  simpl app. rewrite <- IH. simpl. now destruct (l ++ x :: r) eqn:E; [destruct l|].
Qed.

Lemma last_cons_indep (A : Type) (r : list A) (x d d' : A) :
  last (x :: r) d = last (x :: r) d'.
Proof.
  revert x. induction r as [|y r IH]; intros x; [reflexivity|].
  change (last (y :: r) d = last (y :: r) d'). apply IH.
Qed.

Lemma no_edge_space_app g l :
  no_edge_space g = true -> no_edge_space l = true ->
  no_edge_space (g ++ LF :: l) = true.
Proof.
  destruct g as [|c g]; [discriminate|]. destruct l as [|d l]; [discriminate|].
  simpl no_edge_space at 1 2. intros Hg Hl.
  apply andb_prop in Hg as [Hc _]. apply andb_prop in Hl as [_ Hd].
  change (no_edge_space ((c :: g) ++ LF :: d :: l))
    with (negb (isWhiteSpace c)
          && negb (isWhiteSpace (last ((c :: g) ++ LF :: d :: l) c))).
  rewrite Hc, last_app_cons, (last_cons_indep _ (d :: l) LF c d).
  exact Hd.
Qed.

Lemma trim_no_edge_space g :
  no_edge_space g = true -> trim (g ++ [LF]) = g.
Proof.
  intros H. destruct g as [|c g]; [discriminate|].
  change (negb (isWhiteSpace c) && negb (isWhiteSpace (last (c :: g) c)) = true) in H.
  apply andb_prop in H as [Hc Hd].
  apply negb_true_iff in Hc, Hd.
  unfold trim, trimEnd. rewrite rev_app_distr.
  change (rev [LF] ++ rev (c :: g)) with (LF :: rev (c :: g)).
  change (trimStart (LF :: rev (c :: g))) with (trimStart (rev (c :: g))).
  destruct (rev (c :: g)) as [|d r] eqn:E.
  - apply (f_equal (@length _)) in E. rewrite length_rev in E. discriminate.
  - assert (Hlast : last (c :: g) c = d).
    { rewrite <- (rev_involutive (c :: g)), E. simpl. now rewrite last_last. }
    unfold char in *. rewrite Hlast in Hd. rewrite trimStart_keeps by exact Hd.
    assert (Hrev : rev (d :: r) = c :: g) by (rewrite <- E; apply rev_involutive).
    unfold char in *. rewrite Hrev. now apply trimStart_keeps.
Qed.

Lemma truthy_no_edge_space g : no_edge_space g = true -> truthy g = true.
Proof. now destruct g. Qed.

(** The loop on lines without edge spaces: the buffer always is a group of
    whole lines [g] followed by the separator, and joining what was emitted
    with [g] gives the lines read so far. *)
Lemma chunkText_loop_clean B lines : forall chunks g,
  no_edge_space g = true ->
  forallb no_edge_space lines = true ->
  exists chunks' g',
    fold_left (chunkText_step B) lines (chunks, g ++ [LF]) = (chunks', g' ++ [LF])
    /\ no_edge_space g' = true
    /\ flat_map (cons LF) (chunks' ++ [g']) =
       flat_map (cons LF) (chunks ++ [g]) ++ flat_map (cons LF) lines.
Proof.
  induction lines as [|l lines IH]; intros chunks g Hg Hl.
  - exists chunks, g. simpl. now rewrite app_nil_r.
  - simpl in Hl. apply andb_prop in Hl as [Hl Hls].
    cbn [fold_left]. unfold chunkText_step at 2.
    destruct ((_ >? B)%Z && truthy (g ++ [LF])).
    + destruct (IH (chunks ++ [trim (g ++ [LF])]) l Hl Hls)
        as (chunks' & g' & Hf & Hg' & Hj).
      exists chunks', g'. cbn [app].
      split; [exact Hf|]. split; [exact Hg'|].
      rewrite Hj, (trim_no_edge_space _ Hg). now list_norm.
    + destruct (IH chunks (g ++ LF :: l) (no_edge_space_app _ _ Hg Hl) Hls)
        as (chunks' & g' & Hf & Hg' & Hj).
      exists chunks', g'.
      replace ((g ++ [LF]) ++ l ++ [LF]) with ((g ++ LF :: l) ++ [LF])
        by (now rewrite <- !app_assoc).
      split; [exact Hf|]. split; [exact Hg'|].
      rewrite Hj. now list_norm.
Qed.

Lemma non_space_app a b : non_space (a ++ b) = non_space a ++ non_space b.
Proof. apply filter_app. Qed.

Lemma non_space_trimStart s : non_space (trimStart s) = non_space s.
Proof.
  induction s as [|c s IH]; [reflexivity|]. simpl.
  destruct (isWhiteSpace c) eqn:E; [|simpl; now rewrite E].
  now rewrite IH.
Qed.

Lemma non_space_trim s : non_space (trim s) = non_space s.
Proof.
  unfold trim, trimEnd. rewrite non_space_trimStart.
  unfold non_space at 1. rewrite filter_rev.
  fold (non_space (trimStart (rev s))). rewrite non_space_trimStart.
  unfold non_space. now rewrite filter_rev, rev_involutive.
Qed.

Lemma non_space_truthy s : truthy s = false -> non_space s = [].
Proof. now destruct s. Qed.

Lemma non_space_join parts : non_space (join parts) = flat_map non_space parts.
Proof.
  destruct parts as [|p ps]; [reflexivity|].
  rewrite JsStringFacts.join_cons, non_space_app. cbn [flat_map]. f_equal.
  induction ps as [|q ps IH]; [reflexivity|].
  cbn [flat_map]. rewrite non_space_app, <- IH. reflexivity.
Qed.

(** The loop neither loses nor adds a character that is not white space. *)
Lemma chunkText_loop_non_space B (lines : list jsstring) :
  forall (chunks : list jsstring) (cur : jsstring),
  let '(chunks', cur') := fold_left (chunkText_step B) lines (chunks, cur) in
  flat_map non_space chunks' ++ non_space cur'
  = (flat_map non_space chunks ++ non_space cur) ++ flat_map non_space lines.
Proof.
  induction lines as [|l lines IH]; intros chunks cur.
  - simpl. now rewrite app_nil_r.
  - cbn [fold_left]. unfold chunkText_step at 2.
    destruct ((_ >? B)%Z && truthy cur).
    + specialize (IH (chunks ++ [trim cur]) ([] ++ l ++ [LF])).
      destruct (fold_left _ lines _) as [chunks' cur']. rewrite IH.
      rewrite flat_map_app. cbn [flat_map app].
      rewrite !non_space_app, non_space_trim. cbn. now rewrite !app_nil_r, <- !app_assoc.
    + specialize (IH chunks (cur ++ l ++ [LF])).
      destruct (fold_left _ lines _) as [chunks' cur']. rewrite IH.
      rewrite !non_space_app. cbn. now rewrite !app_nil_r, <- !app_assoc.
Qed.

Lemma chunkText_non_space T B :
  non_space (join (chunkText T B)) = non_space T.
Proof.
  rewrite <- (JsStringFacts.join_split T) at 2. rewrite !non_space_join.
  unfold chunkText.
  pose proof (chunkText_loop_non_space B (split T) [] []) as H.
  destruct (fold_left _ (split T) _) as [chunks cur]. cbn [flat_map app non_space filter] in H.
  rewrite <- H. destruct (truthy (trim cur)) eqn:E.
  - rewrite flat_map_app. cbn [flat_map]. now rewrite app_nil_r, non_space_trim.
  - apply non_space_truthy in E. rewrite non_space_trim in E.
    now rewrite E, app_nil_r.
Qed.

End Chunker.

(** *** Where the chunks lie in the text *)

Section Pieces.
Import JsString JsStringFacts.

Lemma blank_app a b : blank (a ++ b) = blank a && blank b.
Proof. apply forallb_app. Qed.

Lemma blank_rev s : blank (rev s) = blank s.
Proof.
  induction s as [|c s IH]; [reflexivity|].
  cbn [rev]. rewrite blank_app, IH. cbn. now rewrite andb_true_r, andb_comm.
Qed.

Lemma trimStart_pad s : exists lead, blank lead = true /\ s = lead ++ trimStart s.
Proof.
  induction s as [|c s (lead & Hb & Hs)]; [now exists []|].
  cbn [trimStart]. destruct (isWhiteSpace c) eqn:E; [|now exists []].
  exists (c :: lead). cbn. rewrite E, <- Hs. now split.
Qed.

Lemma trimEnd_pad s : exists trail, blank trail = true /\ s = trimEnd s ++ trail.
Proof.
  destruct (trimStart_pad (rev s)) as (lead & Hb & Hs).
  exists (rev lead). split; [now rewrite blank_rev|].
  unfold trimEnd. rewrite <- rev_app_distr, <- Hs. now rewrite rev_involutive.
Qed.

(** What [trim] removes is white space before and after what it keeps. *)
Lemma trim_pad s :
  exists lead trail,
    blank lead = true /\ blank trail = true /\ s = lead ++ trim s ++ trail.
Proof.
  destruct (trimEnd_pad s) as (trail & Ht & Hs).
  destruct (trimStart_pad (trimEnd s)) as (lead & Hl & He).
  exists lead, trail. split; [exact Hl|]. split; [exact Ht|].
  unfold trim. now rewrite app_assoc, <- He.
Qed.

Lemma trim_snoc_LF s : trim (s ++ [LF]) = trim s.
Proof.
  unfold trim, trimEnd. now rewrite rev_app_distr.
Qed.

Lemma trim_blank s : truthy (trim s) = false -> blank s = true.
Proof.
  intros H. destruct (trim_pad s) as (lead & trail & Hl & Ht & Hs).
  destruct (trim s); [|discriminate]. rewrite Hs, blank_app. cbn [app].
  now rewrite Hl, Ht.
Qed.

(** The piece of a flushed buffer. *)
Lemma flush_piece x :
  exists p, Piece.chunk p = trim (x ++ [LF]) /\ trimmed_from p
            /\ spread p = x ++ [LF].
Proof.
  destruct (trim_pad x) as (lead & trail & Hl & Ht & Hs).
  exists {| Piece.lead := lead; Piece.chunk := trim x; Piece.trail := trail |}.
  assert (Hx : lead ++ trim x ++ trail ++ [LF] = x ++ [LF]).
  { rewrite Hs at 2. now rewrite <- !app_assoc. }
  unfold trimmed_from, spread. cbn [Piece.lead Piece.chunk Piece.trail].
  rewrite Hx, trim_snoc_LF. now repeat split.
Qed.

Lemma chunkText_loop_pieces B lines : forall chunks cur pieces,
  map Piece.chunk pieces = chunks ->
  Forall trimmed_from pieces ->
  whole_lines cur ->
  exists pieces',
    map Piece.chunk pieces' = fst (fold_left (chunkText_step B) lines (chunks, cur))
    /\ Forall trimmed_from pieces'
    /\ whole_lines (snd (fold_left (chunkText_step B) lines (chunks, cur)))
    /\ flat_map spread pieces' ++ snd (fold_left (chunkText_step B) lines (chunks, cur))
       = flat_map spread pieces ++ cur ++ flat_map (fun l => l ++ [LF]) lines.
Proof.
  induction lines as [|l lines IH]; intros chunks cur pieces Hc Hp Hw.
  - exists pieces. cbn. now rewrite app_nil_r.
  - cbn [fold_left flat_map]. unfold chunkText_step at 2 4 6.
    destruct ((_ >? B)%Z && truthy cur) eqn:E.
    + apply andb_prop in E as [_ E].
      destruct Hw as [->|[x ->]]; [discriminate|].
      destruct (flush_piece x) as (p & Hpc & Hpp & Hps).
      destruct (IH (chunks ++ [trim (x ++ [LF])]) ([] ++ l ++ [LF]) (pieces ++ [p]))
        as (pieces' & H1 & H2 & H3 & H4).
      * now rewrite map_app, Hc; cbn [map]; rewrite Hpc.
      * apply Forall_app. split; [exact Hp|now constructor].
      * right. now exists l.
      * exists pieces'. split; [exact H1|]. split; [exact H2|]. split; [exact H3|].
        etransitivity; [exact H4|]. rewrite flat_map_app. cbn [flat_map app].
        rewrite Hps. now rewrite app_nil_r, <- !app_assoc.
    + destruct (IH chunks (cur ++ l ++ [LF]) pieces Hc Hp)
        as (pieces' & H1 & H2 & H3 & H4).
      * right. exists (cur ++ l). now rewrite <- app_assoc.
      * exists pieces'. split; [exact H1|]. split; [exact H2|]. split; [exact H3|].
        etransitivity; [exact H4|]. now rewrite <- !app_assoc.
Qed.

Lemma join_snoc_separator parts :
  parts <> [] -> join parts ++ [LF] = flat_map (fun l => l ++ [LF]) parts.
Proof.
  destruct parts as [|p ps]; [congruence|]. intros _.
  rewrite join_cons. cbn [flat_map].
  revert p. induction ps as [|q ps IH]; intros p.
  - cbn [flat_map]. now rewrite !app_nil_r.
  - cbn [flat_map]. rewrite <- (IH q), <- !app_assoc. reflexivity.
Qed.

(** The chunks where they lie in the text. *)
Lemma chunkText_pieces T B :
  exists pieces rest,
    map Piece.chunk pieces = chunkText T B
    /\ Forall trimmed_from pieces
    /\ blank rest = true
    /\ flat_map spread pieces ++ rest = T ++ [LF].
Proof.
  destruct (chunkText_loop_pieces B (split T) [] [] []) as (pieces & H1 & H2 & H3 & H4);
    [reflexivity|constructor|now left|].
  cbn [flat_map app] in H4.
  rewrite <- join_snoc_separator, join_split in H4 by apply split_not_nil.
  unfold chunkText. destruct (fold_left _ (split T) _) as [chunks cur].
  cbn [fst snd] in *. destruct (truthy (trim cur)) eqn:E.
  - destruct H3 as [->|[x ->]]; [discriminate|].
    destruct (flush_piece x) as (p & Hpc & Hpp & Hps).
    exists (pieces ++ [p]), []. rewrite map_app, flat_map_app, H1.
    cbn [map flat_map]. rewrite Hpc, Hps, !app_nil_r.
    split; [reflexivity|]. split; [|now split].
    apply Forall_app. split; [exact H2|now constructor].
  - exists pieces, cur. split; [exact H1|]. split; [exact H2|].
    split; [now apply trim_blank|exact H4].
Qed.

End Pieces.

Section Exactness.
Import JsString JsStringFacts.

Lemma spread_length pieces :
  length (flat_map spread pieces)
  = length (flat_map (fun c => c ++ [LF]) (map Piece.chunk pieces))
    + list_sum (map (fun p => length (Piece.lead p) + length (Piece.trail p)) pieces).
Proof.
  induction pieces as [|p pieces IH]; [reflexivity|].
  cbn [flat_map map].
  match goal with |- context [list_sum (?x :: ?l)] =>
    change (list_sum (x :: l)) with (x + list_sum l) end.
  rewrite !length_app, IH. unfold spread. rewrite !length_app. cbn [length]. lia.
Qed.

Lemma spread_unpadded pieces :
  Forall nothing_trimmed pieces ->
  flat_map spread pieces = flat_map (fun c => c ++ [LF]) (map Piece.chunk pieces).
Proof.
  induction 1 as [|p pieces [Hl Ht] _ IH]; [reflexivity|].
  cbn [flat_map map]. unfold spread at 1. now rewrite Hl, Ht, IH.
Qed.

Lemma list_sum_zero (A : Type) (f : A -> nat) l :
  list_sum (map f l) = 0 -> Forall (fun x => f x = 0) l.
Proof.
  induction l as [|x l IH]; [constructor|].
  cbn [map]. change (list_sum (f x :: map f l)) with (f x + list_sum (map f l)).
  intros H. constructor; [lia|apply IH; lia].
Qed.

Lemma chunkText_empty B : chunkText [] B = [].
Proof. unfold chunkText. cbn. now rewrite andb_false_r. Qed.

(** The join is the text exactly when nothing was trimmed and nothing
    dropped. *)
Lemma pieces_exact T chunks pieces rest :
  map Piece.chunk pieces = chunks ->
  flat_map spread pieces ++ rest = T ++ [LF] ->
  T <> [] ->
  (join chunks = T <->
   pieces <> [] /\ rest = []
   /\ Forall nothing_trimmed pieces).
Proof.
  intros Hc Hs HT. split.
  - intros Hj.
    assert (Hne : chunks <> []) by (intros ->; apply HT; now rewrite <- Hj).
    pose proof (join_snoc_separator chunks Hne) as Hl.
    rewrite Hj, <- Hs, <- Hc in Hl. apply (f_equal (@length _)) in Hl.
    rewrite length_app, spread_length in Hl.
    split; [intros ->; now apply Hne|].
    split; [destruct rest; [reflexivity|cbn [length] in Hl; lia]|].
    assert (H0 : list_sum (map (fun p => length (Piece.lead p) + length (Piece.trail p))
                               pieces) = 0) by lia.
    apply list_sum_zero in H0. revert H0. apply Forall_impl. intros p Hp.
    unfold nothing_trimmed.
    destruct (Piece.lead p), (Piece.trail p); try (cbn [length] in Hp; lia).
    now split.
  - intros (Hne & -> & Hp).
    assert (Hcne : chunks <> []) by (rewrite <- Hc; now destruct pieces).
    rewrite app_nil_r, (spread_unpadded pieces Hp), Hc,
      <- (join_snoc_separator chunks Hcne) in Hs.
    now apply app_inv_tail in Hs.
Qed.

End Exactness.

(** C2, as stated, fails: [trim] drops the leading space of [" a"], so the
    chunks joined by the separator give ["a"]. *)
Lemma chunkText_roundtrip_counterexample :
  let T := JsString.lit " a" in
  T <> [] /\ JsString.join (chunkText T 500) <> T.
Proof. split; vm_compute; discriminate. Qed.

(** C2 (amended): for every text and every bound, the chunks are
    consecutive parts of the text, each trimmed as a whole and nothing
    else: the text followed by the separator is a sequence of pieces, each
    a chunk with white space before it and white space and a separator
    after it, followed by white space only; every chunk is what [trim]
    leaves of its piece, so inside a chunk the text stands unchanged,
    indentation and blank lines included. The chunks joined by the
    separator are the text exactly when the text is empty, or [trim] took
    nothing from any piece and nothing follows the last piece. Hence they
    reproduce the text up to white space (their non-white-space
    characters, in order, are those of the text), and exactly, whatever the
    bound, when every line of the text is non-empty and neither begins nor
    ends with white space. *)
Theorem chunkText_roundtrip_up_to_space (T : jsstring) (B : Z) :
  (exists pieces rest,
      map Piece.chunk pieces = chunkText T B
      /\ Forall trimmed_from pieces
      /\ blank rest = true
      /\ flat_map spread pieces ++ rest = T ++ [LF]
      /\ (JsString.join (chunkText T B) = T <->
          T = [] \/ (pieces <> [] /\ rest = [] /\ Forall nothing_trimmed pieces)))
  /\ non_space (JsString.join (chunkText T B)) = non_space T
  /\ (forallb no_edge_space (JsString.split T) = true ->
      JsString.join (chunkText T B) = T).
Proof.
  split.
  { destruct (chunkText_pieces T B) as (pieces & rest & H1 & H2 & H3 & H4).
    exists pieces, rest. repeat (split; [assumption|]).
    destruct T as [|c T]; [rewrite chunkText_empty; split; [now left|reflexivity]|].
    rewrite (pieces_exact (c :: T) _ pieces rest H1 H4) by discriminate.
    split; [now right|now intros [?|?]]. }
  split; [apply chunkText_non_space|].
  intros H. rewrite <- (JsStringFacts.join_split T) at 2.
  unfold chunkText.
  destruct (JsString.split T) as [|l ls] eqn:E;
    [now destruct (JsStringFacts.split_not_nil T)|].
  simpl in H. apply andb_prop in H as [Hl Hls].
  cbn [fold_left]. unfold chunkText_step at 2. cbn [JsString.truthy andb].
  rewrite andb_false_r. cbn [app].
  destruct (chunkText_loop_clean B ls [] l Hl Hls) as (chunks' & g' & Hf & Hg' & Hj).
  cbn [app] in Hf. rewrite Hf, (trim_no_edge_space _ Hg').
  rewrite (truthy_no_edge_space _ Hg').
  assert (Hne : chunks' ++ [g'] <> []) by (now destruct chunks').
  assert (Hcons : LF :: JsString.join (chunks' ++ [g']) = LF :: JsString.join (l :: ls)).
  { rewrite !JsStringFacts.cons_join by (assumption || discriminate).
    rewrite Hj. simpl. now rewrite app_nil_r. }
  now injection Hcons.
Qed.

Lemma chunkText_roundtrip_up_to_space_witness :
  let T := JsString.lit "ab" ++ LF :: JsString.lit "c d" in
  forallb no_edge_space (JsString.split T) = true
  /\ JsString.join (chunkText T 2) = T.
Proof.
  intros T. split; [reflexivity|].
  apply (chunkText_roundtrip_up_to_space T 2). reflexivity.
Defined.

(** *** Lines longer than the bound *)

Section LongLines.
Import JsString.

Lemma chunkText_is_chunkLines text B : chunkText text B = chunkLines (split text) B.
Proof. reflexivity. Qed.

(** A line longer than the bound flushes the buffer and starts a new one. *)
Lemma chunkText_step_long_line B (chunks : list jsstring) (cur l : jsstring) :
  (Z.of_nat (length l) > B)%Z ->
  chunkText_step B (chunks, cur) l = (chunks ++ flushed cur, l ++ [LF]).
Proof.
  intros H. unfold chunkText_step, flushed. destruct cur as [|c cur].
  - rewrite andb_false_r. now rewrite app_nil_r.
  - cbn [truthy]. rewrite andb_true_r.
    replace (_ >? B)%Z with true; [reflexivity|].
    symmetry. apply Z.gtb_gt. lia.
Qed.

(** The buffer that holds a long line is flushed by the next line. *)
Lemma chunkText_step_after_long_line B (chunks : list jsstring) (l next : jsstring) :
  (Z.of_nat (length l) > B)%Z ->
  chunkText_step B (chunks, l ++ [LF]) next
  = (chunks ++ [trim (l ++ [LF])], next ++ [LF]).
Proof.
  intros H. unfold chunkText_step.
  replace (truthy (l ++ [LF])) with true by (now destruct l).
  replace (_ >? B)%Z with true; [reflexivity|].
  symmetry. apply Z.gtb_gt. rewrite length_app. lia.
Qed.

(** The chunks already emitted are not looked at again. *)
Lemma chunkText_loop_frame B (lines : list jsstring) :
  forall (done chunks : list jsstring) (cur : jsstring),
  fold_left (chunkText_step B) lines (done ++ chunks, cur)
  = (done ++ fst (fold_left (chunkText_step B) lines (chunks, cur)),
     snd (fold_left (chunkText_step B) lines (chunks, cur))).
Proof.
  induction lines as [|l lines IH]; intros done chunks cur; [reflexivity|].
  cbn [fold_left]. unfold chunkText_step at 2 4 6.
  destruct ((_ >? B)%Z && truthy cur).
  - rewrite <- app_assoc. apply IH.
  - apply IH.
Qed.

Lemma chunkText_loop_frame_nil B (lines : list jsstring) (done : list jsstring)
    (cur : jsstring) :
  fold_left (chunkText_step B) lines (done, cur)
  = (done ++ fst (fold_left (chunkText_step B) lines ([], cur)),
     snd (fold_left (chunkText_step B) lines ([], cur))).
Proof. rewrite <- (app_nil_r done) at 1. apply chunkText_loop_frame. Qed.

(** A line longer than the bound is never split and shares its chunk with
    no other line: the chunks are those flushed from the lines before it,
    then the line by itself (trimmed), then the chunks of the lines after
    it. *)
Lemma chunkLines_long_line B (pre : list jsstring) (l : jsstring) (post : list jsstring) :
  (Z.of_nat (length l) > B)%Z ->
  chunkLines (pre ++ l :: post) B
  = (let '(chunks, cur) := fold_left (chunkText_step B) pre ([], []) in
     chunks ++ flushed cur)
    ++ (match post with
        | [] => if truthy (trim (l ++ [LF])) then [trim (l ++ [LF])] else []
        | _ :: _ => [trim (l ++ [LF])]
        end)
    ++ chunkLines post B.
Proof.
  intros H. unfold chunkLines. rewrite fold_left_app. cbn [fold_left].
  destruct (fold_left (chunkText_step B) pre ([], [])) as [chunks cur].
  rewrite chunkText_step_long_line by assumption.
  destruct post as [|next post].
  - cbn [fold_left]. cbn [truthy trim trimEnd rev trimStart app].
    destruct (truthy (trim (l ++ [LF]))); now rewrite ?app_nil_r.
  - cbn [fold_left]. rewrite chunkText_step_after_long_line by assumption.
    replace (chunkText_step B ([], []) next) with (@nil jsstring, next ++ [LF])
      by (unfold chunkText_step; now rewrite andb_false_r).
    rewrite (chunkText_loop_frame_nil B post ((chunks ++ flushed cur) ++ [trim (l ++ [LF])])).
    unfold JsString.t, JsString.char in *.
    destruct (fold_left _ post _) as [cs c].
    cbn [fst snd]. destruct (truthy (trim c)); now list_norm.
Qed.

Lemma chunkText_long_line text B (pre : list jsstring) (l : jsstring)
    (post : list jsstring) :
  split text = pre ++ l :: post ->
  (Z.of_nat (length l) > B)%Z ->
  chunkText text B
  = (let '(chunks, cur) := fold_left (chunkText_step B) pre ([], []) in
     chunks ++ flushed cur)
    ++ (match post with
        | [] => if truthy (trim (l ++ [LF])) then [trim (l ++ [LF])] else []
        | _ :: _ => [trim (l ++ [LF])]
        end)
    ++ chunkLines post B.
Proof.
  intros Hs Hl. rewrite chunkText_is_chunkLines, Hs. now apply chunkLines_long_line.
Qed.

End LongLines.

(** C6: the chunker does emit an empty chunk. With the bound 500 that
    [indexFiles] passes, an empty first line followed by a line of 500
    characters flushes the buffer ["\n"], whose trimmed text is empty; the
    guard on the last flush ([if (currentChunk.trim())]) is missing on the
    flush inside the loop. *)
Theorem chunkText_emits_empty_chunk :
  chunkText (LF :: repeat 120%N 500) 500 = [[]; repeat 120%N 500].
Proof. vm_compute. reflexivity. Qed.

(* ================================================================= *)
(** ** The stable sort *)

Section StableSortFacts.
Context {A : Type}.
Variable after : A -> A -> bool.

Lemma insert_sorted_perm x l : Permutation (insert_sorted after x l) (x :: l).
Proof.
  induction l as [|y l IH]; simpl; [apply Permutation_refl|].
  destruct (after x y); [|apply Permutation_refl].
  eapply Permutation_trans; [apply perm_skip, IH|apply perm_swap].
Qed.

Lemma stable_sort_perm l : Permutation (stable_sort after l) l.
Proof.
  induction l as [|x l IH]; simpl; [constructor|].
  eapply Permutation_trans; [apply insert_sorted_perm|now apply perm_skip].
Qed.

Lemma stable_sort_in x l : In x (stable_sort after l) <-> In x l.
Proof.
  split; apply Permutation_in;
    [apply stable_sort_perm|apply Permutation_sym, stable_sort_perm].
Qed.

Lemma stable_sort_length l : length (stable_sort after l) = length l.
Proof. apply Permutation_length, stable_sort_perm. Qed.

Hypothesis after_asym : forall x y, after x y = true -> after y x = false.

Lemma insert_sorted_sorted x l :
  Sorted (in_order after) l -> Sorted (in_order after) (insert_sorted after x l).
Proof.
  induction l as [|y l IH]; intros Hs; simpl.
  - repeat constructor.
  - destruct (after x y) eqn:Exy.
    + inversion_clear Hs as [|? ? Hl Hy]. constructor; [now apply IH|].
      destruct l as [|z l]; simpl.
      * constructor. now apply after_asym.
      * destruct (after x z); constructor.
        -- now inversion_clear Hy.
        -- now apply after_asym.
    + constructor; [assumption|]. now constructor.
Qed.

Lemma stable_sort_sorted l : Sorted (in_order after) (stable_sort after l).
Proof.
  induction l as [|x l IH]; simpl; [constructor|]. now apply insert_sorted_sorted.
Qed.

(** Stability: elements of one class [p] of ties keep their order. *)
Lemma insert_sorted_filter (p : A -> bool) x l :
  (forall y, In y l -> p x = true -> p y = true -> after x y = false) ->
  filter p (insert_sorted after x l) = filter p (x :: l).
Proof.
  induction l as [|y l IH]; intros H; [reflexivity|].
  simpl insert_sorted. destruct (after x y) eqn:Exy; [|reflexivity].
  cbn [filter]. rewrite IH by (intros z Hz; apply H; now right).
  cbn [filter]. destruct (p x) eqn:Ex; [|reflexivity].
  destruct (p y) eqn:Ey; [|reflexivity].
  rewrite (H y (or_introl eq_refl) eq_refl Ey) in Exy. discriminate.
Qed.

Lemma stable_sort_filter (p : A -> bool) l :
  (forall x y, In x l -> In y l -> p x = true -> p y = true -> after x y = false) ->
  filter p (stable_sort after l) = filter p l.
Proof.
  induction l as [|x l IH]; intros H; [reflexivity|].
  simpl stable_sort. rewrite insert_sorted_filter.
  - cbn [filter]. rewrite IH; [reflexivity|].
    intros a b Ha Hb. apply H; now right.
  - intros y Hy Hx Hpy. apply (proj1 (stable_sort_in y l)) in Hy.
    apply H; [now left|now right|assumption|assumption].
Qed.

End StableSortFacts.

(** Two orders that agree on the elements of a list sort it alike. *)
Lemma insert_sorted_ext {A} (f g : A -> A -> bool) x l :
  (forall y, In y l -> f x y = g x y) ->
  insert_sorted f x l = insert_sorted g x l.
Proof.
  induction l as [|y l IH]; intros H; [reflexivity|].
  simpl. rewrite H by now left. rewrite IH by (intros z Hz; apply H; now right).
  reflexivity.
Qed.

Lemma stable_sort_ext {A} (f g : A -> A -> bool) l :
  (forall x y, In x l -> In y l -> f x y = g x y) ->
  stable_sort f l = stable_sort g l.
Proof.
  induction l as [|x l IH]; intros H; [reflexivity|].
  simpl. rewrite IH by (intros a b Ha Hb; apply H; now right).
  apply insert_sorted_ext. intros y Hy. apply H; [now left|right].
  now apply (proj1 (stable_sort_in g y l)) in Hy.
Qed.

Lemma Array_slice_prefix {A} (arr : list A) (limit : Z) :
  (0 <= limit)%Z ->
  Array_slice arr 0 limit = firstn (Z.to_nat limit) arr.
Proof.
  intros H. unfold Array_slice.
  replace (0 <? 0)%Z with false by reflexivity.
  replace (limit <? 0)%Z with false by (symmetry; apply Z.ltb_ge; lia).
  rewrite (Z.min_l 0) by lia. simpl skipn. rewrite Z.sub_0_r.
  destruct (Z.le_ge_cases limit (Z.of_nat (length arr))) as [Hl|Hl].
  - now rewrite Z.min_l.
  - rewrite Z.min_r by assumption. rewrite Nat2Z.id.
    rewrite !firstn_all2; (reflexivity || lia).
Qed.

(* ================================================================= *)
(** ** The recency query *)

Lemma mtime_desc_true x y :
  mtime_desc x y = true <->
  (Files.mtime x < Files.mtime y
   \/ Files.mtime x = Files.mtime y /\ Files.id x < Files.id y)%Z.
Proof.
  unfold mtime_desc.
  rewrite orb_true_iff, andb_true_iff, !Z.ltb_lt, Z.eqb_eq. reflexivity.
Qed.

Lemma mtime_desc_false x y :
  mtime_desc x y = false <->
  (Files.mtime y < Files.mtime x
   \/ Files.mtime x = Files.mtime y /\ Files.id y <= Files.id x)%Z.
Proof.
  unfold mtime_desc.
  rewrite orb_false_iff, andb_false_iff, !Z.ltb_ge, Z.eqb_neq. lia.
Qed.

Lemma mtime_desc_asym x y : mtime_desc x y = true -> mtime_desc y x = false.
Proof. rewrite mtime_desc_true, mtime_desc_false. lia. Qed.

Lemma mtime_desc_trans x y z :
  mtime_desc x y = false -> mtime_desc y z = false -> mtime_desc x z = false.
Proof. rewrite !mtime_desc_false. lia. Qed.

Lemma getRecentFiles_perm (now days : Z) (d : Database) :
  Permutation (getRecentFiles now days d)
    (map recent_of
         (filter (fun row => (now - days * 86400 * 1000 <? Files.mtime row)%Z)
                 (files d))).
Proof.
  unfold getRecentFiles, select_files_modified_after.
  replace (now - days * 24 * 60 * 60 * 1000)%Z with (now - days * 86400 * 1000)%Z by lia.
  apply (Permutation_map recent_of), stable_sort_perm.
Qed.

(** The files listed are the stored files modified after the cutoff. *)
Lemma getRecentFiles_in (now days : Z) (d : Database) (f : RecentFile.t) :
  In f (getRecentFiles now days d) <->
  exists row, In row (files d)
              /\ (Files.mtime row > now - days * 86400 * 1000)%Z
              /\ f = recent_of row.
Proof.
  split.
  - intros H. apply (Permutation_in _ (getRecentFiles_perm now days d)) in H.
    apply in_map_iff in H as (row & <- & H). apply filter_In in H as [H1 H2].
    exists row. apply Z.ltb_lt in H2. repeat split; [assumption|lia].
  - intros (row & H1 & H2 & ->).
    apply (Permutation_in _ (Permutation_sym (getRecentFiles_perm now days d))).
    apply in_map_iff. exists row. split; [reflexivity|].
    apply filter_In. split; [assumption|]. apply Z.ltb_lt. lia.
Qed.

Lemma getRecentFiles_sorted (now days : Z) (d : Database) :
  StronglySorted (fun a b => (RecentFile.mtime a >= RecentFile.mtime b)%Z)
                 (getRecentFiles now days d).
Proof.
  unfold getRecentFiles, select_files_modified_after.
  set (rows := stable_sort _ _).
  assert (Hs : StronglySorted (fun a b => (Files.mtime a >= Files.mtime b)%Z) rows).
  { apply Sorted_StronglySorted; [intros a b c; lia|].
    assert (Hin : Sorted (in_order mtime_desc) rows)
      by (apply stable_sort_sorted, mtime_desc_asym).
    induction Hin as [|a l _ IH Hd]; constructor; [assumption|].
    destruct Hd as [|b l Hab]; constructor.
    unfold in_order in Hab. apply mtime_desc_false in Hab. lia. }
  clearbody rows. induction Hs as [|a l Hs IH Ha]; simpl; constructor; [assumption|].
  apply Forall_map. revert Ha. apply Forall_impl. now simpl.
Qed.

(* ================================================================= *)
(** ** What [indexFiles] returns *)

(** C8, as stated, fails: the call succeeds on one file and hands back
    [undefined], not the number of files. *)
Lemma indexFiles_return_counterexample :
  let openai := fun (_ : nat) (input : list jsstring) =>
                  Some (map (fun _ => [1; 0]%float) input) in
  let files := [{| IndexedFile.path := JsString.lit "a.txt";
                   IndexedFile.content := JsString.lit "line1";
                   IndexedFile.mtime := 1000; IndexedFile.size := 5;
                   IndexedFile.extension := JsString.lit ".txt" |}] in
  exists v w, indexFiles openai files initial_world = (Normal v, w)
              /\ v <> JsNumber (Z.of_nat (length files)).
Proof. eexists; eexists; split; [vm_compute; reflexivity|discriminate]. Qed.

(** C8 (amended): on every list of input files on which it succeeds,
    [indexFiles] returns no value ([undefined]). *)
Theorem indexFiles_returns_undefined
    (openai : nat -> list jsstring -> option (list (list float)))
    (files : list IndexedFile.t) (w w' : World) (v : jsval) :
  indexFiles openai files w = (Normal v, w') -> v = JsUndefined.
Proof.
  unfold indexFiles, bind, ret.
  destruct (indexFiles_loop openai files w) as [[[]|e] w1]; congruence.
Qed.

Lemma indexFiles_returns_undefined_witness :
  let openai := fun (_ : nat) (input : list jsstring) =>
                  Some (map (fun _ => [1; 0]%float) input) in
  let files := [{| IndexedFile.path := JsString.lit "a.txt";
                   IndexedFile.content := JsString.lit "line1";
                   IndexedFile.mtime := 1000; IndexedFile.size := 5;
                   IndexedFile.extension := JsString.lit ".txt" |}] in
  exists w, indexFiles openai files initial_world = (Normal JsUndefined, w).
Proof.
  intros openai files.
  destruct (indexFiles openai files initial_world) as [[v|e] w] eqn:E.
  - exists w. now rewrite (indexFiles_returns_undefined openai files initial_world w v E).
  - vm_compute in E. discriminate.
Defined.

(* ================================================================= *)
(** ** Binary64 arithmetic: NaN and zero *)

Module IeeeFacts.
Import Ieee.

Lemma nan_spec : Prim2SF nan = S754_nan.
Proof. reflexivity. Qed.

Lemma eq_nan x : Prim2SF x = S754_nan -> x = nan.
Proof. intros H. apply Prim2SF_inj. now rewrite H. Qed.









Lemma mul_nan_r x : (x * nan)%float = nan.
Proof. apply eq_nan. rewrite mul_spec, nan_spec. now destruct (Prim2SF x). Qed.

Lemma add_nan_l x : (nan + x)%float = nan.
Proof. apply eq_nan. rewrite add_spec, nan_spec. now destruct (Prim2SF x). Qed.

Lemma add_nan_r x : (x + nan)%float = nan.
Proof. apply eq_nan. rewrite add_spec, nan_spec. now destruct (Prim2SF x). Qed.

Lemma div_nan_l x : (nan / x)%float = nan.
Proof. apply eq_nan. rewrite div_spec, nan_spec. now destruct (Prim2SF x). Qed.

End IeeeFacts.

(* ================================================================= *)
(** ** Cosine similarity *)

Section CosineSimilarity.
Import Ieee IeeeFacts.






(** Once the dot product is NaN it stays NaN. *)
Lemma cosine_loop_nan a b (idx : list nat) : forall na nb,
  fst (fst (fold_left (cosine_step a b) idx (nan, na, nb))) = nan.
Proof.
  induction idx as [|i idx IH]; intros na nb; [reflexivity|].
  simpl. rewrite add_nan_l. apply IH.
Qed.



End CosineSimilarity.

(* ================================================================= *)
(** ** Binary64 arithmetic: the order and the comparator's subtraction *)

Module IeeeOrder.
Import Ieee.
Local Open Scope Z_scope.

Lemma digits2_pos_bounds (m : positive) :
  2 ^ (Zpos (digits2_pos m) - 1) <= Zpos m < 2 ^ Zpos (digits2_pos m).
Proof.
  induction m as [m IH|m IH|]; cbn [digits2_pos].
  - rewrite Pos2Z.inj_succ.
    replace (Z.succ (Zpos (digits2_pos m)) - 1) with (Z.succ (Zpos (digits2_pos m) - 1)) by lia.
    rewrite !Z.pow_succ_r by lia. lia.
  - rewrite Pos2Z.inj_succ.
    replace (Z.succ (Zpos (digits2_pos m)) - 1) with (Z.succ (Zpos (digits2_pos m) - 1)) by lia.
    rewrite !Z.pow_succ_r by lia. lia.
  - simpl. lia.
Qed.

(** What [valid_binary] says of a finite binary64 number. *)
Lemma bounded_spec m e :
  bounded prec emax m e = true ->
  -1074 <= e /\ Zpos (digits2_pos m) <= 53 /\ (-1074 < e -> Zpos (digits2_pos m) = 53).
Proof.
  unfold bounded, canonical_mantissa, fexp, SpecFloat.emin, prec, emax.
  intros H. apply andb_prop in H as [H _]. apply Z.eqb_eq in H. lia.
Qed.

Lemma shl_align_spec m e ez :
  ez <= e -> Zpos (fst (shl_align m e ez)) = Zpos m * 2 ^ (e - ez).
Proof.
  intros H. unfold shl_align.
  destruct (ez - e) as [|d|d] eqn:E; try lia.
  - replace (e - ez) with 0 by lia. simpl. lia.
  - cbn [fst]. replace (e - ez) with (Zpos d) by lia.
    clear. induction d using Pos.peano_ind.
    + simpl. lia.
    + rewrite Pos.iter_succ, Pos2Z.inj_succ, Z.pow_succ_r by lia.
      change (Zpos (Pos.iter xO m d)~0) with (2 * Zpos (Pos.iter xO m d)). lia.
Qed.

(** Magnitudes of two canonical numbers, aligned to the smaller exponent,
    compare as (exponent, mantissa) pairs. *)
Lemma aligned_compare m1 e1 m2 e2 :
  bounded prec emax m1 e1 = true -> bounded prec emax m2 e2 = true ->
  let ez := Z.min e1 e2 in
  (Zpos m1 * 2 ^ (e1 - ez) ?= Zpos m2 * 2 ^ (e2 - ez)) =
  match e1 ?= e2 with
  | Lt => Lt
  | Gt => Gt
  | Eq => Pos.compare_cont Eq m1 m2
  end.
Proof.
  intros H1 H2 ez. apply bounded_spec in H1 as (L1 & D1 & N1), H2 as (L2 & D2 & N2).
  pose proof (digits2_pos_bounds m1) as B1. pose proof (digits2_pos_bounds m2) as B2.
  destruct (Z.compare_spec e1 e2) as [E|E|E].
  - subst e2. unfold ez. rewrite Z.min_id, Z.sub_diag. simpl Z.pow.
    rewrite !Z.mul_1_r. reflexivity.
  - apply Z.compare_lt_iff. unfold ez. rewrite Z.min_l, Z.sub_diag by lia.
    rewrite N2 in B2 by lia.
    assert (2 ^ 1 <= 2 ^ (e2 - e1)) by (apply Z.pow_le_mono_r; lia).
    assert (Zpos m1 < 2 ^ 53) by (eapply Z.lt_le_trans; [apply B1|apply Z.pow_le_mono_r; lia]).
    change (2 ^ (53 - 1)) with 4503599627370496 in B2.
    change (2 ^ 53) with 9007199254740992 in *. change (2 ^ 1) with 2 in *. nia.
  - apply Z.compare_gt_iff. unfold ez. rewrite Z.min_r, Z.sub_diag by lia.
    rewrite N1 in B1 by lia.
    assert (2 ^ 1 <= 2 ^ (e1 - e2)) by (apply Z.pow_le_mono_r; lia).
    assert (Zpos m2 < 2 ^ 53) by (eapply Z.lt_le_trans; [apply B2|apply Z.pow_le_mono_r; lia]).
    change (2 ^ (53 - 1)) with 4503599627370496 in B1.
    change (2 ^ 53) with 9007199254740992 in *. change (2 ^ 1) with 2 in *. nia.
Qed.

Lemma shr_1_m mrs : 0 <= shr_m mrs -> shr_m (shr_1 mrs) = shr_m mrs / 2.
Proof.
  intros H. rewrite <- Z.div2_div. destruct mrs as [m r s]. simpl in H.
  destruct m as [|[p|p|]|p]; try reflexivity; lia.
Qed.

Lemma shr_iter_m p : forall mrs,
  0 <= shr_m mrs -> shr_m (iter_pos shr_1 p mrs) = shr_m mrs / 2 ^ Zpos p.
Proof.
  induction p as [p IH|p IH|]; intros mrs H; cbn [iter_pos].
  - assert (H1 : 0 <= shr_m (shr_1 mrs)) by (rewrite shr_1_m by assumption; apply Z.div_pos; lia).
    assert (H2 : 0 <= shr_m (iter_pos shr_1 p (shr_1 mrs)))
      by (rewrite IH by assumption; apply Z.div_pos; [assumption|apply Z.pow_pos_nonneg; lia]).
    rewrite IH, IH, shr_1_m by assumption.
    rewrite !Z.div_div by (try apply Z.pow_pos_nonneg; lia).
    f_equal. replace (Zpos p~1) with (1 + Zpos p + Zpos p) by lia.
    rewrite !Z.pow_add_r by lia. change (2 ^ 1) with 2. lia.
  - assert (H2 : 0 <= shr_m (iter_pos shr_1 p mrs))
      by (rewrite IH by assumption; apply Z.div_pos; [assumption|apply Z.pow_pos_nonneg; lia]).
    rewrite IH, IH by assumption.
    rewrite !Z.div_div by (try apply Z.pow_pos_nonneg; lia).
    f_equal. replace (Zpos p~0) with (Zpos p + Zpos p) by lia.
    rewrite !Z.pow_add_r by lia. lia.
  - rewrite shr_1_m by assumption. reflexivity.
Qed.

Lemma shr_fexp_pos m e l :
  0 < m -> -1074 <= e ->
  0 < shr_m (fst (shr_fexp prec emax m e l)) /\ -1074 <= snd (shr_fexp prec emax m e l).
Proof.
  intros Hm He. unfold shr_fexp, shr.
  assert (Hr : shr_m (shr_record_of_loc m l) = m) by (now destruct l as [|[]]).
  destruct m as [|p|p]; try lia. cbn [Zdigits2] in *.
  pose proof (digits2_pos_bounds p) as B.
  destruct (fexp prec emax (Zpos (digits2_pos p) + e) - e) as [|n|n] eqn:E;
    cbn [fst snd]; rewrite ?Hr; try (split; lia).
  unfold fexp, SpecFloat.emin, prec, emax in E.
  rewrite shr_iter_m, Hr by (rewrite Hr; lia). split; [|lia].
  apply Z.div_str_pos. split; [apply Z.pow_pos_nonneg; lia|].
  eapply Z.le_trans; [|apply B]. apply Z.pow_le_mono_r; lia.
Qed.

Lemma round_nearest_even_ge m l : m <= round_nearest_even m l.
Proof. destruct l as [|[]]; simpl; try destruct (Z.even m); lia. Qed.

(** Rounding a non-zero magnitude at an exponent the format has keeps the
    sign: no underflow to zero, no NaN. *)
Lemma binary_round_aux_sign s m e l :
  0 < m -> -1074 <= e ->
  (exists m' e', binary_round_aux prec emax s m e l = S754_finite s m' e')
  \/ binary_round_aux prec emax s m e l = S754_infinity s.
Proof.
  intros Hm He. unfold binary_round_aux.
  pose proof (shr_fexp_pos m e l Hm He) as [H1 H1e].
  destruct (shr_fexp prec emax m e l) as [mrs' e']. cbn [fst snd] in *.
  pose proof (round_nearest_even_ge (shr_m mrs') (loc_of_shr_record mrs')) as Hr.
  pose proof (shr_fexp_pos (round_nearest_even (shr_m mrs') (loc_of_shr_record mrs'))
                e' loc_Exact ltac:(lia) H1e) as [H2 _].
  destruct (shr_fexp prec emax _ e' loc_Exact) as [mrs'' e'']. cbn [fst] in H2.
  destruct (shr_m mrs'') as [|m'|m']; try lia.
  destruct (e'' <=? emax - prec); [left; now exists m', e''|now right].
Qed.

Lemma binary_round_sign s m e :
  -1074 <= e ->
  (exists m' e', binary_round prec emax s m e = S754_finite s m' e')
  \/ binary_round prec emax s m e = S754_infinity s.
Proof.
  intros He. unfold binary_round.
  destruct (shl_align m e _) as [mz ez] eqn:E.
  apply binary_round_aux_sign; [lia|].
  unfold shl_align in E.
  destruct (fexp prec emax (Zpos (digits2_pos m) + e) - e) eqn:E';
    injection E as _ <-; try assumption.
  unfold fexp, SpecFloat.emin, prec, emax. lia.
Qed.

Lemma binary_normalize_positive D e :
  -1074 <= e ->
  SFltb (S754_zero false) (binary_normalize prec emax D e false) = (0 <? D).
Proof.
  intros He. destruct D as [|p|p]; cbn [binary_normalize]; [reflexivity| |].
  - destruct (binary_round_sign false p e He) as [(m' & e' & ->)| ->]; reflexivity.
  - destruct (binary_round_sign true p e He) as [(m' & e' & ->)| ->]; reflexivity.
Qed.

(** The comparator's subtraction: on numbers, [y - x] is positive exactly
    when [x < y]. *)
Lemma SFsub_positive fx fy :
  valid_binary fx = true -> valid_binary fy = true ->
  fx <> S754_nan -> fy <> S754_nan ->
  SFltb (S754_zero false) (SF64sub fy fx) = SFltb fx fy.
Proof.
  intros Vx Vy Nx Ny.
  destruct fy as [sy|sy| |sy my ey]; try congruence;
    destruct fx as [sx|sx| |sx mx ex]; try congruence;
    try (now destruct sx, sy); try (now destruct sy); try (now destruct sx).
  cbn [valid_binary] in Vx, Vy.
  unfold SF64sub, SFsub.
  pose proof (bounded_spec _ _ Vx) as (Lx & _). pose proof (bounded_spec _ _ Vy) as (Ly & _).
  rewrite binary_normalize_positive by lia.
  rewrite !shl_align_spec by lia.
  pose proof (aligned_compare mx ex my ey Vx Vy) as C. cbv zeta in C.
  rewrite (Z.min_comm ex ey) in C.
  set (a := Zpos my * 2 ^ (ey - Z.min ey ex)) in *.
  set (b := Zpos mx * 2 ^ (ex - Z.min ey ex)) in *.
  assert (0 < a) by (apply Z.mul_pos_pos; [lia|apply Z.pow_pos_nonneg; lia]).
  assert (0 < b) by (apply Z.mul_pos_pos; [lia|apply Z.pow_pos_nonneg; lia]).
  unfold SFltb, SFcompare.
  destruct (Z.compare_spec b a) as [Hab|Hab|Hab];
    destruct sx, sy; cbn [cond_Zopp];
      destruct (ex ?= ey); try destruct (Pos.compare_cont Eq mx my);
        try discriminate C; cbn [CompOpp];
          first [apply Z.ltb_lt; lia | apply Z.ltb_ge; lia].
Qed.

Lemma SFcompare_antisym x y : SFcompare y x = option_map CompOpp (SFcompare x y).
Proof.
  destruct x as [[]|[]| |[] mx ex], y as [[]|[]| |[] my ey]; try reflexivity;
    cbn [SFcompare option_map]; rewrite (Z.compare_antisym ex ey);
      destruct (ex ?= ey); cbn [CompOpp]; try reflexivity;
        now rewrite (Pos.compare_cont_antisym mx my Eq).
Qed.

(** Numbers that compare equal (the same number, or two zeros) compare
    alike with every other number. *)
Lemma SFcompare_Eq x v :
  SFcompare x v = Some Eq -> forall y, SFcompare x y = SFcompare v y.
Proof.
  destruct x as [[]|[]| |[] mx ex], v as [[]|[]| |[] mv ev]; try discriminate;
    intros H y; try reflexivity; try (now destruct y);
      cbn [SFcompare] in H; destruct (Z.compare_spec ex ev) as [->| |];
        try discriminate;
          destruct (Pos.compare_cont Eq mx mv) eqn:Em; try discriminate;
            apply (Pos.compare_eq mx mv) in Em; now subst.
Qed.

Lemma is_nan_false x : is_nan x = false -> number x.
Proof.
  unfold is_nan, number. rewrite eqb_spec. intros H E. rewrite E in H. discriminate.
Qed.

Lemma ltb_asym x y : (x <? y)%float = true -> (y <? x)%float = false.
Proof.
  rewrite !ltb_spec. unfold SFltb. rewrite (SFcompare_antisym (Prim2SF x) (Prim2SF y)).
  now destruct (SFcompare (Prim2SF x) (Prim2SF y)) as [[]|].
Qed.

Lemma not_ltb_leb x y :
  number x -> number y -> (x <? y)%float = false -> (y <=? x)%float = true.
Proof.
  unfold number. rewrite ltb_spec, leb_spec. unfold SFltb, SFleb.
  rewrite (SFcompare_antisym (Prim2SF x) (Prim2SF y)).
  destruct (Prim2SF x) as [[]|[]| |[] mx ex], (Prim2SF y) as [[]|[]| |[] my ey];
    try congruence; intros _ _; cbn [SFcompare option_map CompOpp]; try congruence;
      destruct (ex ?= ey); try destruct (Pos.compare_cont Eq mx my);
        cbn [CompOpp]; congruence.
Qed.

Lemma eqb_not_ltb x y v :
  (x =? v)%float = true -> (y =? v)%float = true -> (x <? y)%float = false.
Proof.
  rewrite !eqb_spec, ltb_spec. unfold SFeqb, SFltb. intros Hx Hy.
  destruct (SFcompare (Prim2SF x) (Prim2SF v)) as [[]|] eqn:Ex; try discriminate.
  destruct (SFcompare (Prim2SF y) (Prim2SF v)) as [[]|] eqn:Ey; try discriminate.
  rewrite (SFcompare_Eq _ _ Ex), (SFcompare_antisym (Prim2SF y) (Prim2SF v)), Ey.
  reflexivity.
Qed.

(** [b - a > 0] holds exactly when [a < b], for numbers [a] and [b]. *)
Lemma sub_positive x y :
  number x -> number y -> (0 <? y - x)%float = (x <? y)%float.
Proof.
  intros Nx Ny. rewrite !ltb_spec, sub_spec.
  change (Prim2SF 0) with (S754_zero false).
  apply SFsub_positive; auto using Prim2SF_valid.
Qed.

End IeeeOrder.

(* ================================================================= *)
(** ** Binary64 arithmetic: integers below [2^53] *)

Module IeeeExact.
Import Ieee IeeeOrder IeeeInt.
Local Open Scope Z_scope.

Lemma digits2_pos_unique (m : positive) (n : Z) :
  2 ^ (n - 1) <= Zpos m < 2 ^ n -> Zpos (digits2_pos m) = n.
Proof.
  intros H. pose proof (digits2_pos_bounds m) as B.
  destruct (Z.lt_trichotomy (Zpos (digits2_pos m)) n) as [L|[E|L]]; [|exact E|].
  - assert (2 ^ Zpos (digits2_pos m) <= 2 ^ (n - 1)) by (apply Z.pow_le_mono_r; lia). lia.
  - assert (2 ^ n <= 2 ^ (Zpos (digits2_pos m) - 1)) by (apply Z.pow_le_mono_r; lia). lia.
Qed.

Lemma digits2_pos_shift (M v : positive) (k : Z) :
  0 <= k -> Zpos M = Zpos v * 2 ^ k ->
  Zpos (digits2_pos M) = Zpos (digits2_pos v) + k.
Proof.
  intros Hk HM. apply digits2_pos_unique. pose proof (digits2_pos_bounds v) as B.
  replace (Zpos (digits2_pos v) + k - 1) with ((Zpos (digits2_pos v) - 1) + k) by lia.
  rewrite !Z.pow_add_r by lia. rewrite HM.
  assert (0 < 2 ^ k) by (apply Z.pow_pos_nonneg; lia). nia.
Qed.

Lemma digits2_pos_le (v : positive) : Zpos v < 2 ^ 53 -> Zpos (digits2_pos v) <= 53.
Proof.
  intros H. pose proof (digits2_pos_bounds v) as B.
  destruct (Z.le_gt_cases (Zpos (digits2_pos v)) 53) as [L|L]; [exact L|].
  assert (2 ^ 53 <= 2 ^ (Zpos (digits2_pos v) - 1)) by (apply Z.pow_le_mono_r; lia). lia.
Qed.

Lemma mantissa_spec (v : positive) :
  Zpos (digits2_pos v) <= 53 ->
  Zpos (mantissa v) = Zpos v * 2 ^ (53 - Zpos (digits2_pos v)).
Proof.
  intros H. unfold mantissa. rewrite Z2Pos.id; [reflexivity|].
  apply Z.mul_pos_pos; [lia|apply Z.pow_pos_nonneg; lia].
Qed.

Lemma mantissa_digits (v : positive) :
  Zpos (digits2_pos v) <= 53 -> Zpos (digits2_pos (mantissa v)) = 53.
Proof.
  intros H. rewrite (digits2_pos_shift (mantissa v) v (53 - Zpos (digits2_pos v)));
    [lia|lia|now apply mantissa_spec].
Qed.

Lemma canon_valid (v : Z) : Z.abs v < 2 ^ 53 -> valid_binary (canon v) = true.
Proof.
  intros H. destruct v as [|m|m]; [reflexivity| |];
    cbn [canon valid_binary]; unfold bounded, canonical_mantissa, exponent;
      (assert (D : Zpos (digits2_pos m) <= 53) by (apply digits2_pos_le; lia));
      rewrite (mantissa_digits m D); unfold fexp, SpecFloat.emin, prec, emax;
        apply andb_true_intro; (split; [apply Z.eqb_eq|apply Z.leb_le]); lia.
Qed.

(** Shifting out zero bits loses nothing. *)
Lemma shr_1_even (m : Z) :
  0 <= m ->
  shr_1 {| shr_m := m * 2; shr_r := false; shr_s := false |}
  = {| shr_m := m; shr_r := false; shr_s := false |}.
Proof. intros H. destruct m as [|p|p]; [reflexivity| |lia]. simpl. now rewrite Pos.mul_comm. Qed.

Lemma shr_iter_exact (p : positive) : forall m,
  0 <= m ->
  iter_pos shr_1 p {| shr_m := m * 2 ^ Zpos p; shr_r := false; shr_s := false |}
  = {| shr_m := m; shr_r := false; shr_s := false |}.
Proof.
  induction p as [p IH|p IH|]; intros m H; cbn [iter_pos].
  - assert (P : 0 <= 2 ^ Zpos p) by (apply Z.pow_nonneg; lia).
    replace (m * 2 ^ Zpos p~1) with (((m * 2 ^ Zpos p) * 2 ^ Zpos p) * 2).
    + rewrite shr_1_even by nia. rewrite IH by nia. now apply IH.
    + replace (Zpos p~1) with (Zpos p + Zpos p + 1) by lia.
      rewrite !Z.pow_add_r by lia. change (2 ^ 1) with 2. lia.
  - assert (P : 0 <= 2 ^ Zpos p) by (apply Z.pow_nonneg; lia).
    replace (m * 2 ^ Zpos p~0) with ((m * 2 ^ Zpos p) * 2 ^ Zpos p).
    + rewrite IH by nia. now apply IH.
    + replace (Zpos p~0) with (Zpos p + Zpos p) by lia.
      rewrite !Z.pow_add_r by lia. lia.
  - change (2 ^ 1) with 2. now apply shr_1_even.
Qed.

(** A mantissa that holds an integer below [2^53] with zero bits behind it
    is brought to 53 bits without loss. *)
Lemma shr_fexp_exact (M v : positive) (k : Z) :
  0 <= k -> Zpos M = Zpos v * 2 ^ k ->
  Zpos (digits2_pos v) <= 53 -> 53 <= Zpos (digits2_pos v) + k ->
  shr_fexp prec emax (Zpos M) (- k) loc_Exact
  = ({| shr_m := Zpos (mantissa v); shr_r := false; shr_s := false |}, exponent v).
Proof.
  intros Hk HM Hd Hdk. unfold shr_fexp, shr_record_of_loc, shr. cbn [Zdigits2].
  rewrite (digits2_pos_shift M v k Hk HM).
  unfold fexp, SpecFloat.emin, prec, emax, exponent.
  rewrite mantissa_spec by exact Hd.
  destruct (Z.max (Zpos (digits2_pos v) + k + - k - 53) (3 - 1024 - 53) - - k)
    as [|n|n] eqn:E; try lia.
  - f_equal; [|lia]. f_equal. rewrite HM. f_equal. f_equal. lia.
  - f_equal; [|lia].
    replace (Zpos M) with ((Zpos v * 2 ^ (53 - Zpos (digits2_pos v))) * 2 ^ Zpos n).
    + apply shr_iter_exact. apply Z.mul_nonneg_nonneg; [lia|apply Z.pow_nonneg; lia].
    + rewrite HM, <- Z.mul_assoc, <- Z.pow_add_r by lia. f_equal. f_equal. lia.
Qed.

Lemma binary_round_aux_exact (s : bool) (M v : positive) (k : Z) :
  0 <= k -> Zpos M = Zpos v * 2 ^ k ->
  Zpos (digits2_pos v) <= 53 -> 53 <= Zpos (digits2_pos v) + k ->
  binary_round_aux prec emax s (Zpos M) (- k) loc_Exact
  = S754_finite s (mantissa v) (exponent v).
Proof.
  intros Hk HM Hd Hdk. unfold binary_round_aux.
  rewrite (shr_fexp_exact M v k Hk HM Hd Hdk).
  cbn [shr_m loc_of_shr_record round_nearest_even].
  assert (Hx : shr_fexp prec emax (Zpos (mantissa v)) (exponent v) loc_Exact
               = ({| shr_m := Zpos (mantissa v); shr_r := false; shr_s := false |},
                  exponent v)).
  { replace (exponent v) with (- (53 - Zpos (digits2_pos v))) at 1
      by (unfold exponent; lia).
    apply shr_fexp_exact; [lia|now apply mantissa_spec|exact Hd|lia]. }
  rewrite Hx. cbn [shr_m]. unfold exponent, prec, emax.
  replace (Zpos (digits2_pos v) - 53 <=? 1024 - 53) with true
    by (symmetry; apply Z.leb_le; lia).
  reflexivity.
Qed.

Lemma binary_round_exact (s : bool) (M v : positive) (k : Z) :
  0 <= k -> Zpos M = Zpos v * 2 ^ k -> Zpos (digits2_pos v) <= 53 ->
  binary_round prec emax s M (- k) = S754_finite s (mantissa v) (exponent v).
Proof.
  intros Hk HM Hd. unfold binary_round.
  pose proof (digits2_pos_shift M v k Hk HM) as HD.
  assert (Hf : fexp prec emax (Zpos (digits2_pos M) + - k) = Zpos (digits2_pos v) - 53)
    by (unfold fexp, SpecFloat.emin, prec, emax; lia).
  rewrite Hf.
  destruct (Z.le_gt_cases 53 (Zpos (digits2_pos v) + k)) as [L|L].
  - assert (E : shl_align M (- k) (Zpos (digits2_pos v) - 53) = (M, - k)).
    { unfold shl_align. destruct (Zpos (digits2_pos v) - 53 - - k) eqn:E; try reflexivity. lia. }
    rewrite E. now apply binary_round_aux_exact.
  - pose proof (shl_align_spec M (- k) (Zpos (digits2_pos v) - 53) ltac:(lia)) as S.
    assert (E : snd (shl_align M (- k) (Zpos (digits2_pos v) - 53)) = Zpos (digits2_pos v) - 53).
    { unfold shl_align. destruct (Zpos (digits2_pos v) - 53 - - k) eqn:E; try reflexivity; lia. }
    destruct (shl_align M (- k) (Zpos (digits2_pos v) - 53)) as [mz ez].
    cbn [fst snd] in S, E. subst ez.
    replace (Zpos (digits2_pos v) - 53) with (- (53 - Zpos (digits2_pos v))) by lia.
    apply binary_round_aux_exact; [lia| |exact Hd|lia].
    rewrite S, HM, <- Z.mul_assoc, <- Z.pow_add_r by lia. f_equal. f_equal. lia.
Qed.

(** Normalising an integer below [2^53] that is held with [k] zero bits
    behind it gives its representation: no rounding. *)
Lemma binary_normalize_exact (v k : Z) :
  0 <= k -> Z.abs v < 2 ^ 53 ->
  binary_normalize prec emax (v * 2 ^ k) (- k) false = canon v.
Proof.
  intros Hk Hv. assert (P : 0 < 2 ^ k) by (apply Z.pow_pos_nonneg; lia).
  destruct v as [|m|m]; [reflexivity| |].
  - destruct (Zpos m * 2 ^ k) as [|M|M] eqn:E; try lia.
    cbn [binary_normalize canon].
    apply binary_round_exact; [exact Hk|now rewrite <- E|apply digits2_pos_le; lia].
  - destruct (Zneg m * 2 ^ k) as [|M|M] eqn:E; try lia.
    cbn [binary_normalize canon].
    apply binary_round_exact; [exact Hk|lia|apply digits2_pos_le; lia].
Qed.

(** The Number of an integer below [2^53] is that integer. *)
Lemma Number_of_Z_exact (v : Z) :
  Z.abs v < 2 ^ 53 -> Prim2SF (Number_of_Z v) = canon v.
Proof.
  intros H. unfold Number_of_Z.
  replace (binary_normalize prec emax v 0 false) with (canon v).
  - apply Prim2SF_SF2Prim, canon_valid, H.
  - symmetry. replace v with (v * 2 ^ 0) at 1 by (simpl; lia).
    apply (binary_normalize_exact v 0); [lia|exact H].
Qed.

Lemma digits2_pos_mul (a c : positive) :
  Zpos (digits2_pos a) + Zpos (digits2_pos c) - 1 <= Zpos (digits2_pos (a * c)).
Proof.
  pose proof (digits2_pos_bounds a) as A. pose proof (digits2_pos_bounds c) as C.
  pose proof (digits2_pos_bounds (a * c)) as P.
  assert (H : 2 ^ (Zpos (digits2_pos a) - 1 + (Zpos (digits2_pos c) - 1))
              < 2 ^ Zpos (digits2_pos (a * c))).
  { rewrite Z.pow_add_r by lia. rewrite Pos2Z.inj_mul in P.
    assert (0 < 2 ^ (Zpos (digits2_pos a) - 1)) by (apply Z.pow_pos_nonneg; lia).
    assert (0 < 2 ^ (Zpos (digits2_pos c) - 1)) by (apply Z.pow_pos_nonneg; lia).
    nia. }
  apply Z.pow_lt_mono_r_iff in H; lia.
Qed.

(** The product of two integers is exact while it stays below [2^53]. *)
Lemma SFmul_exact (a c : Z) :
  0 <= a -> 0 < c -> a * c < 2 ^ 53 ->
  SF64mul (canon a) (canon c) = canon (a * c).
Proof.
  intros Ha Hc H. destruct c as [|mc|mc]; try lia.
  destruct a as [|ma|ma]; try lia; [reflexivity|].
  change (Zpos ma * Zpos mc) with (Zpos (ma * mc)) in *.
  assert (Da : Zpos (digits2_pos ma) <= 53) by (apply digits2_pos_le; nia).
  assert (Dc : Zpos (digits2_pos mc) <= 53) by (apply digits2_pos_le; nia).
  assert (Dp : Zpos (digits2_pos (ma * mc)) <= 53) by (apply digits2_pos_le; lia).
  pose proof (digits2_pos_mul ma mc) as Dm.
  cbn [canon]. unfold SF64mul, SFmul. cbn [xorb].
  replace (exponent ma + exponent mc)
    with (- (106 - Zpos (digits2_pos ma) - Zpos (digits2_pos mc)))
    by (unfold exponent; lia).
  apply binary_round_aux_exact; [lia| |exact Dp|lia].
  rewrite !Pos2Z.inj_mul, !mantissa_spec by assumption.
  replace (106 - Zpos (digits2_pos ma) - Zpos (digits2_pos mc))
    with ((53 - Zpos (digits2_pos ma)) + (53 - Zpos (digits2_pos mc))) by lia.
  rewrite Z.pow_add_r by lia. lia.
Qed.

(** The difference of two integers below [2^53] is exact. *)
Lemma SFsub_exact (a b : Z) :
  0 <= a < 2 ^ 53 -> 0 <= b < 2 ^ 53 ->
  SF64sub (canon a) (canon b) = canon (a - b).
Proof.
  intros Ha Hb. destruct a as [|ma|ma]; try lia; destruct b as [|mb|mb]; try lia;
    try reflexivity.
  assert (Da : Zpos (digits2_pos ma) <= 53) by (apply digits2_pos_le; lia).
  assert (Db : Zpos (digits2_pos mb) <= 53) by (apply digits2_pos_le; lia).
  cbn [canon]. unfold SF64sub, SFsub. cbn [cond_Zopp].
  set (ez := Z.min (exponent ma) (exponent mb)).
  assert (Hez : ez <= exponent ma /\ ez <= exponent mb /\ ez <= 0)
    by (unfold ez, exponent; lia).
  rewrite !shl_align_spec, !mantissa_spec by lia.
  replace (Zpos ma * 2 ^ (53 - Zpos (digits2_pos ma)) * 2 ^ (exponent ma - ez)
           - Zpos mb * 2 ^ (53 - Zpos (digits2_pos mb)) * 2 ^ (exponent mb - ez))
    with ((Zpos ma - Zpos mb) * 2 ^ (- ez)).
  - replace ez with (- - ez) at 2 by lia.
    apply binary_normalize_exact; lia.
  - rewrite <- !Z.mul_assoc, <- !Z.pow_add_r by (unfold exponent in *; lia).
    replace (53 - Zpos (digits2_pos ma) + (exponent ma - ez)) with (- ez)
      by (unfold exponent; lia).
    replace (53 - Zpos (digits2_pos mb) + (exponent mb - ez)) with (- ez)
      by (unfold exponent; lia).
    lia.
Qed.

(** Comparing an integer with the Number of an integer compares the
    integers. *)
Lemma gt_number_exact (x : float) (c i : Z) :
  Prim2SF x = canon c -> Z.abs c < 2 ^ 53 -> gt_number i x = (c <? i).
Proof.
  intros Hx Hc. unfold gt_number. rewrite Hx.
  destruct c as [|m|m]; [reflexivity| |];
    assert (D : Zpos (digits2_pos m) <= 53) by (apply digits2_pos_le; lia);
    assert (P : 0 < 2 ^ (53 - Zpos (digits2_pos m))) by (apply Z.pow_pos_nonneg; lia);
    pose proof (mantissa_spec m D) as M;
    cbn [canon]; unfold exponent; cbv zeta.
  - destruct (Z.leb_spec 0 (Zpos (digits2_pos m) - 53)) as [L|L].
    + replace (Zpos (digits2_pos m) - 53) with 0 by lia.
      replace (53 - Zpos (digits2_pos m)) with 0 in M by lia.
      now rewrite M, !Z.mul_1_r.
    + replace (- (Zpos (digits2_pos m) - 53)) with (53 - Zpos (digits2_pos m)) by lia.
      rewrite M. set (q := 2 ^ (53 - Zpos (digits2_pos m))) in *.
      destruct (Z.ltb_spec (Zpos m * q) (i * q)), (Z.ltb_spec (Zpos m) i);
        try reflexivity; nia.
  - assert (N : Zneg (mantissa m) = Zneg m * 2 ^ (53 - Zpos (digits2_pos m))) by lia.
    destruct (Z.leb_spec 0 (Zpos (digits2_pos m) - 53)) as [L|L].
    + replace (Zpos (digits2_pos m) - 53) with 0 by lia.
      replace (53 - Zpos (digits2_pos m)) with 0 in N by lia.
      now rewrite N, !Z.mul_1_r.
    + replace (- (Zpos (digits2_pos m) - 53)) with (53 - Zpos (digits2_pos m)) by lia.
      rewrite N. set (q := 2 ^ (53 - Zpos (digits2_pos m))) in *.
      destruct (Z.ltb_spec (Zneg m * q) (i * q)), (Z.ltb_spec (Zneg m) i);
        try reflexivity; nia.
Qed.

Lemma mul_compare_r (a b p : Z) : 0 < p -> (a * p ?= b * p) = (a ?= b).
Proof.
  intros H. destruct (Z.compare_spec a b) as [->|L|L];
    [apply Z.compare_refl|apply Z.compare_lt_iff; nia|apply Z.compare_gt_iff; nia].
Qed.

Lemma magnitude_compare_spec (mr : positive) (er : Z) (m : positive) :
  bounded prec emax mr er = true -> Zpos m < 2 ^ 53 ->
  match er ?= exponent m with
  | Lt => Lt
  | Gt => Gt
  | Eq => Pos.compare_cont Eq mr (mantissa m)
  end = magnitude_compare mr er m.
Proof.
  intros V Hm.
  assert (D : Zpos (digits2_pos m) <= 53) by now apply digits2_pos_le.
  assert (Vm : bounded prec emax (mantissa m) (exponent m) = true)
    by (apply (canon_valid (Zpos m)); simpl; lia).
  rewrite <- (aligned_compare mr er (mantissa m) (exponent m) V Vm). cbv zeta.
  set (ez := Z.min er (exponent m)).
  assert (Hez : ez <= er /\ ez <= exponent m /\ exponent m <= 0)
    by (unfold ez, exponent; lia).
  assert (Hc : Zpos (mantissa m) * 2 ^ (exponent m - ez) = Zpos m * 2 ^ (- ez)).
  { rewrite mantissa_spec by exact D. rewrite <- Z.mul_assoc, <- Z.pow_add_r by
        (unfold exponent in *; lia).
    f_equal. f_equal. unfold exponent. lia. }
  rewrite Hc. unfold magnitude_compare. destruct (Z.leb_spec 0 er) as [L|L].
  - replace (er - ez) with (er + - ez) by lia. rewrite Z.pow_add_r by lia.
    rewrite Z.mul_assoc. apply mul_compare_r, Z.pow_pos_nonneg; lia.
  - replace (- ez) with (- er + (er - ez)) by lia. rewrite Z.pow_add_r by lia.
    rewrite Z.mul_assoc. apply mul_compare_r, Z.pow_pos_nonneg; lia.
Qed.

(** On the integers below [2^53], comparing by value is the comparison of
    Numbers. *)
Lemma gt_number_ltb (i : Z) (r : float) :
  Z.abs i < 2 ^ 53 -> gt_number i r = (r <? Number_of_Z i)%float.
Proof.
  intros Hi. rewrite ltb_spec, (Number_of_Z_exact i Hi). unfold gt_number.
  pose proof (Prim2SF_valid r) as V.
  destruct (Prim2SF r) as [sr|sr| |sr mr er].
  - destruct i; reflexivity.
  - destruct i, sr; reflexivity.
  - reflexivity.
  - cbn [valid_binary] in V. cbv zeta.
    assert (P : forall e, 0 <= e -> 0 < 2 ^ e) by (intros; apply Z.pow_pos_nonneg; lia).
    destruct i as [|m|m]; cbn [canon]; unfold SFltb; cbn [SFcompare].
    + destruct sr, (Z.leb_spec 0 er) as [L|L]; rewrite ?Z.mul_0_l;
        first [reflexivity
              |apply Z.ltb_lt; specialize (P er L); nia
              |apply Z.ltb_ge; specialize (P er L); nia].
    + destruct sr.
      * destruct (Z.leb_spec 0 er) as [L|L]; apply Z.ltb_lt;
          [specialize (P er L)|specialize (P (- er) ltac:(lia))]; nia.
      * rewrite (magnitude_compare_spec mr er m V) by (simpl in Hi; lia).
        unfold magnitude_compare, Z.ltb. now destruct (0 <=? er).
    + destruct sr.
      * replace (match er ?= exponent m with
                 | Eq => CompOpp (Pos.compare_cont Eq mr (mantissa m))
                 | Lt => Gt
                 | Gt => Lt
                 end)
          with (CompOpp (match er ?= exponent m with
                         | Lt => Lt
                         | Gt => Gt
                         | Eq => Pos.compare_cont Eq mr (mantissa m)
                         end))
          by (now destruct (er ?= exponent m)).
        rewrite (magnitude_compare_spec mr er m V) by (simpl in Hi; lia).
        unfold magnitude_compare, Z.ltb.
        change (Zneg mr) with (- Zpos mr). change (Zneg m) with (- Zpos m).
        rewrite !Z.mul_opp_l, !Z.compare_opp.
        destruct (Z.leb_spec 0 er) as [L|L].
        -- rewrite (Z.compare_antisym (Zpos mr * 2 ^ er)).
           now destruct (Zpos mr * 2 ^ er ?= Zpos m).
        -- rewrite (Z.compare_antisym (Zpos mr) (Zpos m * 2 ^ (- er))).
           now destruct (Zpos mr ?= Zpos m * 2 ^ (- er)).
      * destruct (Z.leb_spec 0 er) as [L|L]; apply Z.ltb_ge;
          [specialize (P er L)|specialize (P (- er) ltac:(lia))]; nia.
Qed.

End IeeeExact.

(* ================================================================= *)
(** ** The recency query on any number of days *)

Section RecencyOnNumbers.
Import Ieee IeeeInt IeeeExact.
Local Open Scope Z_scope.

(** On a whole number of days within the span of [Date], the cutoff is
    computed without rounding. *)
Lemma cutoff_exact (now k : Z) :
  0 <= now <= 8640000000000000 -> 0 <= k <= 100000000 ->
  Prim2SF (Number_of_Z now - Number_of_Z k * 24 * 60 * 60 * 1000)%float
  = canon (now - k * 24 * 60 * 60 * 1000).
Proof.
  intros Hnow Hk. change (2 ^ 53) with 9007199254740992 in *.
  rewrite sub_spec, !mul_spec, !Number_of_Z_exact
    by (change (2 ^ 53) with 9007199254740992; lia).
  change (Prim2SF 24) with (canon 24). change (Prim2SF 60) with (canon 60).
  change (Prim2SF 1000) with (canon 1000).
  rewrite !SFmul_exact by (change (2 ^ 53) with 9007199254740992; lia).
  apply SFsub_exact; change (2 ^ 53) with 9007199254740992; lia.
Qed.

Lemma getRecentFiles_whole_days (now k : Z) (d : Database) :
  0 <= now <= 8640000000000000 -> 0 <= k <= 100000000 ->
  getRecentFiles_number now (Number_of_Z k) d = getRecentFiles now k d.
Proof.
  intros Hnow Hk.
  unfold getRecentFiles_number, getRecentFiles, select_files_modified_after_number,
    select_files_modified_after.
  f_equal. f_equal. apply filter_ext. intros row.
  apply gt_number_exact; [now apply cutoff_exact|].
  change (2 ^ 53) with 9007199254740992. lia.
Qed.

Lemma getRecentFiles_number_perm (now : Z) (days : float) (d : Database) :
  Permutation (getRecentFiles_number now days d)
    (map (fun row => {| RecentFile.path := Files.path row;
                        RecentFile.mtime := Files.mtime row |})
         (filter (fun row =>
                    gt_number (Files.mtime row)
                              (Number_of_Z now - days * 24 * 60 * 60 * 1000)%float)
                 (files d))).
Proof.
  unfold getRecentFiles_number, select_files_modified_after_number.
  apply (Permutation_map recent_of), stable_sort_perm.
Qed.

Lemma getRecentFiles_number_sorted (now : Z) (days : float) (d : Database) :
  StronglySorted (fun a b => RecentFile.mtime a >= RecentFile.mtime b)
                 (getRecentFiles_number now days d).
Proof.
  unfold getRecentFiles_number, select_files_modified_after_number.
  set (rows := stable_sort _ _).
  assert (Hs : StronglySorted (fun a b => Files.mtime a >= Files.mtime b) rows).
  { apply Sorted_StronglySorted; [intros a b c; lia|].
    assert (Hin : Sorted (in_order mtime_desc) rows)
      by (apply stable_sort_sorted, mtime_desc_asym).
    induction Hin as [|a l _ IH Hd]; constructor; [assumption|].
    destruct Hd as [|b l Hab]; constructor.
    unfold in_order in Hab. apply mtime_desc_false in Hab. lia. }
  clearbody rows. induction Hs as [|a l Hs IH Ha]; simpl; constructor; [assumption|].
  apply Forall_map. revert Ha. apply Forall_impl. now simpl.
Qed.

End RecencyOnNumbers.

(** C7: [getRecentFiles] computes the cutoff [now - days * 86400 s] (in
    milliseconds, in binary64) and returns exactly the stored files whose
    modification time is strictly greater than it, each with its path and
    its modification time, newest first. The comparison is by value: for a
    stored time in the range of [Date] it is the comparison of Numbers, and
    on a whole number of days within the span of [Date] the cutoff is the
    integer [now - days * 86400000]. With [days = 0] every file returned is
    newer than [now]. *)
Theorem getRecentFiles_spec (now : Z) (days : float) (d : Database) :
  let cutoff := (Number_of_Z now - days * 24 * 60 * 60 * 1000)%float in
  let recent := getRecentFiles_number now days d in
  let record row :=
    {| RecentFile.path := Files.path row; RecentFile.mtime := Files.mtime row |} in
  let after_cutoff row := gt_number (Files.mtime row) cutoff in
  Permutation recent (map record (filter after_cutoff (files d)))
  /\ (forall f, In f recent <->
        exists row, In row (files d) /\ after_cutoff row = true /\ f = record row)
  /\ StronglySorted (fun a b => (RecentFile.mtime a >= RecentFile.mtime b)%Z) recent
  /\ (forall row,
        (Z.abs (Files.mtime row) <= 8640000000000000)%Z ->
        after_cutoff row = (cutoff <? Number_of_Z (Files.mtime row))%float)
  /\ (forall k : Z,
        (0 <= now <= 8640000000000000)%Z -> (0 <= k <= 100000000)%Z ->
        days = Number_of_Z k ->
        forall f, In f recent <->
          exists row, In row (files d)
                      /\ (Files.mtime row > now - k * 86400 * 1000)%Z
                      /\ f = record row)
  /\ ((0 <= now <= 8640000000000000)%Z -> days = 0%float ->
      forall f, In f recent -> ~ (RecentFile.mtime f <= now)%Z).
Proof.
  intros cutoff recent record after_cutoff.
  assert (Hdays : forall k : Z,
             (0 <= now <= 8640000000000000)%Z -> (0 <= k <= 100000000)%Z ->
             days = Number_of_Z k ->
             forall f, In f recent <->
               exists row, In row (files d)
                           /\ (Files.mtime row > now - k * 86400 * 1000)%Z
                           /\ f = record row).
  { intros k Hnow Hk -> f. unfold recent.
    rewrite (getRecentFiles_whole_days now k d Hnow Hk). apply getRecentFiles_in. }
  split; [apply getRecentFiles_number_perm|]. split.
  - intros f. split.
    + intros H. apply (Permutation_in _ (getRecentFiles_number_perm now days d)) in H.
      apply in_map_iff in H as (row & <- & H). apply filter_In in H as [H1 H2].
      exists row. now repeat split.
    + intros (row & H1 & H2 & ->).
      apply (Permutation_in _ (Permutation_sym (getRecentFiles_number_perm now days d))).
      apply in_map_iff. exists row. split; [reflexivity|].
      apply filter_In. now split.
  - split; [apply getRecentFiles_number_sorted|]. split; [|split; [exact Hdays|]].
    + intros row Hrow. apply IeeeExact.gt_number_ltb.
      change (2 ^ 53)%Z with 9007199254740992%Z. lia.
    + intros Hnow -> f Hf.
      apply (Hdays 0%Z Hnow ltac:(lia) eq_refl) in Hf as (row & _ & Hgt & ->).
      cbn [record RecentFile.mtime]. lia.
Qed.

Lemma getRecentFiles_spec_witness :
  let row id name mtime :=
    {| Files.id := id; Files.path := name; Files.content := JsString.lit "text";
       Files.mtime := mtime; Files.size := 4; Files.extension := JsString.lit ".txt" |} in
  let d := {| files := [row 1%Z (JsString.lit "old.txt") 150000000%Z;
                        row 2%Z (JsString.lit "new.txt") 190000000%Z];
              embeddings := []; sqlite_sequence := 2; foreign_keys := true |} in
  let new := {| RecentFile.path := JsString.lit "new.txt";
                RecentFile.mtime := 190000000 |} in
  let old := {| RecentFile.path := JsString.lit "old.txt";
                RecentFile.mtime := 150000000 |} in
  getRecentFiles_number 200000000 (1 / 2)%float d = [new]
  /\ In old (getRecentFiles_number 200000000 1 d).
Proof.
  intros row d new old. split; [vm_compute; reflexivity|].
  destruct (getRecentFiles_spec 200000000 1 d) as (_ & _ & _ & _ & H & _).
  apply (H 1%Z); [lia|lia|reflexivity|].
  exists (row 1%Z (JsString.lit "old.txt") 150000000%Z).
  split; [now left|]. split; reflexivity.
Defined.

(* ================================================================= *)
(** ** Search *)

Section Search.
Import Ieee IeeeOrder.

Variable openai : nat -> list jsstring -> option (list (list float)).

(** Once the client has answered, [search] cannot fail. *)
Lemma search_normal query limit w q rest :
  openai (requests w) [query] = Some (q :: rest) ->
  search openai query limit w =
  (Normal (Array_slice (Array_sort by_score_desc (scored q w)) 0 limit),
   {| db := db w; requests := S (requests w) |}).
Proof.
  intros H. unfold search, bind, embeddings_create. rewrite H. reflexivity.
Qed.

Lemma score_is_number_spec r : score_is_number r = true -> number (SearchResult.score r).
Proof. intros H. apply is_nan_false. now apply negb_true_iff in H. Qed.

(** On numbers the comparator [b.score - a.score] sorts by [<]. *)
Lemma Array_sort_by_score results :
  forallb score_is_number results = true ->
  Array_sort by_score_desc results = stable_sort lt_score results.
Proof.
  intros H. rewrite forallb_forall in H. unfold Array_sort.
  apply stable_sort_ext. intros x y Hx Hy. unfold by_score_desc, lt_score.
  apply sub_positive; apply score_is_number_spec; auto.
Qed.

Lemma Sorted_impl_in {A} (R R' : A -> A -> Prop) l :
  (forall a b, In a l -> In b l -> R a b -> R' a b) ->
  Sorted R l -> Sorted R' l.
Proof.
  intros H Hs. induction Hs as [|a l Hs IH Hd]; constructor.
  - apply IH. intros x y Hx Hy. apply H; now right.
  - destruct Hd as [|b l Hab]; constructor. apply H; simpl; auto.
Qed.

Lemma Sorted_firstn {A} (R : A -> A -> Prop) n : forall l,
  Sorted R l -> Sorted R (firstn n l).
Proof.
  induction n as [|n IH]; intros l Hs; [constructor|].
  destruct Hs as [|a l Hs Hd]; simpl; constructor; [now apply IH|].
  destruct Hd as [|b l Hab]; destruct n; simpl; now constructor.
Qed.

Lemma stable_sort_lt_score_sorted results :
  forallb score_is_number results = true ->
  Sorted ge_score (stable_sort lt_score results).
Proof.
  intros H. rewrite forallb_forall in H.
  apply Sorted_impl_in with (R := in_order lt_score).
  - intros a b Ha Hb Hab. apply stable_sort_in in Ha, Hb.
    apply not_ltb_leb; try apply score_is_number_spec; auto.
  - apply stable_sort_sorted. intros x y. apply ltb_asym.
Qed.

Lemma stable_sort_lt_score_stable results v :
  filter (fun r => (SearchResult.score r =? v)%float) (stable_sort lt_score results)
  = filter (fun r => (SearchResult.score r =? v)%float) results.
Proof.
  apply stable_sort_filter. intros x y _ _ Hx Hy. unfold lt_score.
  now apply eqb_not_ltb with (v := v).
Qed.

End Search.

(** C3, as stated, fails: a stored vector of zeros scores NaN, and NaN is
    not [>=] any score. Two chunks, embedded as [[0; 0]] and [[1; 0]], are
    searched with the query vector [[1; 0]]: whatever order the results are
    left in, the adjacent pair is not in descending order. *)
Lemma search_sorted_counterexample :
  let openai := fun (n : nat) (_ : list jsstring) =>
                  match n with
                  | 0 => Some [[0; 0]%float]
                  | _ => Some [[1; 0]%float]
                  end in
  let file name :=
    {| IndexedFile.path := name; IndexedFile.content := JsString.lit "text";
       IndexedFile.mtime := 1000; IndexedFile.size := 4;
       IndexedFile.extension := JsString.lit ".txt" |} in
  let files := [file (JsString.lit "a.txt"); file (JsString.lit "b.txt")] in
  exists w results w',
    indexFiles openai files initial_world = (Normal JsUndefined, w)
    /\ search openai (JsString.lit "query") 5 w = (Normal results, w')
    /\ length results = 2
    /\ forall l, Permutation results l -> ~ Sorted ge_score l.
Proof.
  intros openai file files.
  eexists. eexists. eexists. split; [vm_compute; reflexivity|].
  split; [vm_compute; reflexivity|]. split; [reflexivity|].
  intros l Hp Hs. apply Permutation_length_2_inv in Hp as [-> | ->];
    inversion_clear Hs as [|? ? _ Hd]; inversion_clear Hd as [|? ? Hab];
      vm_compute in Hab; discriminate.
Qed.

(** C3 (amended): when every computed score is a number (no NaN), for every
    [limit >= 0] [search] returns the first [limit] entries of the scored
    chunks sorted by descending score, ties in retrieval order: adjacent
    results are in descending order, [limit = 0] gives the empty list, and
    a [limit] of at least the number of stored chunks gives all of them. *)
Theorem search_ranked
    (openai : nat -> list jsstring -> option (list (list float)))
    (query : jsstring) (limit : Z) (w : World) (q : list float)
    (rest : list (list float)) :
  openai (requests w) [query] = Some (q :: rest) ->
  forallb score_is_number (scored q w) = true ->
  (0 <= limit)%Z ->
  exists ranked results,
    fst (search openai query limit w) = Normal results
    /\ results = firstn (Z.to_nat limit) ranked
    /\ Permutation ranked (scored q w)
    /\ Sorted ge_score ranked
    /\ (forall v,
          filter (fun r => (SearchResult.score r =? v)%float) ranked
          = filter (fun r => (SearchResult.score r =? v)%float) (scored q w))
    /\ Sorted ge_score results
    /\ (limit = 0%Z -> results = [])
    /\ ((Z.of_nat (length (scored q w)) <= limit)%Z -> results = ranked).
Proof.
  intros Hq Hnum Hlimit.
  exists (stable_sort lt_score (scored q w)).
  exists (firstn (Z.to_nat limit) (stable_sort lt_score (scored q w))).
  pose proof (stable_sort_lt_score_sorted _ Hnum) as Hs.
  repeat split.
  - rewrite (search_normal openai query limit w q rest Hq). cbn [fst].
    now rewrite Array_slice_prefix, Array_sort_by_score.
  - apply stable_sort_perm.
  - exact Hs.
  - intros v. apply stable_sort_lt_score_stable.
  - now apply Sorted_firstn.
  - now intros ->.
  - intros H. apply firstn_all2. rewrite stable_sort_length. lia.
Qed.

Lemma search_ranked_witness :
  let openai := fun (n : nat) (input : list jsstring) =>
                  match n with
                  | 0 => Some [[3; 4]%float]
                  | 1 => Some [[1; 0]%float]
                  | _ => Some [[1; 1]%float]
                  end in
  let file name :=
    {| IndexedFile.path := name; IndexedFile.content := JsString.lit "text";
       IndexedFile.mtime := 1000; IndexedFile.size := 4;
       IndexedFile.extension := JsString.lit ".txt" |} in
  let files := [file (JsString.lit "a.txt"); file (JsString.lit "b.txt")] in
  let w := snd (indexFiles openai files initial_world) in
  exists results,
    fst (search openai (JsString.lit "query") 1 w) = Normal results
    /\ Sorted ge_score results.
Proof.
  intros openai file files w.
  destruct (search_ranked openai (JsString.lit "query") 1 w [1; 1]%float [])
    as (ranked & results & H1 & _ & _ & _ & _ & H2 & _).
  - reflexivity.
  - vm_compute. reflexivity.
  - lia.
  - exists results. now split.
Defined.

Lemma In_firstn_In {A} n (l : list A) x : In x (firstn n l) -> In x l.
Proof. intros H. rewrite <- (firstn_skipn n l). apply in_or_app. now left. Qed.

Lemma In_skipn_In {A} n (l : list A) x : In x (skipn n l) -> In x l.
Proof. intros H. rewrite <- (firstn_skipn n l). apply in_or_app. now right. Qed.

Lemma In_Array_slice {A} (arr : list A) (start end_ : Z) x :
  In x (Array_slice arr start end_) -> In x arr.
Proof.
  unfold Array_slice. intros H. eapply In_skipn_In, In_firstn_In, H.
Qed.






(* ================================================================= *)
(** ** The store: what a path's record and its chunk vectors are *)

(** A path with one record in the join: the record, and its chunk records. *)
Lemma view_single d p row chunks :
  view d p = [(row, chunks)] ->
  file_rows d p = [row] /\ chunks_of d (Files.id row) = chunks.
Proof.
  unfold view. intros H.
  destruct (file_rows d p) as [|r [|r' rs]]; try discriminate.
  now injection H as -> <-.
Qed.

(** Whether a file is committed can be read off the join for its path. *)
Lemma committed_view d file :
  committed d file <->
  exists row chunks,
    view d (IndexedFile.path file) = [(row, chunks)]
    /\ row_of file row
    /\ map (fun e => (Embeddings.chunk_index e, Embeddings.chunk_text e)) chunks
       = numbered 0 (chunkText (IndexedFile.content file) 500).
Proof.
  split.
  - intros (row & Hrows & Hrow & Hent). exists row, (chunks_of d (Files.id row)).
    unfold view. rewrite Hrows. split; [reflexivity|]. split; assumption.
  - intros (row & chunks & Hview & Hrow & Hent).
    apply view_single in Hview as [Hrows <-]. now exists row.
Qed.

Lemma consistent_empty_db : consistent empty_db.
Proof. split; [constructor|intros e []|intros _ e []]. Qed.

Section ListFacts.
Context {A : Type}.

Lemma filter_nil_iff (f : A -> bool) l :
  (forall x, In x l -> f x = false) -> filter f l = [].
Proof.
  induction l as [|x l IH]; intros H; [reflexivity|].
  simpl. rewrite H by now left. apply IH. intros y Hy. apply H. now right.
Qed.

Lemma filter_filter_sub (f g : A -> bool) l :
  (forall x, In x l -> f x = true -> g x = true) ->
  filter f (filter g l) = filter f l.
Proof.
  induction l as [|x l IH]; intros H; [reflexivity|].
  simpl. destruct (g x) eqn:Eg; simpl.
  - rewrite IH by (intros y Hy; apply H; now right). reflexivity.
  - destruct (f x) eqn:Ef.
    + rewrite H in Eg by (assumption || now left). discriminate.
    + apply IH. intros y Hy. apply H. now right.
Qed.

Lemma NoDup_map_filter {B} (f : A -> B) (p : A -> bool) l :
  NoDup (map f l) -> NoDup (map f (filter p l)).
Proof.
  induction l as [|x l IH]; intros H; [constructor|].
  simpl in H. inversion_clear H as [|? ? Hx Hl]. simpl.
  destruct (p x); [|now apply IH]. simpl. constructor; [|now apply IH].
  intros Hin. apply Hx. apply in_map_iff in Hin as (y & Hy & Hin).
  apply filter_In in Hin as [Hin _]. apply in_map_iff. now exists y.
Qed.

Lemma NoDup_map_eq {B} (f : A -> B) l a b :
  NoDup (map f l) -> In a l -> In b l -> f a = f b -> a = b.
Proof.
  induction l as [|x l IH]; intros H Ha Hb E; [contradiction|].
  simpl in H. inversion_clear H as [|? ? Hx Hl].
  destruct Ha as [->|Ha], Hb as [->|Hb]; auto.
  - destruct Hx. rewrite E. now apply in_map.
  - destruct Hx. rewrite <- E. now apply in_map.
Qed.

Lemma NoDup_app_disjoint (l1 l2 : list A) a :
  NoDup (l1 ++ l2) -> In a l1 -> In a l2 -> False.
Proof.
  induction l1 as [|x l1 IH]; intros H H1 H2; [contradiction|].
  cbn [app] in H. inversion_clear H as [|? ? Hx Hl]. destruct H1 as [->|H1].
  - apply Hx, in_or_app. now right.
  - now apply IH.
Qed.

Lemma NoDup_snoc (l : list A) x : NoDup l -> ~ In x l -> NoDup (l ++ [x]).
Proof.
  intros Hl Hx. apply NoDup_app; [assumption|repeat constructor; intros []|].
  intros y Hy [<-|[]]. contradiction.
Qed.

End ListFacts.

Lemma max_rowid_ge rows r : In r rows -> (Files.id r <= max_rowid rows)%Z.
Proof.
  induction rows as [|x rows IH]; intros H; [contradiction|].
  simpl. destruct H as [->|H]; [lia|]. specialize (IH H). lia.
Qed.

(* ================================================================= *)
(** ** [INSERT OR REPLACE INTO files] *)

Section InsertFile.
Variable d : Database.
Variable file : IndexedFile.t.
Hypothesis Hd : consistent d.

Local Abbreviation d' := (fst (insertFile_run d file)).
Local Abbreviation rowid := (snd (insertFile_run d file)).
Local Abbreviation p := (IndexedFile.path file).
Local Abbreviation new_row := (file_row (snd (insertFile_run d file)) file).

Lemma insertFile_files :
  files d' = filter (fun r => negb (JsString.eqb (Files.path r) p)) (files d) ++ [new_row].
Proof. reflexivity. Qed.

Lemma insertFile_foreign_keys : foreign_keys d' = foreign_keys d.
Proof. reflexivity. Qed.

Lemma insertFile_rowid : rowid = (rowid_bound d + 1)%Z.
Proof. reflexivity. Qed.

Lemma insertFile_rowid_fresh r : In r (files d) -> (Files.id r < rowid)%Z.
Proof.
  intros H. apply max_rowid_ge in H. rewrite insertFile_rowid.
  unfold rowid_bound. lia.
Qed.

(** The rows of [embeddings] that stay are rows that were there. *)
Lemma insertFile_embeddings_sub e : In e (embeddings d') -> In e (embeddings d).
Proof.
  unfold insertFile_run. cbn [fst embeddings].
  destruct (foreign_keys d); [|trivial]. intros H. now apply filter_In in H.
Qed.

(** A row is deleted with its file record exactly when its [file_id] is
    the rowid of a record of the path. *)
Lemma insertFile_deleted e :
  existsb (Z.eqb (Embeddings.file_id e))
          (map Files.id (filter (fun r => JsString.eqb (Files.path r) p) (files d)))
  = true <->
  exists r, In r (files d) /\ Files.id r = Embeddings.file_id e /\ Files.path r = p.
Proof.
  rewrite existsb_exists. split.
  - intros (i & Hi & Heq). apply Z.eqb_eq in Heq. subst i.
    apply in_map_iff in Hi as (r & Hid & Hr). apply filter_In in Hr as [Hr Hp].
    apply JsStringFacts.eqb_eq in Hp. now exists r.
  - intros (r & Hr & Hid & Hp). exists (Files.id r). split; [|now apply Z.eqb_eq].
    apply in_map, filter_In. split; [assumption|]. now apply JsStringFacts.eqb_eq.
Qed.

Lemma insertFile_consistent : consistent d'.
Proof.
  split.
  - rewrite insertFile_files, map_app. apply NoDup_snoc.
    + apply NoDup_map_filter, (unique_ids _ Hd).
    + intros H. apply in_map_iff in H as (r & Hid & Hr).
      apply filter_In in Hr as [Hr _]. apply insertFile_rowid_fresh in Hr.
      unfold file_row in Hid. cbn [Files.id] in Hid. lia.
  - intros e He. apply insertFile_embeddings_sub, (known_ids _ Hd) in He.
    unfold rowid_bound at 1. unfold insertFile_run at 1.
    cbn [fst sqlite_sequence]. lia.
  - rewrite insertFile_foreign_keys. intros Hfk e He.
    assert (Hin : In e (embeddings d)) by now apply insertFile_embeddings_sub.
    apply (foreign_key _ Hd Hfk) in Hin. apply in_map_iff in Hin as (r & Hid & Hr).
    rewrite insertFile_files, map_app. apply in_or_app. left.
    apply in_map_iff. exists r. split; [assumption|]. apply filter_In.
    split; [assumption|]. apply negb_true_iff, JsStringFacts.eqb_neq. intros Hp.
    unfold insertFile_run in He. cbn [fst embeddings] in He. rewrite Hfk in He.
    apply filter_In in He as [_ He]. apply negb_true_iff in He.
    rewrite <- not_true_iff_false in He. apply He, insertFile_deleted. now exists r.
Qed.

Lemma insertFile_rowid_in : In rowid (map Files.id (files d')).
Proof. rewrite insertFile_files, map_app. apply in_or_app. right. now left. Qed.

(** The path has exactly one record afterwards, the new one. *)
Lemma insertFile_file_rows : file_rows d' p = [new_row].
Proof.
  unfold file_rows. rewrite insertFile_files, filter_app.
  rewrite filter_nil_iff.
  - simpl. now rewrite JsStringFacts.eqb_refl.
  - intros r Hr. apply filter_In in Hr as [_ Hr]. now apply negb_true_iff in Hr.
Qed.

(** No chunk record is joined to the new record yet. *)
Lemma insertFile_chunks_of : chunks_of d' rowid = [].
Proof.
  apply filter_nil_iff. intros e He.
  apply insertFile_embeddings_sub, (known_ids _ Hd) in He.
  apply Z.eqb_neq. rewrite insertFile_rowid. lia.
Qed.

(** Every other path keeps its record and its chunk records. *)
Lemma insertFile_frame q : q <> p -> view d' q = view d q.
Proof.
  intros Hq. unfold view.
  assert (Hrows : file_rows d' q = file_rows d q).
  { unfold file_rows. rewrite insertFile_files, filter_app. simpl.
    replace (JsString.eqb p q) with false
      by (symmetry; apply JsStringFacts.eqb_neq; congruence).
    rewrite app_nil_r. apply filter_filter_sub. intros r _ Hr.
    apply JsStringFacts.eqb_eq in Hr.
    apply negb_true_iff, JsStringFacts.eqb_neq. congruence. }
  rewrite Hrows. apply map_ext_in. intros r Hr. f_equal.
  apply filter_In in Hr as [Hr Hp]. apply JsStringFacts.eqb_eq in Hp.
  unfold chunks_of, insertFile_run. cbn [fst embeddings].
  destruct (foreign_keys d); [|reflexivity].
  apply filter_filter_sub. intros e He Hid. apply Z.eqb_eq in Hid.
  apply negb_true_iff, not_true_iff_false. intros Hex.
  apply insertFile_deleted in Hex as (r' & Hr' & Hid' & Hp').
  assert (r' = r) by (apply (NoDup_map_eq Files.id (files d)); try assumption;
                      [apply (unique_ids _ Hd)|congruence]).
  subst r'. congruence.
Qed.

End InsertFile.

(* ================================================================= *)
(** ** [INSERT OR REPLACE INTO embeddings] and the two inner loops *)

Lemma numbered_cons k text texts :
  numbered k (text :: texts) = (Z.of_nat k, text) :: numbered (S k) texts.
Proof. reflexivity. Qed.

Lemma numbered_app k xs ys :
  numbered k (xs ++ ys) = numbered k xs ++ numbered (k + length xs) ys.
Proof.
  revert k. induction xs as [|x xs IH]; intros k.
  - simpl. now rewrite Nat.add_0_r.
  - cbn [app length]. rewrite !numbered_cons, IH. cbn [app].
    now rewrite Nat.add_succ_r.
Qed.

Lemma numbered_texts k texts : map snd (numbered k texts) = texts.
Proof.
  revert k. induction texts as [|x xs IH]; intros k; [reflexivity|].
  rewrite numbered_cons. cbn [map snd]. now rewrite IH.
Qed.

Lemma numbered_index k texts i text :
  In (i, text) (numbered k texts) -> (i < Z.of_nat (k + length texts))%Z.
Proof.
  revert k. induction texts as [|x xs IH]; intros k H; [contradiction|].
  rewrite numbered_cons in H. destruct H as [H|H].
  - injection H as <- _. simpl. lia.
  - apply IH in H. simpl. lia.
Qed.

Lemma firstn_add {A} i m (l : list A) :
  firstn (i + m) l = firstn i l ++ firstn m (skipn i l).
Proof.
  revert l. induction i as [|i IH]; intros l; [reflexivity|].
  destruct l as [|x l]; simpl; [now rewrite firstn_nil|]. now rewrite IH.
Qed.

(** The batch [chunks.slice(i, i + batchSize)] inside the loop. *)
Lemma Array_slice_batch {A} (chunks : list A) i m :
  i <= length chunks ->
  Array_slice chunks (Z.of_nat i) (Z.of_nat (i + m)) = firstn m (skipn i chunks).
Proof.
  intros H. unfold Array_slice.
  replace (Z.of_nat i <? 0)%Z with false by (symmetry; apply Z.ltb_ge; lia).
  replace (Z.of_nat (i + m) <? 0)%Z with false by (symmetry; apply Z.ltb_ge; lia).
  rewrite (Z.min_l (Z.of_nat i)) by lia. rewrite Nat2Z.id.
  destruct (Nat.le_gt_cases (i + m) (length chunks)) as [Hm|Hm].
  - rewrite Z.min_l by lia. f_equal. lia.
  - rewrite Z.min_r by lia.
    rewrite !firstn_all2; rewrite ?length_skipn; (reflexivity || lia).
Qed.

Section InsertEmbedding.
Variable d : Database.
Variables (fileId chunkIndex : Z) (text : jsstring) (buffer : list float).
Hypothesis Hid : In fileId (map Files.id (files d)).

Local Abbreviation new_row :=
  {| Embeddings.file_id := fileId; Embeddings.chunk_index := chunkIndex;
     Embeddings.chunk_text := text; Embeddings.embedding := buffer |}.
Local Abbreviation d' := (replace_embedding d new_row).

(** The foreign key holds, so the statement does not throw. *)
Lemma insertEmbedding_run_ok :
  insertEmbedding_run d fileId chunkIndex text buffer = Some d'.
Proof.
  unfold insertEmbedding_run.
  replace (existsb _ (files d)) with true; [now rewrite orb_true_r|].
  symmetry. apply existsb_exists. apply in_map_iff in Hid as (r & Hr & Hin).
  exists r. split; [assumption|]. now apply Z.eqb_eq.
Qed.

Lemma insertEmbedding_consistent : consistent d -> consistent d'.
Proof.
  intros [Hids Hknown Hfk]. split; [exact Hids| |].
  - intros e He. change (rowid_bound d') with (rowid_bound d).
    cbn [replace_embedding embeddings] in He.
    apply in_app_or in He as [He|[<-|[]]].
    + apply filter_In in He as [He _]. now apply Hknown.
    + cbn [Embeddings.file_id]. apply in_map_iff in Hid as (r & <- & Hr).
      apply max_rowid_ge in Hr. unfold rowid_bound. lia.
  - intros Hon e He. cbn [replace_embedding embeddings files] in *.
    apply in_app_or in He as [He|[<-|[]]].
    + apply filter_In in He as [He _]. now apply Hfk.
    + exact Hid.
Qed.

Lemma insertEmbedding_others fileId' :
  fileId' <> fileId -> chunks_of d' fileId' = chunks_of d fileId'.
Proof.
  intros Hne. unfold chunks_of. cbn [replace_embedding embeddings Embeddings.file_id Embeddings.chunk_index]. rewrite filter_app.
  cbn [filter Embeddings.file_id].
  replace (fileId =? fileId')%Z with false by (symmetry; apply Z.eqb_neq; congruence).
  rewrite app_nil_r. apply filter_filter_sub. intros e _ He.
  apply Z.eqb_eq in He. apply negb_true_iff, andb_false_iff. left.
  apply Z.eqb_neq. congruence.
Qed.

(** No row is replaced when the key is new: the record is appended. *)
Lemma insertEmbedding_appends :
  (forall e, In e (chunks_of d fileId) -> Embeddings.chunk_index e <> chunkIndex) ->
  chunks_of d' fileId = chunks_of d fileId ++ [new_row].
Proof.
  intros Hnew. unfold chunks_of. cbn [replace_embedding embeddings Embeddings.file_id Embeddings.chunk_index]. rewrite filter_app.
  cbn [filter Embeddings.file_id]. rewrite Z.eqb_refl. f_equal.
  apply filter_filter_sub. intros e He Hf.
  apply negb_true_iff, andb_false_iff. right. apply Z.eqb_neq, Hnew.
  apply filter_In. now split.
Qed.

End InsertEmbedding.

Lemma touches_only_refl fileId w : touches_only fileId w w.
Proof. now split. Qed.

Lemma touches_only_trans fileId w1 w2 w3 :
  touches_only fileId w1 w2 -> touches_only fileId w2 w3 -> touches_only fileId w1 w3.
Proof.
  intros [F1 P1 O1 C1] [F2 P2 O2 C2]. split.
  - congruence.
  - congruence.
  - intros f Hf. now rewrite O2, O1.
  - auto.
Qed.

Section IndexingLoops.
Variable openai : nat -> list jsstring -> option (list (list float)).

(** The inner loop appends one record per chunk of the batch, numbered
    from [i + j]; it stops early only on a response that is too short. *)
Lemma storeEmbeddings_spec fileId i data rest : forall j w r w',
  In fileId (map Files.id (files (db w))) ->
  (forall e, In e (chunks_of (db w) fileId) ->
             (Embeddings.chunk_index e < Z.of_nat (i + j))%Z) ->
  storeEmbeddings fileId i j rest data w = (r, w') ->
  touches_only fileId w w'
  /\ requests w' = requests w
  /\ exists n,
       n <= length rest
       /\ chunk_entries (db w') fileId
          = chunk_entries (db w) fileId ++ numbered (i + j) (firstn n rest)
       /\ match r with
          | Normal _ => n = length rest
          | Throw e => e = TypeError
          end.
Proof.
  induction rest as [|text rest IH]; intros j w r w' Hid Hlt Hrun.
  - injection Hrun as <- <-. split; [apply touches_only_refl|]. split; [reflexivity|].
    exists 0. simpl. now rewrite app_nil_r.
  - cbn [storeEmbeddings] in Hrun.
    destruct (nth_error data j) as [embedding|].
    2:{ injection Hrun as <- <-. split; [apply touches_only_refl|].
        split; [reflexivity|]. exists 0. simpl.
        rewrite app_nil_r. repeat split; lia. }
    unfold bind, insertEmbedding in Hrun.
    rewrite (insertEmbedding_run_ok _ _ _ _ _ Hid) in Hrun.
    match type of Hrun with storeEmbeddings _ _ _ _ _ ?x = _ => set (w1 := x) in * end.
    assert (Hnew : forall e, In e (chunks_of (db w) fileId) ->
                             Embeddings.chunk_index e <> Z.of_nat (i + j))
      by (intros e He; apply Hlt in He; lia).
    pose proof (insertEmbedding_appends (db w) fileId (Z.of_nat (i + j)) text
                  (Float32Array embedding) Hnew) as Happ.
    assert (T1 : touches_only fileId w w1).
    { split; [reflexivity|reflexivity| |].
      - intros f Hf. now apply insertEmbedding_others.
      - now apply insertEmbedding_consistent. }
    apply IH in Hrun as (T2 & Hreq & n & Hn & Hent & Hr).
    + split; [eapply touches_only_trans; eassumption|]. split; [exact Hreq|].
      exists (S n). split; [simpl; lia|]. split.
      * rewrite Hent. unfold chunk_entries. cbn [w1 db]. rewrite Happ, map_app.
        cbn [firstn]. rewrite numbered_cons, <- app_assoc. cbn [map app].
        now rewrite Nat.add_succ_r.
      * destruct r; [simpl; lia|assumption].
    + exact Hid.
    + intros e He. cbn [w1 db] in He. rewrite Happ in He.
      apply in_app_or in He as [He|[<-|[]]]; [apply Hlt in He; lia|simpl; lia].
Qed.

(** The batch loop with enough fuel: the records of the chunks before [i]
    are there on entry; on exit the records are those of the first [n]
    chunks, all of them when the loop completes, and those of the [k]
    batches that were answered when the [k+1]-th request is rejected. *)
Lemma embedBatches_spec fileId chunks : forall fuel i w r w',
  length chunks <= i + fuel ->
  In fileId (map Files.id (files (db w))) ->
  chunk_entries (db w) fileId = numbered 0 (firstn i chunks) ->
  embedBatches openai fuel fileId chunks i w = (r, w') ->
  touches_only fileId w w'
  /\ exists n,
       chunk_entries (db w') fileId = numbered 0 (firstn n chunks)
       /\ match r with
          | Normal _ => length chunks <= n
          | Throw EmbeddingError =>
              n < length chunks
              /\ exists k, requests w' = S (requests w + k) /\ n = i + batchSize * k
          | Throw TypeError => True
          | Throw SqliteError => False
          end.
Proof.
  induction fuel as [|fuel IH]; intros i w r w' Hfuel Hid Hent Hrun.
  - injection Hrun as <- <-. split; [apply touches_only_refl|].
    exists i. split; [assumption|lia].
  - cbn [embedBatches] in Hrun. destruct (Nat.ltb_spec i (length chunks)) as [Hi|Hi].
    2:{ injection Hrun as <- <-. split; [apply touches_only_refl|].
        exists i. split; [assumption|lia]. }
    rewrite Array_slice_batch in Hrun by lia.
    unfold bind at 1, embeddings_create in Hrun.
    set (batch := firstn batchSize (skipn i chunks)) in *.
    set (w1 := {| db := db w; requests := S (requests w) |}) in *.
    destruct (openai (requests w) batch) as [data|].
    2:{ injection Hrun as <- <-. split; [now split|].
        exists i. split; [assumption|]. split; [assumption|].
        exists 0. cbn [w1 requests]. split; lia. }
    unfold bind in Hrun.
    destruct (storeEmbeddings fileId i 0 batch data w1) as [r1 w2] eqn:Estore.
    apply storeEmbeddings_spec in Estore as (T1 & Hreq & n1 & Hn1 & Hent1 & Hr1);
      [|exact Hid|].
    2:{ intros e He. rewrite Nat.add_0_r.
        assert (Hin : In (Embeddings.chunk_index e, Embeddings.chunk_text e)
                         (chunk_entries (db w1) fileId))
          by (unfold chunk_entries;
              apply (in_map (fun e => (Embeddings.chunk_index e, Embeddings.chunk_text e)));
              exact He).
        cbn [w1 db] in Hin. rewrite Hent in Hin. apply numbered_index in Hin.
        rewrite length_firstn in Hin. lia. }
    assert (Hent2 : chunk_entries (db w2) fileId
                    = numbered 0 (firstn (i + Nat.min n1 batchSize) chunks)).
    { rewrite Hent1. cbn [w1 db]. rewrite Hent, firstn_add, numbered_app.
      rewrite length_firstn, Nat.min_l by lia. rewrite Nat.add_0_r. cbn [Nat.add].
      unfold batch. now rewrite firstn_firstn. }
    destruct r1 as [[]|e1].
    + subst n1.
      replace (i + Nat.min (length batch) batchSize) with (Nat.min (i + batchSize) (length chunks)) in Hent2
        by (unfold batch; rewrite length_firstn, length_skipn; lia).
      assert (Hent3 : chunk_entries (db w2) fileId = numbered 0 (firstn (i + batchSize) chunks)).
      { rewrite Hent2. destruct (Nat.le_gt_cases (i + batchSize) (length chunks)).
        - now rewrite Nat.min_l.
        - rewrite Nat.min_r by lia. now rewrite !firstn_all2 by lia. }
      apply IH in Hrun as (T2 & n & Hent' & Hr); [| unfold batchSize; lia | |exact Hent3].
      2:{ now rewrite (same_files _ _ _ T1). }
      split; [eapply touches_only_trans; [|exact T2]; eapply touches_only_trans; [|exact T1]; now split|].
      exists n. split; [exact Hent'|].
      destruct r as [[]|[| |]]; try assumption.
      destruct Hr as (Hn & k & Hk & ->). split; [assumption|].
      exists (S k). rewrite Hk, Hreq. cbn [w1 requests]. split; lia.
    + injection Hrun as <- <-. subst e1.
      split; [eapply touches_only_trans; [|exact T1]; now split|].
      eexists. split; [exact Hent2|exact I].
Qed.

End IndexingLoops.

(* ================================================================= *)
(** ** Indexing one file, and a list of files *)

Section IndexFiles.
Variable openai : nat -> list jsstring -> option (list (list float)).

(** One iteration of the loop over the files: the path has one record
    afterwards, the new one, with the chunk records that were stored; no
    other path is touched. *)
Lemma indexFile_spec file w r w' :
  consistent (db w) ->
  indexFile openai file w = (r, w') ->
  consistent (db w')
  /\ foreign_keys (db w') = foreign_keys (db w)
  /\ (forall q, q <> IndexedFile.path file -> view (db w') q = view (db w) q)
  /\ exists row chunks n,
       view (db w') (IndexedFile.path file) = [(row, chunks)]
       /\ row_of file row
       /\ map (fun e => (Embeddings.chunk_index e, Embeddings.chunk_text e)) chunks
          = numbered 0 (firstn n (chunkText (IndexedFile.content file) 500))
       /\ progress file w w' r n.
Proof.
  intros Hd Hrun. unfold indexFile, bind, insertFile in Hrun.
  destruct (insertFile_run (db w) file) as [d1 rowid] eqn:E.
  pose proof (insertFile_consistent (db w) file Hd) as Hd1.
  pose proof (insertFile_file_rows (db w) file) as Hrows.
  pose proof (insertFile_chunks_of (db w) file Hd) as Hnone.
  pose proof (insertFile_frame (db w) file Hd) as Hframe.
  pose proof (insertFile_rowid_in (db w) file) as Hin.
  rewrite E in Hd1, Hrows, Hnone, Hframe, Hin. cbn [fst snd] in *.
  set (w1 := {| db := d1; requests := requests w |}) in *.
  set (chunks := chunkText (IndexedFile.content file) 500) in *.
  apply embedBatches_spec in Hrun as (T & n & Hent & Hr);
    [|lia|exact Hin|unfold chunk_entries; cbn [w1 db]; now rewrite Hnone].
  destruct T as [Hfiles Hpragma Hothers Hcons].
  cbn [w1 db] in Hfiles, Hpragma, Hothers, Hcons.
  assert (Hrows' : forall q, file_rows (db w') q = file_rows d1 q)
    by (intros q; unfold file_rows; now rewrite Hfiles).
  split; [now apply Hcons|].
  split; [rewrite Hpragma; now rewrite <- (insertFile_foreign_keys (db w) file), E|].
  split.
  - intros q Hq. rewrite <- (Hframe q Hq). unfold view. rewrite Hrows'.
    apply map_ext_in. intros row Hrow. f_equal. apply Hothers. intros Hid.
    apply filter_In in Hrow as [Hrow Hp]. apply JsStringFacts.eqb_eq in Hp.
    assert (Hnew : In {| Files.id := rowid; Files.path := IndexedFile.path file;
                         Files.content := IndexedFile.content file;
                         Files.mtime := IndexedFile.mtime file;
                         Files.size := IndexedFile.size file;
                         Files.extension := IndexedFile.extension file |} (files d1)).
    { assert (H : In {| Files.id := rowid; Files.path := IndexedFile.path file;
                         Files.content := IndexedFile.content file;
                         Files.mtime := IndexedFile.mtime file;
                         Files.size := IndexedFile.size file;
                         Files.extension := IndexedFile.extension file |}
                     (file_rows d1 (IndexedFile.path file)))
        by (rewrite Hrows; now left).
      now apply filter_In in H as [H _]. }
    pose proof (NoDup_map_eq Files.id (files d1) _ _ (unique_ids _ Hd1) Hrow Hnew Hid) as Heq.
    subst row. now apply Hq.
  - eexists. exists (chunks_of (db w') rowid), (Nat.min n (length chunks)).
    split; [unfold view; rewrite Hrows', Hrows; reflexivity|].
    split; [now repeat split|]. split.
    + fold (chunk_entries (db w') rowid). rewrite Hent.
      destruct (Nat.le_gt_cases n (length chunks)).
      * now rewrite Nat.min_l.
      * rewrite Nat.min_r by lia. now rewrite !firstn_all2 by lia.
    + unfold progress. fold chunks. destruct r as [[]|[| |]]; try lia.
      destruct Hr as (Hn & k & Hk & ->). cbn [w1 requests] in Hk.
      rewrite Nat.min_l by lia. split; [assumption|]. now exists k.
Qed.

Lemma indexFiles_loop_cons file files w :
  indexFiles_loop openai (file :: files) w =
  match indexFile openai file w with
  | (Normal _, w1) => indexFiles_loop openai files w1
  | (Throw e, w1) => (Throw e, w1)
  end.
Proof.
  cbn [indexFiles_loop]. unfold bind. now destruct (indexFile openai file w) as [[[]|e] w1].
Qed.

(** A failing call fails in one file; the files before it completed. *)
Lemma indexFiles_loop_throw files : forall w e w',
  indexFiles_loop openai files w = (Throw e, w') ->
  exists pre file post w1,
    files = pre ++ file :: post
    /\ indexFiles_loop openai pre w = (Normal tt, w1)
    /\ indexFile openai file w1 = (Throw e, w').
Proof.
  induction files as [|f files IH]; intros w e w' H; [discriminate|].
  rewrite indexFiles_loop_cons in H.
  destruct (indexFile openai f w) as [[[]|e1] w1] eqn:E.
  - apply IH in H as (pre & file & post & w2 & -> & Hpre & Hfile).
    exists (f :: pre), file, post, w2. split; [reflexivity|].
    split; [|assumption]. now rewrite indexFiles_loop_cons, E.
  - injection H as <- <-. exists [], f, files, w. now repeat split.
Qed.

Lemma indexFiles_loop_app pre : forall w w1 files,
  indexFiles_loop openai pre w = (Normal tt, w1) ->
  indexFiles_loop openai (pre ++ files) w = indexFiles_loop openai files w1.
Proof.
  induction pre as [|f pre IH]; intros w w1 files H.
  - now injection H as <-.
  - cbn [app]. rewrite indexFiles_loop_cons in *.
    destruct (indexFile openai f w) as [[[]|e] w2]; [now apply IH|discriminate].
Qed.

Lemma latest_in files p : In p (map IndexedFile.path files) ->
  exists file, latest files p = Some file.
Proof.
  induction files as [|f files IH]; intros H; [contradiction|].
  cbn [latest]. destruct (latest files p) as [g|] eqn:E; [now exists g|].
  destruct H as [<-|H]; [|now destruct (IH H)].
  rewrite JsStringFacts.eqb_refl. now exists f.
Qed.

Lemma latest_path files p file :
  latest files p = Some file -> IndexedFile.path file = p /\ In file files.
Proof.
  induction files as [|f files IH]; [discriminate|]. cbn [latest].
  destruct (latest files p) as [g|].
  - intros [= <-]. destruct (IH eq_refl). split; [assumption|now right].
  - destruct (JsString.eqb (IndexedFile.path f) p) eqn:E; [|discriminate].
    intros [= <-]. apply JsStringFacts.eqb_eq in E. split; [assumption|now left].
Qed.

Lemma latest_none files p :
  latest files p = None -> ~ In p (map IndexedFile.path files).
Proof.
  intros H Hin. apply latest_in in Hin as [f Hf]. congruence.
Qed.

(** A completed run: the store is consistent, every path of the list holds
    the last file given for it, fully committed, and all other paths are as
    they were. *)
Lemma indexFiles_loop_normal files : forall w w',
  consistent (db w) ->
  indexFiles_loop openai files w = (Normal tt, w') ->
  consistent (db w')
  /\ foreign_keys (db w') = foreign_keys (db w)
  /\ (forall q, ~ In q (map IndexedFile.path files) -> view (db w') q = view (db w) q)
  /\ (forall p file, latest files p = Some file -> committed (db w') file).
Proof.
  induction files as [|f files IH]; intros w w' Hd H.
  - injection H as <-. split; [assumption|]. split; [reflexivity|].
    split; [reflexivity|discriminate].
  - rewrite indexFiles_loop_cons in H.
    destruct (indexFile openai f w) as [[[]|e] w1] eqn:E; [|discriminate].
    apply indexFile_spec in E
      as (Hd1 & Hfk1 & Hframe1 & row & chunks & n & Hview & Hrow & Hent & Hn);
      [|assumption].
    apply IH in H as (Hd' & Hfk' & Hframe & Hlatest); [|assumption].
    split; [assumption|]. split; [congruence|]. split.
    + intros q Hq. cbn [map In] in Hq. rewrite Hframe by tauto. apply Hframe1.
      intros ->. tauto.
    + intros p file Hl. cbn [latest] in Hl.
      destruct (latest files p) as [g|] eqn:El.
      * injection Hl as <-. now apply (Hlatest p).
      * destruct (JsString.eqb (IndexedFile.path f) p) eqn:Ep; [|discriminate].
        injection Hl as <-. apply JsStringFacts.eqb_eq in Ep. subst p.
        apply committed_view.
        exists row, chunks. rewrite Hframe by now apply latest_none.
        split; [assumption|]. split; [assumption|].
        rewrite Hent. unfold progress in Hn. rewrite Hn. now rewrite firstn_all.
Qed.

(** Whatever way a call of [indexFiles] ends, the store stays consistent. *)
Lemma indexFiles_loop_consistent files : forall w,
  consistent (db w) -> consistent (db (snd (indexFiles_loop openai files w))).
Proof.
  induction files as [|f files IH]; intros w Hd; [assumption|].
  rewrite indexFiles_loop_cons.
  destruct (indexFile openai f w) as [r w1] eqn:E.
  apply indexFile_spec in E as (Hd1 & _); [|assumption].
  destruct r as [[]|e]; [now apply IH|assumption].
Qed.

Lemma indexFiles_loop_foreign_keys files : forall w,
  consistent (db w) ->
  foreign_keys (db (snd (indexFiles_loop openai files w))) = foreign_keys (db w).
Proof.
  induction files as [|f files IH]; intros w Hd; [reflexivity|].
  rewrite indexFiles_loop_cons.
  destruct (indexFile openai f w) as [r w1] eqn:E.
  apply indexFile_spec in E as (Hd1 & Hfk & _); [|assumption].
  destruct r as [[]|e]; [|assumption]. now rewrite IH.
Qed.

(** Every store the process can reach satisfies the schema, with foreign
    keys enforced. *)
Lemma reachable_consistent w :
  reachable openai w -> consistent (db w) /\ foreign_keys (db w) = true.
Proof.
  induction 1 as [|files w _ [IH Hfk]|query limit w _ IH].
  - split; [exact consistent_empty_db|reflexivity].
  - unfold indexFiles, bind, ret.
    pose proof (indexFiles_loop_consistent files w IH) as H.
    pose proof (indexFiles_loop_foreign_keys files w IH) as H'.
    destruct (indexFiles_loop openai files w) as [[[]|e] w1]; cbn [snd] in *;
      (split; [assumption|congruence]).
  - unfold search, bind, embeddings_create, throw.
    destruct (openai (requests w) [query]) as [[|q data]|]; exact IH.
Qed.

End IndexFiles.

(** The chunk texts that the search's join returns for a path are those of
    the chunk records of the path's file record. *)
Lemma joined_chunk_texts d p row :
  file_rows d p = [row] ->
  map Joined.chunk_text
      (filter (fun j => JsString.eqb (Joined.path j) p) (select_embeddings_join_files d))
  = map Embeddings.chunk_text (chunks_of d (Files.id row)).
Proof.
  intros Hrow. unfold select_embeddings_join_files, chunks_of.
  induction (embeddings d) as [|e es IH]; [reflexivity|].
  cbn [flat_map]. rewrite filter_app, map_app, IH. clear IH.
  cbn [filter].
  assert (H : filter (fun f => JsString.eqb (Files.path f) p)
                (filter (fun f => (Files.id f =? Embeddings.file_id e)%Z) (files d))
              = filter (fun f => (Files.id f =? Embeddings.file_id e)%Z) [row]).
  { rewrite <- Hrow. unfold file_rows.
    induction (files d) as [|f fs IHf]; [reflexivity|]. cbn [filter].
    destruct (Files.id f =? Embeddings.file_id e)%Z eqn:E1,
             (JsString.eqb (Files.path f) p) eqn:E2; cbn [filter];
      rewrite ?E1, ?E2, IHf; reflexivity. }
  set (mk := fun f : Files.row =>
              {| Joined.file_id := Embeddings.file_id e;
                 Joined.chunk_text := Embeddings.chunk_text e;
                 Joined.embedding := Embeddings.embedding e;
                 Joined.path := Files.path f;
                 Joined.content := Files.content f;
                 Joined.mtime := Files.mtime f |}).
  assert (Hm : forall l, map Joined.chunk_text
                 (filter (fun j => JsString.eqb (Joined.path j) p) (map mk l))
               = map (fun _ => Embeddings.chunk_text e)
                     (filter (fun f => JsString.eqb (Files.path f) p) l)).
  { induction l as [|f l IHl]; [reflexivity|]. cbn [map filter].
    change (Joined.path (mk f)) with (Files.path f).
    destruct (JsString.eqb (Files.path f) p); cbn [map]; now rewrite IHl. }
  rewrite Hm, H. cbn [filter].
  rewrite (Z.eqb_sym (Embeddings.file_id e)).
  now destruct (Files.id row =? Embeddings.file_id e)%Z.
Qed.

(** C1: after [indexFiles] completes, every path of the input has exactly
    one file record, that of the last file given for the path, and the
    chunk records joined to it are exactly the chunks of that file's
    content, numbered from 0; no chunk record is left without its file
    record. The store before the call may hold the path already. *)
Theorem indexFiles_replaces_path
    (openai : nat -> list jsstring -> option (list (list float)))
    (input : list IndexedFile.t) (w w' : World) (v : jsval) (p : jsstring) :
  consistent (db w) ->
  indexFiles openai input w = (Normal v, w') ->
  In p (map IndexedFile.path input) ->
  exists file row,
    latest input p = Some file
    /\ file_rows (db w') p = [row]
    /\ row_of file row
    /\ chunk_entries (db w') (Files.id row)
       = numbered 0 (chunkText (IndexedFile.content file) 500)
    /\ map Joined.chunk_text
           (filter (fun j => JsString.eqb (Joined.path j) p)
                   (select_embeddings_join_files (db w')))
       = chunkText (IndexedFile.content file) 500
    /\ (foreign_keys (db w) = true ->
        forall e, In e (embeddings (db w')) ->
          exists r, In r (files (db w')) /\ Files.id r = Embeddings.file_id e).
Proof.
  intros Hd Hrun Hp. unfold indexFiles, bind, ret in Hrun.
  destruct (indexFiles_loop openai input w) as [[[]|e] w1] eqn:E; [|discriminate].
  injection Hrun as _ <-.
  apply indexFiles_loop_normal in E as (Hd' & Hfk' & _ & Hlatest); [|assumption].
  destruct (latest_in input p Hp) as [file Hfile].
  destruct (Hlatest p file Hfile) as (row & Hrows & Hrow & Hent).
  destruct (latest_path input p file Hfile) as [<- _].
  exists file, row.
  split; [assumption|]. split; [assumption|]. split; [assumption|].
  split; [assumption|]. split.
  - rewrite (joined_chunk_texts _ _ row Hrows).
    rewrite <- (numbered_texts 0 (chunkText (IndexedFile.content file) 500)), <- Hent.
    unfold chunk_entries. now rewrite map_map.
  - intros Hfk e He. rewrite <- Hfk' in Hfk. apply (foreign_key _ Hd' Hfk) in He.
    apply in_map_iff in He as (r & Hr & Hin). now exists r.
Qed.

Lemma indexFiles_replaces_path_witness :
  let openai := fun (_ : nat) (input : list jsstring) =>
                  Some (map (fun _ => [1; 0]%float) input) in
  let file content :=
    {| IndexedFile.path := JsString.lit "a.txt"; IndexedFile.content := content;
       IndexedFile.mtime := 1000; IndexedFile.size := 5;
       IndexedFile.extension := JsString.lit ".txt" |} in
  let input := [file (JsString.lit "old"); file (JsString.lit "new")] in
  let w' := snd (indexFiles openai input initial_world) in
  exists row,
    file_rows (db w') (JsString.lit "a.txt") = [row]
    /\ map Embeddings.chunk_text (chunks_of (db w') (Files.id row))
       = [JsString.lit "new"].
Proof.
  intros openai file input w'.
  destruct (indexFiles_replaces_path openai input initial_world w' JsUndefined
              (JsString.lit "a.txt") consistent_empty_db)
    as (f & row & Hf & Hrows & _ & Hent & _).
  - reflexivity.
  - now left.
  - exists row. split; [exact Hrows|].
    apply (f_equal (map snd)) in Hent. unfold chunk_entries in Hent.
    rewrite map_map in Hent. cbn [snd] in Hent.
    transitivity (map snd (numbered 0 (chunkText (IndexedFile.content f) 500)));
      [exact Hent|].
    rewrite numbered_texts. injection Hf as <-. reflexivity.
Defined.

(** C5, as stated, fails on a list that names a path twice: the first
    file is indexed, then the second file with the same path replaces its
    record before the client rejects the request, and the first file is no
    longer committed. *)
Lemma indexFiles_failure_counterexample :
  let openai := fun (n : nat) (input : list jsstring) =>
                  match n with
                  | 0 => Some (map (fun _ => [1; 0]%float) input)
                  | _ => None
                  end in
  let file content :=
    {| IndexedFile.path := JsString.lit "a.txt"; IndexedFile.content := content;
       IndexedFile.mtime := 1000; IndexedFile.size := 5;
       IndexedFile.extension := JsString.lit ".txt" |} in
  let first := file (JsString.lit "one") in
  let second := file (JsString.lit "two") in
  exists w1 w2,
    indexFiles_loop openai [first] initial_world = (Normal tt, w1)
    /\ indexFile openai second w1 = (Throw EmbeddingError, w2)
    /\ indexFiles openai [first; second] initial_world = (Throw EmbeddingError, w2)
    /\ ~ committed (db w2) first.
Proof.
  intros openai file first second. eexists. eexists.
  split; [vm_compute; reflexivity|]. split; [vm_compute; reflexivity|].
  split; [vm_compute; reflexivity|].
  intros (row & Hrows & (_ & Hcontent & _) & _).
  vm_compute in Hrows. injection Hrows as <-.
  vm_compute in Hcontent. discriminate.
Qed.

(** C5 (amended): for a list of input files with pairwise distinct paths,
    if the embedding client rejects a request while file [k] is being
    indexed, the whole call fails with that error, every file before
    position [k] is fully committed, and the record and chunk records of
    the path of every file after position [k] are as they were before the
    call. *)
Theorem indexFiles_failure_is_per_file
    (openai : nat -> list jsstring -> option (list (list float)))
    (pre : list IndexedFile.t) (file : IndexedFile.t) (post : list IndexedFile.t)
    (w w1 w2 : World) :
  consistent (db w) ->
  NoDup (map IndexedFile.path (pre ++ file :: post)) ->
  indexFiles_loop openai pre w = (Normal tt, w1) ->
  indexFile openai file w1 = (Throw EmbeddingError, w2) ->
  indexFiles openai (pre ++ file :: post) w = (Throw EmbeddingError, w2)
  /\ (forall f, In f pre -> committed (db w2) f)
  /\ (forall f, In f post ->
        view (db w2) (IndexedFile.path f) = view (db w) (IndexedFile.path f)).
Proof.
  intros Hd Hnd Hpre Hfile.
  rewrite map_app in Hnd. cbn [map] in Hnd.
  apply NoDup_remove in Hnd as Hnd'. destruct Hnd' as [Hnd' Hk].
  pose proof (indexFiles_loop_normal openai pre w w1 Hd Hpre)
    as (Hd1 & _ & Hframe & Hlatest).
  pose proof (indexFile_spec openai file w1 _ w2 Hd1 Hfile) as (_ & _ & Hframe2 & _).
  split; [|split].
  - unfold indexFiles, bind. rewrite (indexFiles_loop_app openai pre w w1 _ Hpre).
    rewrite indexFiles_loop_cons, Hfile. reflexivity.
  - intros f Hf.
    assert (Hne : IndexedFile.path f <> IndexedFile.path file).
    { intros E. apply Hk. apply in_or_app. left. rewrite <- E. now apply in_map. }
    assert (Hl : latest pre (IndexedFile.path f) = Some f).
    { apply NoDup_app_remove_r in Hnd'. clear - Hnd' Hf.
      induction pre as [|g pre IH]; [contradiction|].
      cbn [map] in Hnd'. inversion_clear Hnd' as [|? ? Hg Hnd].
      cbn [latest]. destruct Hf as [->|Hf].
      - destruct (latest pre (IndexedFile.path f)) as [h|] eqn:E.
        + apply latest_path in E as [E Hin]. destruct Hg. rewrite <- E. now apply in_map.
        + now rewrite JsStringFacts.eqb_refl.
      - now rewrite (IH Hnd Hf). }
    pose proof (Hlatest _ _ Hl) as Hl'.
    apply committed_view. apply committed_view in Hl' as (row & chunks & Hview & Hrow & Hent).
    exists row, chunks. rewrite (Hframe2 _ Hne).
    split; [assumption|]. split; assumption.
  - intros f Hf.
    assert (Hin : In (IndexedFile.path f) (map IndexedFile.path post)) by now apply in_map.
    rewrite Hframe2, Hframe; [reflexivity| |].
    + intros Hp. exact (NoDup_app_disjoint _ _ _ Hnd' Hp Hin).
    + intros E. apply Hk. apply in_or_app. right. now rewrite <- E.
Qed.

Lemma indexFiles_failure_is_per_file_witness :
  let openai := fun (n : nat) (input : list jsstring) =>
                  match n with
                  | 0 => Some (map (fun _ => [1; 0]%float) input)
                  | _ => None
                  end in
  let file name :=
    {| IndexedFile.path := name; IndexedFile.content := JsString.lit "text";
       IndexedFile.mtime := 1000; IndexedFile.size := 4;
       IndexedFile.extension := JsString.lit ".txt" |} in
  let a := file (JsString.lit "a.txt") in
  let b := file (JsString.lit "b.txt") in
  let c := file (JsString.lit "c.txt") in
  let w2 := snd (indexFiles openai [a; b; c] initial_world) in
  indexFiles openai [a; b; c] initial_world = (Throw EmbeddingError, w2)
  /\ committed (db w2) a
  /\ view (db w2) (IndexedFile.path c) = view (db initial_world) (IndexedFile.path c).
Proof.
  intros openai file a b c w2.
  destruct (indexFiles_failure_is_per_file openai [a] b [c] initial_world
              (snd (indexFiles_loop openai [a] initial_world)) w2)
    as (H1 & H2 & H3).
  - exact consistent_empty_db.
  - repeat (constructor; [cbn; intuition discriminate|]). constructor.
  - vm_compute. reflexivity.
  - vm_compute. reflexivity.
  - split; [exact H1|]. split; [apply H2; now left|apply H3; now left].
Defined.

(** C10: the file's record is inserted before any embedding request for
    it. When [indexFiles] fails because the client rejects a request, the
    file in progress has its record in the store, joined to the chunk
    records of the [k] batches answered before ([k = 0]: none), and
    [getRecentFiles] lists the file whenever its modification time is after
    the cutoff. *)
Theorem indexFiles_record_before_embeddings
    (openai : nat -> list jsstring -> option (list (list float)))
    (input : list IndexedFile.t) (w w' : World) :
  consistent (db w) ->
  indexFiles openai input w = (Throw EmbeddingError, w') ->
  exists pre file post w1 row k,
    input = pre ++ file :: post
    /\ indexFiles_loop openai pre w = (Normal tt, w1)
    /\ indexFile openai file w1 = (Throw EmbeddingError, w')
    /\ requests w' = S (requests w1 + k)
    /\ batchSize * k < length (chunkText (IndexedFile.content file) 500)
    /\ file_rows (db w') (IndexedFile.path file) = [row]
    /\ row_of file row
    /\ chunk_entries (db w') (Files.id row)
       = numbered 0 (firstn (batchSize * k)
                            (chunkText (IndexedFile.content file) 500))
    /\ forall now days,
         (now - days * 86400 * 1000 < IndexedFile.mtime file)%Z ->
         In {| RecentFile.path := IndexedFile.path file;
               RecentFile.mtime := IndexedFile.mtime file |}
            (getRecentFiles now days (db w')).
Proof.
  intros Hd Hrun. unfold indexFiles, bind in Hrun.
  destruct (indexFiles_loop openai input w) as [[[]|e] w0] eqn:E; [discriminate|].
  injection Hrun as -> ->.
  apply indexFiles_loop_throw in E as (pre & file & post & w1 & -> & Hpre & Hfile).
  pose proof (indexFiles_loop_normal openai pre w w1 Hd Hpre) as (Hd1 & _).
  pose proof (indexFile_spec openai file w1 _ w' Hd1 Hfile)
    as (_ & _ & _ & row & chunks & n & Hview & Hrow & Hent & Hn & k & Hk & ->).
  apply view_single in Hview as [Hrows Hchunks].
  exists pre, file, post, w1, row, k. unfold chunk_entries. rewrite Hchunks.
  split; [reflexivity|]. repeat (split; [assumption|]).
  intros now days Hcut.
  apply getRecentFiles_in.
  exists row. destruct Hrow as (Hp & _ & Hm & _). unfold recent_of. rewrite Hp, Hm.
  split; [|split; [lia|reflexivity]].
  assert (Hin : In row (file_rows (db w') (IndexedFile.path file)))
    by (rewrite Hrows; now left).
  now apply filter_In in Hin as [Hin _].
Qed.

Lemma indexFiles_record_before_embeddings_witness :
  let openai := fun (_ : nat) (_ : list jsstring) => @None (list (list float)) in
  let input :=
    [{| IndexedFile.path := JsString.lit "a.txt";
        IndexedFile.content := JsString.lit "text";
        IndexedFile.mtime := 1000; IndexedFile.size := 4;
        IndexedFile.extension := JsString.lit ".txt" |}] in
  let w' := snd (indexFiles openai input initial_world) in
  In {| RecentFile.path := JsString.lit "a.txt"; RecentFile.mtime := 1000 |}
     (getRecentFiles 2000 1 (db w')).
Proof.
  intros openai input w'.
  destruct (indexFiles_record_before_embeddings openai input initial_world w'
              consistent_empty_db eq_refl)
    as (pre & file & post & w1 & row & k & Hin & _ & _ & _ & _ & _ & _ & _ & Hrecent).
  assert (Hfile : file = {| IndexedFile.path := JsString.lit "a.txt";
                            IndexedFile.content := JsString.lit "text";
                            IndexedFile.mtime := 1000; IndexedFile.size := 4;
                            IndexedFile.extension := JsString.lit ".txt" |}).
  { destruct pre as [|f [|g pre]];
      [now injection Hin|discriminate Hin|discriminate Hin]. }
  subst file. apply (Hrecent 2000%Z 1%Z). reflexivity.
Defined.

(* ################################################################# *)
(** * Further properties of the code *)

(* ================================================================= *)
(** ** The chunker: what the chunks look like *)

Section TrimFacts.
Import JsString JsStringFacts.

Lemma trimStart_head s :
  trimStart s = [] \/ exists c r, trimStart s = c :: r /\ isWhiteSpace c = false.
Proof.
  induction s as [|c s IH]; [now left|].
  simpl. destruct (isWhiteSpace c) eqn:E; [exact IH|].
  right. now exists c, s.
Qed.

Lemma trimStart_length s : length (trimStart s) <= length s.
Proof.
  induction s as [|c s IH]; [reflexivity|].
  simpl. destruct (isWhiteSpace c); simpl; lia.
Qed.

Lemma trimStart_snoc r c :
  isWhiteSpace c = false -> exists r', trimStart (r ++ [c]) = r' ++ [c].
Proof.
  intros Hc. induction r as [|d r IH].
  - exists []. simpl. now rewrite Hc.
  - simpl. destruct (isWhiteSpace d); [exact IH|]. now exists (d :: r).
Qed.

Lemma trimEnd_length s : length (trimEnd s) <= length s.
Proof.
  unfold trimEnd. rewrite length_rev, <- (length_rev s). apply trimStart_length.
Qed.

Lemma trimEnd_last s :
  trimEnd s = [] \/ exists r c, trimEnd s = r ++ [c] /\ isWhiteSpace c = false.
Proof.
  unfold trimEnd. destruct (trimStart_head (rev s)) as [->|(c & r & -> & Hc)].
  - now left.
  - right. exists (rev r), c. now split.
Qed.

Lemma trim_length s : length (trim s) <= length s.
Proof.
  unfold trim. pose proof (trimStart_length (trimEnd s)).
  pose proof (trimEnd_length s). lia.
Qed.

(** The separator that ends the buffer is white space: [trim] drops it. *)
(** A trimmed string is empty, or begins and ends with a character that
    is not white space. *)
Lemma trim_clean s : trim s = [] \/ no_edge_space (trim s) = true.
Proof.
  unfold trim. destruct (trimEnd_last s) as [->|(r & c & -> & Hc)]; [now left|].
  right. destruct (trimStart_snoc r c Hc) as [r' Hr'].
  destruct (trimStart_head (r ++ [c])) as [E|(d & t & E & Hd)].
  - rewrite E in Hr'. now destruct r'.
  - rewrite E. unfold no_edge_space. rewrite Hd. cbn [negb andb].
    rewrite <- E, Hr', last_last. now rewrite Hc.
Qed.

Lemma trim_non_space_nil s : non_space s = [] -> trim s = [].
Proof.
  intros H. destruct (trim_clean s) as [E|E]; [exact E|].
  rewrite <- non_space_trim in H.
  destruct (trim s) as [|c t]; [reflexivity|].
  unfold no_edge_space in E. apply andb_prop in E as [E _].
  unfold non_space in H. cbn [filter] in H. rewrite E in H. discriminate.
Qed.

Lemma trim_non_space s : non_space s <> [] -> trim s <> [].
Proof.
  intros H E. apply H. rewrite <- non_space_trim, E. reflexivity.
Qed.

End TrimFacts.

Section ChunkShape.
Import JsString JsStringFacts.

(** Every chunk that leaves the loop is a trimmed buffer. *)
Lemma chunkText_loop_Forall (P : jsstring -> Prop) B (lines : list jsstring) :
  (forall s, P (trim s)) ->
  forall (chunks : list jsstring) (cur : jsstring),
  Forall P chunks ->
  Forall P (fst (fold_left (chunkText_step B) lines (chunks, cur))).
Proof.
  intros HP. induction lines as [|l lines IH]; intros chunks cur Hc; [exact Hc|].
  cbn [fold_left]. unfold chunkText_step at 2.
  destruct ((_ >? B)%Z && truthy cur); apply IH; [|exact Hc].
  apply Forall_app. split; [exact Hc|]. constructor; [apply HP|constructor].
Qed.

Lemma buffer_within_trim M cur :
  buffer_within M cur -> (0 <= M)%Z -> (Z.of_nat (length (trim cur)) <= M)%Z.
Proof.
  intros [->|(x & -> & Hx)] HM; [exact HM|].
  rewrite trim_snoc_LF. pose proof (trim_length x). lia.
Qed.

Lemma chunkText_loop_within B M (lines : list jsstring) :
  (B <= M)%Z -> (0 <= M)%Z ->
  Forall (fun l => (Z.of_nat (length l) <= M)%Z) lines ->
  forall (chunks : list jsstring) (cur : jsstring),
  Forall (fun c => (Z.of_nat (length c) <= M)%Z) chunks ->
  buffer_within M cur ->
  let '(chunks', cur') := fold_left (chunkText_step B) lines (chunks, cur) in
  Forall (fun c => (Z.of_nat (length c) <= M)%Z) chunks' /\ buffer_within M cur'.
Proof.
  intros HB HM. induction 1 as [|l lines Hl _ IH]; intros chunks cur Hc Hcur.
  - now split.
  - cbn [fold_left]. unfold chunkText_step at 2.
    destruct ((_ >? B)%Z && truthy cur) eqn:E.
    + apply IH.
      * apply Forall_app. split; [exact Hc|].
        constructor; [now apply buffer_within_trim|constructor].
      * right. now exists l.
    + apply IH; [exact Hc|]. right.
      destruct Hcur as [->|(x & -> & Hx)]; [now exists l|].
      exists (x ++ [LF] ++ l). split; [now rewrite <- !app_assoc|].
      apply andb_false_iff in E as [E|E].
      * rewrite Z.gtb_ltb in E. apply Z.ltb_ge in E.
        rewrite !length_app in *. cbn [length] in *. lia.
      * now destruct x.
Qed.

(** As long as the text read so far and the next line fit the bound, the
    loop only appends. *)
Lemma chunkText_loop_fits B (lines : list jsstring) :
  forall (chunks : list jsstring) (cur : jsstring),
  (lines = [] \/ (Z.of_nat (length (cur ++ join lines)) <= B)%Z) ->
  fold_left (chunkText_step B) lines (chunks, cur)
  = (chunks, cur ++ flat_map (fun l => l ++ [LF]) lines).
Proof.
  induction lines as [|l lines IH]; intros chunks cur H.
  - simpl. now rewrite app_nil_r.
  - destruct H as [H|H]; [discriminate|].
    cbn [fold_left]. unfold chunkText_step at 2.
    rewrite join_cons, !length_app in H.
    replace ((_ >? B)%Z) with false by (symmetry; rewrite Z.gtb_ltb; apply Z.ltb_ge; lia).
    cbn [andb]. rewrite IH.
    + cbn [flat_map]. now rewrite <- !app_assoc.
    + destruct lines as [|l' lines]; [now left|right].
      rewrite join_cons, !length_app. cbn [flat_map length app] in *.
      rewrite !length_app in H. cbn [length] in *. lia.
Qed.

Lemma flat_map_snoc_LF (lines : list jsstring) :
  lines <> [] -> flat_map (fun l => l ++ [LF]) lines = join lines ++ [LF].
Proof.
  destruct lines as [|l lines]; [congruence|]. intros _.
  revert l. induction lines as [|l' lines IH]; intros l.
  - cbn [flat_map join]. now rewrite app_nil_r.
  - change (flat_map (fun l => l ++ [LF]) (l :: l' :: lines))
      with ((l ++ [LF]) ++ flat_map (fun l => l ++ [LF]) (l' :: lines)).
    rewrite IH.
    change (join (l :: l' :: lines)) with (l ++ LF :: join (l' :: lines)).
    now rewrite <- !app_assoc.
Qed.

(** The buffer of the loop on lines that all hold a character that is not
    white space: empty, or with such a character. *)
Lemma chunkText_loop_inhabited B (lines : list jsstring) :
  Forall (fun l => non_space l <> []) lines ->
  forall (chunks : list jsstring) (cur : jsstring),
  Forall (fun c => c <> []) chunks ->
  (cur = [] \/ non_space cur <> []) ->
  let '(chunks', cur') := fold_left (chunkText_step B) lines (chunks, cur) in
  Forall (fun c => c <> []) chunks' /\ (cur' = [] \/ non_space cur' <> []).
Proof.
  induction 1 as [|l lines Hl _ IH]; intros chunks cur Hc Hcur; [now split|].
  assert (Hadd : forall cur0, non_space (cur0 ++ l ++ [LF]) <> []).
  { intros cur0 E. rewrite !non_space_app in E.
    apply app_eq_nil in E as [_ E]. now apply app_eq_nil in E as [E _]. }
  cbn [fold_left]. unfold chunkText_step at 2.
  destruct ((_ >? B)%Z && truthy cur) eqn:E.
  - apply IH; [|right; apply Hadd].
    apply Forall_app. split; [exact Hc|]. constructor; [|constructor].
    apply andb_prop in E as [_ E].
    destruct Hcur as [->|Hcur]; [discriminate|]. now apply trim_non_space.
  - apply IH; [exact Hc|right; apply Hadd].
Qed.

End ChunkShape.

(** X1: Every chunk is trimmed: it is empty, or begins and ends with a
    character that is not white space. *)
Theorem chunkText_chunks_trimmed (T : jsstring) (B : Z) :
  Forall (fun c => c = [] \/ no_edge_space c = true) (chunkText T B).
Proof.
  unfold chunkText.
  pose proof (chunkText_loop_Forall (fun c => c = [] \/ no_edge_space c = true) B
                (JsString.split T) trim_clean [] [] (Forall_nil _)) as H.
  destruct (fold_left _ (JsString.split T) _) as [chunks cur]. cbn [fst] in H.
  destruct (JsString.truthy (JsString.trim cur)); [|exact H].
  apply Forall_app. split; [exact H|]. constructor; [apply trim_clean|constructor].
Qed.

(** X2: The size bound: when no line is longer than [M] and [M] is at least
    the bound, no chunk is longer than [M]; so chunks stay within the bound
    when the lines do. *)
Theorem chunkText_size_bound (T : jsstring) (B M : Z) :
  (B <= M)%Z ->
  Forall (fun l => (Z.of_nat (length l) <= M)%Z) (JsString.split T) ->
  Forall (fun c => (Z.of_nat (length c) <= M)%Z) (chunkText T B).
Proof.
  intros HB Hl.
  assert (HM : (0 <= M)%Z).
  { destruct (JsString.split T) as [|l ls] eqn:E;
      [now destruct (JsStringFacts.split_not_nil T)|].
    inversion_clear Hl. lia. }
  unfold chunkText.
  pose proof (chunkText_loop_within B M (JsString.split T) HB HM Hl [] []
                (Forall_nil _) (or_introl eq_refl)) as H.
  destruct (fold_left _ (JsString.split T) _) as [chunks cur].
  destruct H as [Hc Hcur].
  destruct (JsString.truthy (JsString.trim cur)); [|exact Hc].
  apply Forall_app. split; [exact Hc|].
  constructor; [now apply buffer_within_trim|constructor].
Qed.

Lemma chunkText_size_bound_witness :
  let T := JsString.lit "ab" ++ LF :: JsString.lit "cd" ++ LF :: JsString.lit "e" in
  chunkText T 4 = [JsString.lit "ab"; JsString.lit "cd" ++ LF :: JsString.lit "e"]
  /\ Forall (fun c => (Z.of_nat (length c) <= 4)%Z) (chunkText T 4).
Proof.
  intros T. split; [reflexivity|].
  apply (chunkText_size_bound T 4 4); [lia|].
  vm_compute. repeat constructor; discriminate.
Defined.

(** A text that fits the bound is never flushed inside the loop: at its end
    the buffer holds the whole text. *)
Lemma chunkText_loop_short (T : jsstring) (B : Z) :
  (Z.of_nat (length T) <= B)%Z ->
  fold_left (chunkText_step B) (JsString.split T) ([], []) = ([], T ++ [LF]).
Proof.
  intros H.
  rewrite chunkText_loop_fits
    by (right; now rewrite JsStringFacts.join_split).
  cbn [app].
  rewrite flat_map_snoc_LF by apply JsStringFacts.split_not_nil.
  now rewrite JsStringFacts.join_split.
Qed.

(** X3: A text that fits the bound is one chunk, the trimmed text; a text of
    white space only, the empty text among them, gives no chunk. *)
Theorem chunkText_short_text (T : jsstring) (B : Z) :
  (Z.of_nat (length T) <= B)%Z ->
  chunkText T B
  = if JsString.truthy (JsString.trim T) then [JsString.trim T] else [].
Proof.
  intros H. unfold chunkText.
  rewrite (chunkText_loop_short T B H), trim_snoc_LF.
  now destruct (JsString.truthy (JsString.trim T)).
Qed.

Lemma chunkText_short_text_witness :
  chunkText (JsString.lit "line1" ++ LF :: JsString.lit "line2" ++ [LF]) 500
  = [JsString.lit "line1" ++ LF :: JsString.lit "line2"]
  /\ chunkText [] 500 = [].
Proof.
  split.
  - rewrite chunkText_short_text by (vm_compute; discriminate). reflexivity.
  - rewrite chunkText_short_text by (vm_compute; discriminate). reflexivity.
Defined.

(** X4: No chunk is empty when every line but the last holds a character
    that is not white space. *)
Theorem chunkText_no_empty_chunk (T : jsstring) (B : Z) :
  Forall (fun l => non_space l <> []) (removelast (JsString.split T)) ->
  Forall (fun c => c <> []) (chunkText T B).
Proof.
  intros H. unfold chunkText.
  rewrite (app_removelast_last [] (JsStringFacts.split_not_nil T)).
  rewrite fold_left_app.
  pose proof (chunkText_loop_inhabited B _ H [] [] (Forall_nil _) (or_introl eq_refl))
    as Hloop.
  destruct (fold_left _ (removelast (JsString.split T)) _) as [chunks cur].
  destruct Hloop as [Hc Hcur].
  cbn [fold_left]. unfold chunkText_step.
  assert (Hfinal : forall chunks0 cur0,
            Forall (fun c : jsstring => c <> []) chunks0 ->
            Forall (fun c : jsstring => c <> [])
              (if JsString.truthy (JsString.trim cur0)
               then chunks0 ++ [JsString.trim cur0] else chunks0)).
  { intros chunks0 cur0 H0. destruct (JsString.trim cur0) eqn:E; [exact H0|].
    apply Forall_app. split; [exact H0|]. constructor; [discriminate|constructor]. }
  destruct ((_ >? B)%Z && JsString.truthy cur) eqn:E; apply Hfinal; [|exact Hc].
  apply Forall_app. split; [exact Hc|]. constructor; [|constructor].
  apply andb_prop in E as [_ E].
  destruct Hcur as [->|Hcur]; [discriminate|]. now apply trim_non_space.
Qed.

Lemma chunkText_no_empty_chunk_witness :
  let T := JsString.lit "ab" ++ LF :: JsString.lit "cd" ++ [LF] in
  Forall (fun c => c <> []) (chunkText T 2).
Proof.
  intros T. apply chunkText_no_empty_chunk.
  vm_compute. repeat constructor; discriminate.
Defined.

(** X5: A line longer than the bound is never split and never shares a
    chunk: when it holds a character that is not white space, its trimmed
    text is one chunk, after the chunks of the lines before it and before
    the chunks of the lines that follow. *)
Theorem chunkText_long_line_own_chunk (T : jsstring) (B : Z)
    (pre : list jsstring) (l : jsstring) (post : list jsstring) :
  JsString.split T = pre ++ l :: post ->
  (Z.of_nat (length l) > B)%Z ->
  non_space l <> [] ->
  exists before,
    chunkText T B = before ++ JsString.trim l :: chunkLines post B
    /\ filter JsString.truthy before = filter JsString.truthy (chunkLines pre B).
Proof.
  intros Hsplit Hl Hns.
  rewrite (chunkText_long_line T B pre l post Hsplit Hl).
  change (chunkLines pre B)
    with (let '(chunks, cur) := fold_left (chunkText_step B) pre ([], []) in
          if JsString.truthy (JsString.trim cur)
          then chunks ++ [JsString.trim cur] else chunks).
  destruct (fold_left (chunkText_step B) pre ([], [])) as [chunks cur].
  exists (chunks ++ flushed cur). split.
  - rewrite trim_snoc_LF. f_equal.
    destruct (JsString.trim l) eqn:E; [now destruct (trim_non_space l Hns)|].
    now destruct post.
  - unfold flushed. destruct cur as [|c cur]; [cbn; now rewrite app_nil_r|].
    cbn [JsString.truthy].
    destruct (JsString.trim (c :: cur)) eqn:E; cbn [JsString.truthy].
    + rewrite filter_app. cbn [filter JsString.truthy]. now rewrite app_nil_r.
    + reflexivity.
Qed.

Lemma chunkText_long_line_own_chunk_witness :
  let T := JsString.lit "ab" ++ LF :: JsString.lit "long line" ++ LF :: JsString.lit "cd" in
  exists before,
    chunkText T 4 = before ++ JsString.lit "long line" :: [JsString.lit "cd"]
    /\ filter JsString.truthy before = [JsString.lit "ab"].
Proof.
  intros T.
  destruct (chunkText_long_line_own_chunk T 4 [JsString.lit "ab"]
              (JsString.lit "long line") [JsString.lit "cd"])
    as (before & H1 & H2).
  - reflexivity.
  - reflexivity.
  - vm_compute. discriminate.
  - exists before. split; [exact H1|exact H2].
Defined.

(* ================================================================= *)
(** ** Cosine similarity: symmetry and NaN components *)

Section CosineSymmetry.
Import Ieee IeeeFacts.

Lemma float_mul_comm (x y : float) : (x * y = y * x)%float.
Proof.
  apply Prim2SF_inj. rewrite !mul_spec. unfold SF64mul, SFmul.
  destruct (Prim2SF x) as [s|s| |s m e], (Prim2SF y) as [s'|s'| |s' m' e'];
    try reflexivity; rewrite (xorb_comm s s'); try reflexivity.
  now rewrite (Pos.mul_comm m m'), (Z.add_comm e e').
Qed.

Lemma mul_nan_l x : (nan * x)%float = nan.
Proof. now rewrite float_mul_comm, mul_nan_r. Qed.

(** Exchanging the vectors exchanges the two norms and keeps the dot
    product. *)
Lemma cosine_loop_swap a b (idx : list nat) : forall d na nb,
  fold_left (cosine_step b a) idx (d, nb, na)
  = (let '(d', na', nb') := fold_left (cosine_step a b) idx (d, na, nb) in
     (d', nb', na')).
Proof.
  induction idx as [|i idx IH]; intros d na nb; [reflexivity|].
  cbn [fold_left]. unfold cosine_step at 2 4.
  rewrite (float_mul_comm (ToNumber (nth_error b i)) (ToNumber (nth_error a i))).
  apply IH.
Qed.

(** A NaN that the loop reads at index [i] makes the dot product NaN. *)
Lemma cosine_step_nan a b d na nb i :
  ToNumber (nth_error a i) = nan \/ ToNumber (nth_error b i) = nan ->
  fst (fst (cosine_step a b (d, na, nb) i)) = nan.
Proof.
  unfold cosine_step. cbn [fst]. intros [->| ->].
  - now rewrite mul_nan_l, add_nan_r.
  - now rewrite mul_nan_r, add_nan_r.
Qed.

End CosineSymmetry.

(** X6: The similarity of two vectors of the same length does not depend on
    their order. *)
Theorem cosineSimilarity_symmetric (a b : list float) :
  length a = length b -> cosineSimilarity a b = cosineSimilarity b a.
Proof.
  intros H. unfold cosineSimilarity. rewrite <- H.
  rewrite (cosine_loop_swap a b (seq 0 (length a)) 0 0 0).
  destruct (fold_left (cosine_step a b) _ _) as [[d na] nb].
  now rewrite (float_mul_comm (sqrt nb) (sqrt na)).
Qed.

Lemma cosineSimilarity_symmetric_witness :
  cosineSimilarity [1; 2]%float [3; 4]%float
  = cosineSimilarity [3; 4]%float [1; 2]%float.
Proof. apply cosineSimilarity_symmetric. reflexivity. Defined.

(** X7: A NaN component is never filtered: when either vector holds NaN at
    an index below the length of the first, the similarity is NaN. *)
Theorem cosineSimilarity_nan_component (a b : list float) (i : nat) :
  i < length a ->
  nth_error a i = Some nan \/ nth_error b i = Some nan ->
  cosineSimilarity a b = nan.
Proof.
  intros Hi Hnan. unfold cosineSimilarity.
  replace (length a) with (i + S (length a - S i)) by lia.
  rewrite seq_app, fold_left_app. cbn [seq fold_left].
  destruct (fold_left _ (seq 0 i) _) as [[d na] nb].
  pose proof (cosine_step_nan a b d na nb (0 + i)) as Hstep.
  destruct (cosine_step a b (d, na, nb) (0 + i)) as [[d1 na1] nb1].
  cbn [fst] in Hstep. rewrite Hstep.
  - match goal with |- context [fold_left ?f ?l (nan, ?x, ?y)] =>
      pose proof (cosine_loop_nan a b l x y) as Hn;
      destruct (fold_left f l (nan, x, y)) as [[d' na'] nb'] end.
    cbn [fst] in Hn. subst d'. apply IeeeFacts.div_nan_l.
  - cbn [Nat.add]. destruct Hnan as [-> | ->]; [now left|now right].
Qed.

Lemma cosineSimilarity_nan_component_witness :
  cosineSimilarity [1; 2]%float [3; nan]%float = nan.
Proof.
  apply (cosineSimilarity_nan_component _ _ 1); [cbn; lia|now right].
Defined.

(* ================================================================= *)
(** ** Indexing: requests, batches and rowids *)

Section IndexingCounts.
Variable openai : nat -> list jsstring -> option (list (list float)).

Lemma batches_0 : batches 0 = 0.
Proof. reflexivity. Qed.

Lemma batches_step n : 0 < n -> batches n = S (batches (n - batchSize)).
Proof.
  intros Hn. unfold batches, batchSize. cbn [Nat.sub].
  destruct (Nat.le_gt_cases 20 n) as [H|H].
  - replace (n + 19) with ((n - 20 + 19) + 1 * 20) by lia.
    rewrite Nat.div_add by discriminate. lia.
  - replace (n - 20) with 0 by lia. cbn [Nat.add].
    rewrite (Nat.div_small 19 20) by lia.
    symmetry. apply (Nat.div_unique (n + 19) 20 1 (n - 1)); lia.
Qed.

(** Storing vectors sends no request and leaves [files] and its rowid
    counter alone. *)
Lemma storeEmbeddings_static fileId i data rest : forall j w r w',
  storeEmbeddings fileId i j rest data w = (r, w') ->
  requests w' = requests w
  /\ files (db w') = files (db w)
  /\ sqlite_sequence (db w') = sqlite_sequence (db w).
Proof.
  induction rest as [|text rest IH]; intros j w r w' Hrun.
  - now injection Hrun as <- <-.
  - cbn [storeEmbeddings] in Hrun.
    destruct (nth_error data j) as [embedding|]; [|now injection Hrun as <- <-].
    unfold bind, insertEmbedding, insertEmbedding_run in Hrun.
    destruct (negb _ || existsb _ _); [|now injection Hrun as <- <-].
    apply IH in Hrun as (H1 & H2 & H3). now split.
Qed.

Lemma embedBatches_static fileId chunks : forall fuel i w r w',
  embedBatches openai fuel fileId chunks i w = (r, w') ->
  files (db w') = files (db w)
  /\ sqlite_sequence (db w') = sqlite_sequence (db w).
Proof.
  induction fuel as [|fuel IH]; intros i w r w' Hrun.
  - now injection Hrun as <- <-.
  - cbn [embedBatches] in Hrun.
    destruct (i <? length chunks); [|now injection Hrun as <- <-].
    unfold bind at 1, embeddings_create in Hrun.
    destruct (openai (requests w) _) as [data|]; [|now injection Hrun as <- <-].
    unfold bind in Hrun.
    destruct (storeEmbeddings fileId i 0 _ data _) as [r1 w2] eqn:Estore.
    apply storeEmbeddings_static in Estore as (_ & H2 & H3). cbn [db] in H2, H3.
    destruct r1 as [[]|e1].
    + apply IH in Hrun as (H4 & H5). split; congruence.
    + injection Hrun as <- <-. now split.
Qed.

(** A completed batch loop has sent one request per batch. *)
Lemma embedBatches_requests fileId chunks : forall fuel i w w',
  length chunks <= i + fuel ->
  embedBatches openai fuel fileId chunks i w = (Normal tt, w') ->
  requests w' = requests w + batches (length chunks - i).
Proof.
  induction fuel as [|fuel IH]; intros i w w' Hfuel Hrun.
  - injection Hrun as <-. replace (length chunks - i) with 0 by lia.
    rewrite batches_0. lia.
  - cbn [embedBatches] in Hrun. destruct (Nat.ltb_spec i (length chunks)) as [Hi|Hi].
    2:{ injection Hrun as <-. replace (length chunks - i) with 0 by lia.
        rewrite batches_0. lia. }
    unfold bind at 1, embeddings_create in Hrun.
    destruct (openai (requests w) _) as [data|]; [|discriminate].
    unfold bind in Hrun.
    destruct (storeEmbeddings fileId i 0 _ data _) as [r1 w2] eqn:Estore.
    apply storeEmbeddings_static in Estore as (H1 & _).
    destruct r1 as [[]|e1]; [|discriminate].
    apply IH in Hrun; [|unfold batchSize in *; lia].
    rewrite Hrun, H1. cbn [requests].
    rewrite (batches_step (length chunks - i)) by lia.
    replace (length chunks - i - batchSize) with (length chunks - (i + batchSize)) by lia.
    lia.
Qed.

Lemma max_rowid_nonneg rows : (0 <= max_rowid rows)%Z.
Proof. induction rows as [|x rows IH]; simpl; lia. Qed.

Lemma max_rowid_filter (f : Files.row -> bool) rows :
  (max_rowid (filter f rows) <= max_rowid rows)%Z.
Proof.
  induction rows as [|x rows IH]; simpl; [lia|]. destruct (f x); simpl; lia.
Qed.

Lemma max_rowid_snoc rows (x : Files.row) :
  max_rowid (rows ++ [x]) = Z.max (max_rowid rows) (Z.max (Files.id x) 0).
Proof. induction rows as [|y rows IH]; simpl; [lia|]. rewrite IH. lia. Qed.

(** AUTOINCREMENT: the insert takes the rowid after the largest there ever
    was. *)
Lemma insertFile_rowid_bound d file :
  rowid_bound (fst (insertFile_run d file)) = (rowid_bound d + 1)%Z.
Proof.
  unfold rowid_bound at 1, insertFile_run. cbn [fst files sqlite_sequence].
  rewrite max_rowid_snoc. cbn [file_row Files.id].
  pose proof (max_rowid_filter
                (fun r => negb (JsString.eqb (Files.path r) (IndexedFile.path file)))
                (files d)).
  pose proof (max_rowid_nonneg (files d)).
  unfold rowid_bound. lia.
Qed.

(** What one iteration of the loop over the files does to [files]: the
    statement of [insertFile] alone writes it. *)
Lemma indexFile_files file w r w' :
  indexFile openai file w = (r, w') ->
  files (db w') = files (fst (insertFile_run (db w) file))
  /\ rowid_bound (db w') = (rowid_bound (db w) + 1)%Z.
Proof.
  unfold indexFile, bind, insertFile. intros Hrun.
  pose proof (insertFile_rowid_bound (db w) file) as Hb.
  destruct (insertFile_run (db w) file) as [d1 rowid].
  apply embedBatches_static in Hrun as [Hf Hs]. cbn [db fst] in *.
  split; [exact Hf|]. rewrite <- Hb. unfold rowid_bound. now rewrite Hf, Hs.
Qed.

Lemma indexFile_requests file w w' :
  indexFile openai file w = (Normal tt, w') ->
  requests w' = requests w + batches (length (chunkText (IndexedFile.content file) 500)).
Proof.
  unfold indexFile, bind, insertFile. intros Hrun.
  destruct (insertFile_run (db w) file) as [d1 rowid].
  apply embedBatches_requests in Hrun; [|lia].
  now rewrite Nat.sub_0_r in Hrun.
Qed.

(** After a completed loop, a record is an old one of a path that was not
    given, or carries a rowid that did not exist before. *)
Lemma indexFiles_loop_rowids input : forall w w',
  indexFiles_loop openai input w = (Normal tt, w') ->
  rowid_bound (db w') = (rowid_bound (db w) + Z.of_nat (length input))%Z
  /\ forall row, In row (files (db w')) ->
       (In row (files (db w)) /\ ~ In (Files.path row) (map IndexedFile.path input))
       \/ (rowid_bound (db w) < Files.id row)%Z.
Proof.
  induction input as [|file input IH]; intros w w' Hrun.
  - injection Hrun as <-. split; [cbn [length]; lia|]. intros row Hrow. left.
    split; [exact Hrow|intros []].
  - rewrite indexFiles_loop_cons in Hrun.
    destruct (indexFile openai file w) as [[[]|e] w1] eqn:E; [|discriminate].
    apply indexFile_files in E as [Hf Hb].
    apply IH in Hrun as [Hb' Hrows].
    split; [rewrite Hb', Hb; cbn [length]; lia|].
    intros row Hrow. destruct (Hrows row Hrow) as [[Hin Hp]|Hid]; [|right; lia].
    rewrite Hf in Hin. unfold insertFile_run in Hin. cbn [fst files] in Hin.
    apply in_app_or in Hin as [Hin|[<-|[]]].
    + left. apply filter_In in Hin as [Hin Hne].
      apply negb_true_iff, JsStringFacts.eqb_neq in Hne.
      split; [exact Hin|]. cbn [map]. intros [H|H]; [congruence|contradiction].
    + right. cbn [file_row Files.id]. lia.
Qed.

Lemma indexFiles_loop_requests input : forall w w',
  indexFiles_loop openai input w = (Normal tt, w') ->
  requests w' = requests w
    + list_sum (map (fun f => batches (length (chunkText (IndexedFile.content f) 500)))
                    input).
Proof.
  induction input as [|file input IH]; intros w w' Hrun.
  - injection Hrun as <-. cbn. lia.
  - rewrite indexFiles_loop_cons in Hrun.
    destruct (indexFile openai file w) as [[[]|e] w1] eqn:E; [|discriminate].
    apply indexFile_requests in E. apply IH in Hrun.
    rewrite Hrun, E. cbn [map]. unfold list_sum. cbn [fold_right]. lia.
Qed.

(** Whatever way the loop ends, a path that is not in the list keeps its
    record and its chunk records. *)
Lemma indexFiles_loop_frame input : forall w r w',
  consistent (db w) ->
  indexFiles_loop openai input w = (r, w') ->
  forall q, ~ In q (map IndexedFile.path input) -> view (db w') q = view (db w) q.
Proof.
  induction input as [|file input IH]; intros w r w' Hd Hrun q Hq.
  - now injection Hrun as <- <-.
  - rewrite indexFiles_loop_cons in Hrun.
    destruct (indexFile openai file w) as [r1 w1] eqn:E.
    apply indexFile_spec in E as (Hd1 & _ & Hframe & _); [|exact Hd].
    assert (H1 : view (db w1) q = view (db w) q)
      by (apply Hframe; intros ->; apply Hq; now left).
    destruct r1 as [[]|e].
    + rewrite <- H1. apply (IH w1 r w' Hd1 Hrun). intros H. apply Hq. now right.
    + now injection Hrun as <- <-.
Qed.

End IndexingCounts.

Section BatchSizes.
Variables openai openai' : nat -> list jsstring -> option (list (list float)).
Hypothesis same_answers :
  forall n batch, 1 <= length batch <= batchSize -> openai n batch = openai' n batch.

Lemma embedBatches_batch_sizes fileId chunks : forall fuel i w,
  embedBatches openai fuel fileId chunks i w
  = embedBatches openai' fuel fileId chunks i w.
Proof.
  induction fuel as [|fuel IH]; intros i w; [reflexivity|].
  cbn [embedBatches]. destruct (Nat.ltb_spec i (length chunks)) as [Hi|Hi]; [|reflexivity].
  unfold bind, embeddings_create.
  rewrite same_answers.
  - destruct (openai' (requests w) _) as [data|]; [|reflexivity].
    destruct (storeEmbeddings fileId i 0 _ data _) as [[[]|e] w2];
      [apply IH|reflexivity].
  - rewrite Array_slice_batch by lia.
    rewrite length_firstn, length_skipn. unfold batchSize. lia.
Qed.

Lemma indexFiles_loop_batch_sizes input : forall w,
  indexFiles_loop openai input w = indexFiles_loop openai' input w.
Proof.
  induction input as [|file input IH]; intros w; [reflexivity|].
  cbn [indexFiles_loop]. unfold bind at 1 2.
  assert (H : indexFile openai file w = indexFile openai' file w).
  { unfold indexFile, bind, insertFile.
    destruct (insertFile_run (db w) file) as [d1 rowid].
    apply embedBatches_batch_sizes. }
  rewrite H. destruct (indexFile openai' file w) as [[[]|e] w1]; [apply IH|reflexivity].
Qed.

End BatchSizes.

(** X8: [indexFiles] leaves every path that is not in its input alone,
    whether it completes or fails: the record of such a path and the chunk
    records joined to it are the same before and after. *)
Theorem indexFiles_touches_given_paths_only
    (openai : nat -> list jsstring -> option (list (list float)))
    (input : list IndexedFile.t) (w w' : World) (r : completion jsval) (p : jsstring) :
  consistent (db w) ->
  indexFiles openai input w = (r, w') ->
  ~ In p (map IndexedFile.path input) ->
  view (db w') p = view (db w) p.
Proof.
  intros Hd Hrun Hp. unfold indexFiles, bind, ret in Hrun.
  destruct (indexFiles_loop openai input w) as [r1 w1] eqn:E.
  assert (w1 = w') by (destruct r1; now injection Hrun). subst w1.
  exact (indexFiles_loop_frame openai input w r1 w' Hd E p Hp).
Qed.

Lemma indexFiles_touches_given_paths_only_witness :
  let openai := fun (n : nat) (input : list jsstring) =>
                  match n with
                  | 0 => Some (map (fun _ => [1; 0]%float) input)
                  | _ => None
                  end in
  let file name :=
    {| IndexedFile.path := name; IndexedFile.content := JsString.lit "text";
       IndexedFile.mtime := 1000; IndexedFile.size := 4;
       IndexedFile.extension := JsString.lit ".txt" |} in
  let w := snd (indexFiles openai [file (JsString.lit "a.txt")] initial_world) in
  let w' := snd (indexFiles openai [file (JsString.lit "b.txt")] w) in
  view (db w') (JsString.lit "a.txt") = view (db w) (JsString.lit "a.txt").
Proof.
  intros openai file w w'.
  apply (indexFiles_touches_given_paths_only openai [file (JsString.lit "b.txt")] w w'
           (Throw EmbeddingError)).
  - apply (indexFiles_loop_consistent openai [file (JsString.lit "a.txt")] initial_world).
    exact consistent_empty_db.
  - vm_compute. reflexivity.
  - cbn. intros [H|[]]. discriminate.
Defined.

(** X9: A completed [indexFiles] has sent, for every file of its input, one
    request per started batch of 20 chunks, and none for a file without
    chunks. *)
Theorem indexFiles_request_count
    (openai : nat -> list jsstring -> option (list (list float)))
    (input : list IndexedFile.t) (w w' : World) (v : jsval) :
  indexFiles openai input w = (Normal v, w') ->
  requests w'
  = requests w
    + list_sum (map (fun f => batches (length (chunkText (IndexedFile.content f) 500)))
                    input).
Proof.
  intros Hrun. unfold indexFiles, bind, ret in Hrun.
  destruct (indexFiles_loop openai input w) as [[[]|e] w1] eqn:E; [|discriminate].
  injection Hrun as _ <-. exact (indexFiles_loop_requests openai input w w1 E).
Qed.

Lemma indexFiles_request_count_witness :
  let openai := fun (_ : nat) (input : list jsstring) =>
                  Some (map (fun _ => [1; 0]%float) input) in
  let file content :=
    {| IndexedFile.path := JsString.lit "a.txt"; IndexedFile.content := content;
       IndexedFile.mtime := 1000; IndexedFile.size := 5;
       IndexedFile.extension := JsString.lit ".txt" |} in
  let input := [file (JsString.lit "text"); file []] in
  requests (snd (indexFiles openai input initial_world)) = 1.
Proof.
  intros openai file input.
  exact (indexFiles_request_count openai input initial_world
           (snd (indexFiles openai input initial_world)) JsUndefined eq_refl).
Defined.

(** X10: Every request of [indexFiles] carries between 1 and 20 chunks: two
    clients that answer such requests alike cannot be told apart. *)
Theorem indexFiles_batch_sizes
    (openai openai' : nat -> list jsstring -> option (list (list float)))
    (input : list IndexedFile.t) (w : World) :
  (forall n batch, 1 <= length batch <= batchSize -> openai n batch = openai' n batch) ->
  indexFiles openai input w = indexFiles openai' input w.
Proof.
  intros H. unfold indexFiles, bind.
  now rewrite (indexFiles_loop_batch_sizes openai openai' H input w).
Qed.

Lemma indexFiles_batch_sizes_witness :
  let openai := fun (_ : nat) (input : list jsstring) =>
                  Some (map (fun _ => [1; 0]%float) input) in
  let openai' := fun (_ : nat) (input : list jsstring) =>
                   match input with
                   | [] => None
                   | _ => if 20 <? length input then None
                          else Some (map (fun _ => [1; 0]%float) input)
                   end in
  let input :=
    [{| IndexedFile.path := JsString.lit "a.txt";
        IndexedFile.content := JsString.lit "text";
        IndexedFile.mtime := 1000; IndexedFile.size := 4;
        IndexedFile.extension := JsString.lit ".txt" |}] in
  indexFiles openai input initial_world = indexFiles openai' input initial_world.
Proof.
  intros openai openai' input.
  apply (indexFiles_batch_sizes openai openai' input initial_world).
  intros n batch [H1 H2]. unfold openai, openai'.
  destruct batch as [|c batch]; [cbn in H1; lia|].
  destruct (Nat.ltb_spec 20 (length (c :: batch))) as [H|H]; [|reflexivity].
  unfold batchSize in H2. lia.
Defined.

(** X11: Rowids are never reused: a completed [indexFiles] takes one new
    rowid per file of its input, and the record it leaves for a path of the
    input carries a rowid above every rowid the table had before, also when
    the content did not change. *)
Theorem indexFiles_fresh_rowids
    (openai : nat -> list jsstring -> option (list (list float)))
    (input : list IndexedFile.t) (w w' : World) (v : jsval) :
  indexFiles openai input w = (Normal v, w') ->
  rowid_bound (db w') = (rowid_bound (db w) + Z.of_nat (length input))%Z
  /\ forall row, In row (files (db w')) ->
       In (Files.path row) (map IndexedFile.path input) ->
       (rowid_bound (db w) < Files.id row <= rowid_bound (db w'))%Z.
Proof.
  intros Hrun. unfold indexFiles, bind, ret in Hrun.
  destruct (indexFiles_loop openai input w) as [[[]|e] w1] eqn:E; [|discriminate].
  injection Hrun as _ <-.
  destruct (indexFiles_loop_rowids openai input w w1 E) as [Hb Hrows].
  split; [exact Hb|]. intros row Hrow Hp. split.
  - destruct (Hrows row Hrow) as [[_ H]|H]; [contradiction|exact H].
  - apply max_rowid_ge in Hrow. unfold rowid_bound. lia.
Qed.

Lemma indexFiles_fresh_rowids_witness :
  let openai := fun (_ : nat) (input : list jsstring) =>
                  Some (map (fun _ => [1; 0]%float) input) in
  let input :=
    [{| IndexedFile.path := JsString.lit "a.txt";
        IndexedFile.content := JsString.lit "text";
        IndexedFile.mtime := 1000; IndexedFile.size := 4;
        IndexedFile.extension := JsString.lit ".txt" |}] in
  let w := snd (indexFiles openai input initial_world) in
  let w' := snd (indexFiles openai input w) in
  map Files.id (files (db w)) = [1%Z] /\ map Files.id (files (db w')) = [2%Z]
  /\ rowid_bound (db w') = (rowid_bound (db w) + 1)%Z.
Proof.
  intros openai input w w'. split; [reflexivity|]. split; [reflexivity|].
  exact (proj1 (indexFiles_fresh_rowids openai input w w' JsUndefined eq_refl)).
Defined.

(* ================================================================= *)
(** ** Which vector is stored with which chunk *)

Section VectorAlignment.
Variable openai : nat -> list jsstring -> option (list (list float)).

Lemma replace_embedding_new d row : In row (embeddings (replace_embedding d row)).
Proof. unfold replace_embedding. cbn [embeddings]. apply in_or_app. right. now left. Qed.

Lemma replace_embedding_keeps d row e :
  In e (embeddings d) ->
  Embeddings.file_id e <> Embeddings.file_id row
  \/ Embeddings.chunk_index e <> Embeddings.chunk_index row ->
  In e (embeddings (replace_embedding d row)).
Proof.
  intros He Hkey. unfold replace_embedding. cbn [embeddings]. apply in_or_app. left.
  apply filter_In. split; [exact He|]. apply negb_true_iff, andb_false_iff.
  destruct Hkey as [H|H]; [left|right]; now apply Z.eqb_neq.
Qed.

(** A completed inner loop has stored the [j + k]-th vector with the
    [k]-th chunk of the batch, and has kept the records of other files and
    of earlier chunks. *)
Lemma storeEmbeddings_rows fileId i data rest : forall j w w',
  storeEmbeddings fileId i j rest data w = (Normal tt, w') ->
  (forall k text, nth_error rest k = Some text ->
     exists vec, nth_error data (j + k) = Some vec
                 /\ In (chunk_record fileId (i + j + k) text vec) (embeddings (db w')))
  /\ (forall e, In e (embeddings (db w)) ->
        Embeddings.file_id e <> fileId
        \/ (Embeddings.chunk_index e < Z.of_nat (i + j))%Z ->
        In e (embeddings (db w'))).
Proof.
  induction rest as [|text rest IH]; intros j w w' Hrun.
  - injection Hrun as <-. split; [intros [|k] text H; discriminate|trivial].
  - cbn [storeEmbeddings] in Hrun.
    destruct (nth_error data j) as [embedding|] eqn:E; [|discriminate].
    unfold bind, insertEmbedding, insertEmbedding_run in Hrun.
    destruct (negb _ || existsb _ _); [|discriminate].
    apply IH in Hrun as [Hnew Hold]. cbn [db] in Hold. split.
    + intros [|k] text' Hk.
      * injection Hk as <-. exists embedding. rewrite !Nat.add_0_r.
        split; [exact E|]. apply Hold; [apply replace_embedding_new|].
        right. cbn [chunk_record Embeddings.chunk_index]. lia.
      * destruct (Hnew k text' Hk) as (vec & Hvec & Hin).
        exists vec. rewrite Nat.add_succ_r. split; [exact Hvec|].
        now replace (i + j + S k) with (i + S j + k) by lia.
    + intros e He Hkey. apply Hold.
      * apply replace_embedding_keeps; [exact He|].
        cbn [Embeddings.file_id Embeddings.chunk_index].
        destruct Hkey as [H|H]; [now left|right; lia].
      * destruct Hkey as [H|H]; [now left|right; lia].
Qed.

Lemma nth_error_batch (chunks : list jsstring) i k :
  k < batchSize ->
  nth_error (firstn batchSize (skipn i chunks)) k = nth_error chunks (i + k).
Proof.
  intros Hk. rewrite nth_error_firstn.
  replace (k <? batchSize) with true by (symmetry; now apply Nat.ltb_lt).
  apply nth_error_skipn.
Qed.

(** A completed batch loop that was entered at chunk [i]: the chunk [k] was
    sent in request number [(k - i) / 20] of the loop, and stored with the
    vector at its place in the answer. *)
Lemma embedBatches_rows fileId chunks : forall fuel i w w',
  length chunks <= i + fuel ->
  embedBatches openai fuel fileId chunks i w = (Normal tt, w') ->
  (forall k chunk, i <= k -> nth_error chunks k = Some chunk ->
     exists data vec,
       openai (requests w + (k - i) / batchSize)
              (firstn batchSize (skipn (i + batchSize * ((k - i) / batchSize)) chunks))
       = Some data
       /\ nth_error data ((k - i) mod batchSize) = Some vec
       /\ In (chunk_record fileId k chunk vec) (embeddings (db w')))
  /\ (forall e, In e (embeddings (db w)) ->
        Embeddings.file_id e <> fileId \/ (Embeddings.chunk_index e < Z.of_nat i)%Z ->
        In e (embeddings (db w'))).
Proof.
  induction fuel as [|fuel IH]; intros i w w' Hfuel Hrun.
  - injection Hrun as <-. split; [|trivial]. intros k chunk Hk Hnth.
    assert (k < length chunks) by (apply nth_error_Some; congruence). lia.
  - cbn [embedBatches] in Hrun. destruct (Nat.ltb_spec i (length chunks)) as [Hi|Hi].
    2:{ injection Hrun as <-. split; [|trivial]. intros k chunk Hk Hnth.
        assert (k < length chunks) by (apply nth_error_Some; congruence). lia. }
    rewrite Array_slice_batch in Hrun by lia.
    unfold bind at 1, embeddings_create in Hrun.
    destruct (openai (requests w) _) as [data|] eqn:Edata; [|discriminate].
    unfold bind in Hrun.
    destruct (storeEmbeddings fileId i 0 _ data _) as [[[]|e1] w2] eqn:Estore;
      [|discriminate].
    pose proof (storeEmbeddings_static _ _ _ _ _ _ _ _ Estore) as (Hreq & _).
    apply storeEmbeddings_rows in Estore as [Hnew Hold]. cbn [db requests] in *.
    apply IH in Hrun as [Hnew' Hold']; [|unfold batchSize in *; lia].
    split.
    + intros k chunk Hk Hnth. destruct (Nat.lt_ge_cases k (i + batchSize)) as [Hlt|Hge].
      * assert (Hsmall : k - i < batchSize) by lia.
        rewrite (Nat.div_small (k - i) batchSize), (Nat.mod_small (k - i) batchSize)
          by exact Hsmall.
        rewrite Nat.mul_0_r, !Nat.add_0_r.
        destruct (Hnew (k - i) chunk) as (vec & Hvec & Hin).
        { rewrite nth_error_batch by exact Hsmall.
          now replace (i + (k - i)) with k by lia. }
        exists data, vec. split; [exact Edata|]. split; [exact Hvec|].
        apply Hold'; [|right; cbn [chunk_record Embeddings.chunk_index]; lia].
        now replace (i + 0 + (k - i)) with k in Hin by lia.
      * destruct (Hnew' k chunk Hge Hnth) as (data' & vec & Hdata' & Hvec & Hin).
        assert (Hdiv : (k - i) / batchSize = S ((k - (i + batchSize)) / batchSize)).
        { replace (k - i) with ((k - (i + batchSize)) + 1 * batchSize)
            by (unfold batchSize in *; lia).
          rewrite Nat.div_add by discriminate. lia. }
        assert (Hmod : (k - i) mod batchSize = (k - (i + batchSize)) mod batchSize).
        { replace (k - i) with ((k - (i + batchSize)) + 1 * batchSize)
            by (unfold batchSize in *; lia).
          now rewrite Nat.Div0.mod_add. }
        exists data', vec. rewrite Hdiv, Hmod. split; [|now split].
        rewrite <- Hdata', Hreq. f_equal; [lia|]. f_equal. f_equal. lia.
    + intros e He Hkey. apply Hold'.
      * apply Hold; [exact He|]. destruct Hkey as [H|H]; [now left|right; lia].
      * destruct Hkey as [H|H]; [now left|right; lia].
Qed.

End VectorAlignment.

(** X12: Chunks and vectors stay aligned. After a file was indexed, the
    record of its [k]-th chunk holds the chunk's text and, rounded to
    binary32, the vector at place [k mod 20] in the client's answer to the
    file's request number [k / 20], which carried the chunks from
    [20 * (k / 20)] on. *)
Theorem indexFiles_vectors_aligned
    (openai : nat -> list jsstring -> option (list (list float)))
    (file : IndexedFile.t) (w w' : World) (v : jsval) :
  indexFiles openai [file] w = (Normal v, w') ->
  let chunks := chunkText (IndexedFile.content file) 500 in
  exists row,
    file_rows (db w') (IndexedFile.path file) = [row]
    /\ forall k chunk, nth_error chunks k = Some chunk ->
         exists data vec,
           openai (requests w + k / batchSize)
                  (firstn batchSize (skipn (batchSize * (k / batchSize)) chunks))
           = Some data
           /\ nth_error data (k mod batchSize) = Some vec
           /\ In (chunk_record (Files.id row) k chunk vec) (embeddings (db w')).
Proof.
  intros Hrun chunks. unfold indexFiles, indexFiles_loop, bind at 1 2, ret in Hrun.
  destruct (indexFile openai file w) as [[[]|e] w1] eqn:E; [|discriminate].
  injection Hrun as _ <-.
  pose proof (indexFile_files openai file w _ w1 E) as [Hfiles _].
  pose proof (insertFile_file_rows (db w) file) as Hrows.
  unfold indexFile, bind, insertFile in E.
  destruct (insertFile_run (db w) file) as [d1 rowid]. cbn [fst snd] in *.
  exists (file_row rowid file). split; [unfold file_rows; now rewrite Hfiles|].
  apply embedBatches_rows in E as [Hnew _]; [|lia].
  intros k chunk Hk. destruct (Hnew k chunk (Nat.le_0_l k) Hk) as (data & vec & H1 & H2 & H3).
  rewrite Nat.sub_0_r in H1, H2. cbn [requests Nat.add] in H1.
  exists data, vec. split; [exact H1|]. split; [exact H2|exact H3].
Qed.

Lemma indexFiles_vectors_aligned_witness :
  let openai := fun (n : nat) (input : list jsstring) =>
                  Some (map (fun c => [1; 0]%float) input) in
  let file :=
    {| IndexedFile.path := JsString.lit "a.txt";
       IndexedFile.content := JsString.lit "text";
       IndexedFile.mtime := 1000; IndexedFile.size := 4;
       IndexedFile.extension := JsString.lit ".txt" |} in
  let w' := snd (indexFiles openai [file] initial_world) in
  exists row,
    file_rows (db w') (JsString.lit "a.txt") = [row]
    /\ exists data vec,
         openai 0 [JsString.lit "text"] = Some data
         /\ nth_error data 0 = Some vec
         /\ In (chunk_record (Files.id row) 0 (JsString.lit "text") vec)
               (embeddings (db w')).
Proof.
  intros openai file w'.
  destruct (indexFiles_vectors_aligned openai file initial_world w' JsUndefined eq_refl)
    as (row & H1 & H2).
  exists row. split; [exact H1|].
  exact (H2 0 (JsString.lit "text") eq_refl).
Defined.

(* ================================================================= *)
(** ** The ways [indexFiles] fails *)

(** X13: [indexFiles] cannot break a key of the schema. The files are those
    of [IndexedFile.t], whose modification time is the time value of a valid
    date and whose size is a number, so that no column is bound to NULL. The
    file record is written before its chunk records, which keeps the foreign
    key of [embeddings], and REPLACE resolves a clash of path or of (file,
    chunk index). On a store that satisfies the schema the only failures of
    [indexFiles] on such files are a request that the client rejects and a
    response with too few vectors. *)
Theorem indexFiles_failures
    (openai : nat -> list jsstring -> option (list (list float)))
    (input : list IndexedFile.t) (w w' : World) (e : error) :
  consistent (db w) ->
  indexFiles openai input w = (Throw e, w') ->
  e = EmbeddingError \/ e = TypeError.
Proof.
  intros Hd Hrun. unfold indexFiles, bind in Hrun.
  destruct (indexFiles_loop openai input w) as [[[]|e0] w0] eqn:E; [discriminate|].
  injection Hrun as -> ->.
  apply indexFiles_loop_throw in E as (pre & file & post & w1 & -> & Hpre & Hfile).
  pose proof (indexFiles_loop_normal openai pre w w1 Hd Hpre) as (Hd1 & _).
  pose proof (indexFile_spec openai file w1 _ w' Hd1 Hfile)
    as (_ & _ & _ & row & chunks & n & _ & _ & _ & Hprogress).
  unfold progress in Hprogress. destruct e; [now left|now right|contradiction].
Qed.

Lemma indexFiles_failures_witness :
  let openai := fun (_ : nat) (_ : list jsstring) => @None (list (list float)) in
  let input :=
    [{| IndexedFile.path := JsString.lit "a.txt";
        IndexedFile.content := JsString.lit "text";
        IndexedFile.mtime := 1000; IndexedFile.size := 4;
        IndexedFile.extension := JsString.lit ".txt" |}] in
  fst (indexFiles openai input initial_world) = Throw EmbeddingError
  /\ (EmbeddingError = EmbeddingError \/ EmbeddingError = TypeError).
Proof.
  intros openai input. split; [reflexivity|].
  exact (indexFiles_failures openai input initial_world
           (snd (indexFiles openai input initial_world)) EmbeddingError
           consistent_empty_db eq_refl).
Defined.

(* ================================================================= *)
(** ** A response with too few vectors *)

Section ShortResponse.
Variable openai : nat -> list jsstring -> option (list (list float)).

(** The inner loop on a response that is too short: the vectors that are
    there are stored, then [response.data[j]] is [undefined]. *)
Lemma storeEmbeddings_short fileId i data rest : forall j w,
  In fileId (map Files.id (files (db w))) ->
  (forall e, In e (chunks_of (db w) fileId) ->
             (Embeddings.chunk_index e < Z.of_nat (i + j))%Z) ->
  j <= length data < j + length rest ->
  exists w',
    storeEmbeddings fileId i j rest data w = (Throw TypeError, w')
    /\ requests w' = requests w
    /\ files (db w') = files (db w)
    /\ chunk_entries (db w') fileId
       = chunk_entries (db w) fileId ++ numbered (i + j) (firstn (length data - j) rest).
Proof.
  induction rest as [|text rest IH]; intros j w Hid Hlt Hj; [cbn [length] in Hj; lia|].
  cbn [storeEmbeddings]. destruct (nth_error data j) as [embedding|] eqn:E.
  - assert (Hj' : j < length data) by (apply nth_error_Some; congruence).
    unfold bind, insertEmbedding.
    rewrite (insertEmbedding_run_ok _ _ _ _ _ Hid).
    match goal with |- context [storeEmbeddings _ _ _ _ _ ?x] => set (w1 := x) end.
    assert (Hnew : forall e, In e (chunks_of (db w) fileId) ->
                             Embeddings.chunk_index e <> Z.of_nat (i + j))
      by (intros e He; apply Hlt in He; lia).
    pose proof (insertEmbedding_appends (db w) fileId (Z.of_nat (i + j)) text
                  (Float32Array embedding) Hnew) as Happ.
    destruct (IH (S j) w1) as (w' & Hrun & Hreq & Hfiles & Hent).
    + exact Hid.
    + intros e He. cbn [w1 db] in He. rewrite Happ in He.
      apply in_app_or in He as [He|[<-|[]]]; [apply Hlt in He; lia|simpl; lia].
    + cbn [length] in Hj. lia.
    + exists w'. split; [exact Hrun|]. split; [exact Hreq|]. split; [exact Hfiles|].
      rewrite Hent. unfold chunk_entries at 1. cbn [w1 db]. rewrite Happ, map_app.
      replace (length data - j) with (S (length data - S j)) by lia.
      cbn [firstn]. rewrite numbered_cons, <- app_assoc. cbn [map app].
      now rewrite Nat.add_succ_r.
  - apply nth_error_None in E. exists w. split; [reflexivity|].
    replace (length data - j) with 0 by lia. cbn [firstn].
    unfold numbered. cbn. now rewrite app_nil_r.
Qed.

End ShortResponse.

(** X14: When the client answers the first request for a file with fewer
    vectors than the request has chunks, [indexFiles] fails with a
    [TypeError] after one request; the file keeps its new record, with chunk
    records for just the vectors that came. *)
Theorem indexFiles_short_response
    (openai : nat -> list jsstring -> option (list (list float)))
    (file : IndexedFile.t) (w : World) (data : list (list float)) :
  consistent (db w) ->
  openai (requests w) (firstn batchSize (chunkText (IndexedFile.content file) 500))
  = Some data ->
  length data < length (firstn batchSize (chunkText (IndexedFile.content file) 500)) ->
  exists w' row,
    indexFiles openai [file] w = (Throw TypeError, w')
    /\ requests w' = S (requests w)
    /\ file_rows (db w') (IndexedFile.path file) = [row]
    /\ row_of file row
    /\ chunk_entries (db w') (Files.id row)
       = numbered 0 (firstn (length data) (chunkText (IndexedFile.content file) 500)).
Proof.
  intros Hd Hq Hshort.
  set (chunks := chunkText (IndexedFile.content file) 500) in *.
  assert (Hlen : 0 < length chunks).
  { destruct chunks; [cbn in Hshort; lia|cbn; lia]. }
  unfold indexFiles, indexFiles_loop, indexFile, bind at 1 2 3, insertFile.
  pose proof (insertFile_file_rows (db w) file) as Hrows.
  pose proof (insertFile_chunks_of (db w) file Hd) as Hnone.
  pose proof (insertFile_rowid_in (db w) file) as Hin.
  destruct (insertFile_run (db w) file) as [d1 rowid]. cbn [fst snd] in *.
  fold chunks. destruct (length chunks) as [|fuel] eqn:Efuel; [lia|].
  cbn [embedBatches]. rewrite Efuel. cbn [Nat.ltb Nat.leb].
  rewrite Array_slice_batch by lia. cbn [skipn].
  unfold bind at 1, embeddings_create. cbn [requests db]. rewrite Hq.
  unfold bind.
  destruct (storeEmbeddings_short rowid 0 data (firstn batchSize chunks) 0
              {| db := d1; requests := S (requests w) |})
    as (w' & Hrun & Hreq & Hfiles & Hent).
  - exact Hin.
  - intros e He. cbn [db] in He. rewrite Hnone in He. contradiction.
  - lia.
  - rewrite Hrun. exists w'. eexists. split; [reflexivity|].
    split; [exact Hreq|]. cbn [db] in Hfiles, Hent.
    split; [unfold file_rows; rewrite Hfiles; exact Hrows|].
    split; [now repeat split|]. cbn [file_row Files.id].
    rewrite Hent. unfold chunk_entries at 1. rewrite Hnone. cbn [map app Nat.add].
    rewrite Nat.sub_0_r, firstn_firstn. rewrite length_firstn in Hshort.
    f_equal. f_equal. lia.
Qed.

Lemma indexFiles_short_response_witness :
  let openai := fun (_ : nat) (_ : list jsstring) => Some (@nil (list float)) in
  let file :=
    {| IndexedFile.path := JsString.lit "a.txt";
       IndexedFile.content := JsString.lit "text";
       IndexedFile.mtime := 1000; IndexedFile.size := 4;
       IndexedFile.extension := JsString.lit ".txt" |} in
  exists w' row,
    indexFiles openai [file] initial_world = (Throw TypeError, w')
    /\ file_rows (db w') (JsString.lit "a.txt") = [row]
    /\ chunk_entries (db w') (Files.id row) = [].
Proof.
  intros openai file.
  destruct (indexFiles_short_response openai file initial_world [])
    as (w' & row & H1 & _ & H2 & _ & H3).
  - exact consistent_empty_db.
  - reflexivity.
  - cbn. lia.
  - exists w', row. split; [exact H1|]. split; [exact H2|exact H3].
Defined.

(* ================================================================= *)
(** ** The stores that the process reaches *)

Section Reachable.
Variable openai : nat -> list jsstring -> option (list (list float)).

Lemma view_file_rows d p : map fst (view d p) = file_rows d p.
Proof. unfold view. rewrite map_map. cbn [fst]. apply map_id. Qed.

Lemma view_eq d d' p :
  view d' p = view d p ->
  file_rows d' p = file_rows d p
  /\ forall row, In row (file_rows d p) ->
       chunks_of d' (Files.id row) = chunks_of d (Files.id row).
Proof.
  intros H.
  assert (Hrows : file_rows d' p = file_rows d p)
    by (now rewrite <- !view_file_rows, H).
  split; [exact Hrows|]. intros row Hrow.
  unfold view in H. rewrite Hrows in H.
  pose proof (ext_in_map H row Hrow) as E. now injection E.
Qed.

Lemma tidy_empty_db : tidy empty_db.
Proof. intros p. now left. Qed.

Lemma indexFile_tidy file w r w' :
  consistent (db w) -> tidy (db w) ->
  indexFile openai file w = (r, w') -> tidy (db w').
Proof.
  intros Hd Ht Hrun.
  apply indexFile_spec in Hrun as (_ & _ & Hframe & row & chunks & n & Hview & Hrow & Hent & _);
    [|exact Hd].
  intros p. destruct (JsString.eq_dec p (IndexedFile.path file)) as [->|Hp].
  - right. exists row. apply view_single in Hview as [Hrows Hchunks].
    split; [exact Hrows|]. exists n. unfold chunk_entries. rewrite Hchunks, Hent.
    destruct Hrow as (_ & -> & _). reflexivity.
  - destruct (view_eq _ _ _ (Hframe p Hp)) as [Hrows Hchunks].
    rewrite Hrows. destruct (Ht p) as [E|(row' & E & n' & Hn')]; [now left|right].
    exists row'. split; [exact E|]. exists n'. rewrite <- Hn'.
    unfold chunk_entries. now rewrite Hchunks by (rewrite E; now left).
Qed.

Lemma indexFiles_loop_tidy input : forall w,
  consistent (db w) -> tidy (db w) ->
  tidy (db (snd (indexFiles_loop openai input w))).
Proof.
  induction input as [|file input IH]; intros w Hd Ht; [exact Ht|].
  rewrite indexFiles_loop_cons.
  destruct (indexFile openai file w) as [r w1] eqn:E.
  pose proof (indexFile_tidy file w r w1 Hd Ht E) as Ht1.
  apply indexFile_spec in E as (Hd1 & _); [|exact Hd].
  destruct r as [[]|e]; [now apply IH|exact Ht1].
Qed.

Lemma reachable_tidy w : reachable openai w -> tidy (db w).
Proof.
  induction 1 as [|input w Hw IH|query limit w _ IH].
  - exact tidy_empty_db.
  - apply reachable_consistent in Hw as [Hd _].
    pose proof (indexFiles_loop_tidy input w Hd IH) as H.
    unfold indexFiles, bind, ret.
    destruct (indexFiles_loop openai input w) as [[[]|e] w1]; exact H.
  - unfold search, bind, embeddings_create, throw.
    destruct (openai (requests w) [query]) as [[|q data]|]; exact IH.
Qed.

Lemma tidy_row d row :
  tidy d -> In row (files d) ->
  file_rows d (Files.path row) = [row] /\ chunks_current d row.
Proof.
  intros Ht Hrow.
  assert (Hin : In row (file_rows d (Files.path row)))
    by (apply filter_In; split; [exact Hrow|apply JsStringFacts.eqb_refl]).
  destruct (Ht (Files.path row)) as [E|(row' & E & Hc)]; rewrite E in Hin.
  - contradiction.
  - destruct Hin as [<-|[]]. now split.
Qed.

(** The UNIQUE constraint on [path]. *)
Lemma tidy_unique_paths d : tidy d -> NoDup (map Files.path (files d)).
Proof.
  intros Ht.
  assert (H : forall p, length (file_rows d p) <= 1).
  { intros p. destruct (Ht p) as [->|(row & -> & _)]; simpl; lia. }
  clear Ht. unfold file_rows in H. induction (files d) as [|x rows IH]; [constructor|].
  cbn [map]. constructor.
  - intros Hin. apply in_map_iff in Hin as (y & Hp & Hy).
    specialize (H (Files.path x)). cbn [filter] in H.
    rewrite JsStringFacts.eqb_refl in H. cbn [length] in H.
    assert (Hy' : In y (filter (fun r => JsString.eqb (Files.path r) (Files.path x)) rows))
      by (apply filter_In; split; [exact Hy|now apply JsStringFacts.eqb_eq]).
    destruct (filter _ rows); [contradiction|cbn [length] in H; lia].
  - apply IH. intros p. specialize (H p). cbn [filter] in H.
    destruct (JsString.eqb (Files.path x) p); cbn [length] in H; lia.
Qed.

(** A row of the join comes from a file record and one of its chunk
    records. *)
Lemma In_select_embeddings_join_files d (j : Joined.row) :
  In j (select_embeddings_join_files d) ->
  exists e f, In e (embeddings d) /\ In f (files d)
              /\ Files.id f = Embeddings.file_id e
              /\ Joined.path j = Files.path f
              /\ Joined.mtime j = Files.mtime f
              /\ Joined.chunk_text j = Embeddings.chunk_text e
              /\ Joined.embedding j = Embeddings.embedding e.
Proof.
  unfold select_embeddings_join_files. intros H.
  apply in_flat_map in H as (e & He & H).
  apply in_map_iff in H as (f & <- & Hf).
  apply filter_In in Hf as [Hf Hid]. apply Z.eqb_eq in Hid.
  exists e, f. cbn. repeat split; assumption.
Qed.

Lemma In_search_results query limit w results w' r :
  search openai query limit w = (Normal results, w') ->
  In r results ->
  exists q j, In j (select_embeddings_join_files (db w)) /\ r = toSearchResult q j.
Proof.
  unfold search, bind, embeddings_create, throw. intros Hrun Hr.
  destruct (openai (requests w) [query]) as [[|q data]|]; try discriminate.
  cbn [nth_error] in Hrun. injection Hrun as <- _.
  apply In_Array_slice in Hr. unfold Array_sort in Hr.
  apply (proj1 (stable_sort_in _ _ _)) in Hr.
  apply in_map_iff in Hr as (j & <- & Hj). now exists q, j.
Qed.

End Reachable.

(** X15: The store invariant. In every store that the process reaches, by
    calls of [indexFiles] that complete or fail and by searches: a path has
    at most one record, rowids are unique, every chunk record belongs to a
    file record, and the chunk records of a file record are numbered from 0
    without a gap and hold the leading chunks of the record's content. *)
Theorem reachable_store_invariant
    (openai : nat -> list jsstring -> option (list (list float))) (w : World) :
  reachable openai w ->
  NoDup (map Files.path (files (db w)))
  /\ NoDup (map Files.id (files (db w)))
  /\ (forall e, In e (embeddings (db w)) ->
        exists row, In row (files (db w)) /\ Files.id row = Embeddings.file_id e)
  /\ (forall row, In row (files (db w)) ->
        exists n, chunk_entries (db w) (Files.id row)
                  = numbered 0 (firstn n (chunkText (Files.content row) 500))).
Proof.
  intros Hw. pose proof (reachable_tidy openai w Hw) as Ht.
  apply reachable_consistent in Hw as [Hd Hfk].
  split; [now apply tidy_unique_paths|]. split; [apply (unique_ids _ Hd)|]. split.
  - intros e He. apply (foreign_key _ Hd Hfk) in He.
    apply in_map_iff in He as (row & Hid & Hrow). now exists row.
  - intros row Hrow. now apply (tidy_row (db w) row Ht Hrow).
Qed.

Lemma reachable_store_invariant_witness :
  let openai := fun (n : nat) (input : list jsstring) =>
                  match n with
                  | 0 => Some (map (fun _ => [1; 0]%float) input)
                  | _ => None
                  end in
  let file name :=
    {| IndexedFile.path := name; IndexedFile.content := JsString.lit "text";
       IndexedFile.mtime := 1000; IndexedFile.size := 4;
       IndexedFile.extension := JsString.lit ".txt" |} in
  let input := [file (JsString.lit "a.txt"); file (JsString.lit "b.txt")] in
  let w := snd (indexFiles openai input initial_world) in
  fst (indexFiles openai input initial_world) = Throw EmbeddingError
  /\ NoDup (map Files.path (files (db w))).
Proof.
  intros openai file input w. split; [reflexivity|].
  apply (reachable_store_invariant openai w).
  apply reachable_indexFiles, reachable_initial.
Defined.

(** X16: A search hit is never stale. In a store that the process reaches,
    every result names a path that has exactly one record, carries that
    record's modification time, and its text is a chunk of the content that
    is stored for the path. *)
Theorem search_hits_are_current
    (openai : nat -> list jsstring -> option (list (list float)))
    (query : jsstring) (limit : Z) (w w' : World) (results : list SearchResult.t) :
  reachable openai w ->
  search openai query limit w = (Normal results, w') ->
  forall r, In r results ->
    exists row,
      file_rows (db w) (SearchResult.path r) = [row]
      /\ SearchResult.mtime r = Files.mtime row
      /\ In (SearchResult.content r) (chunkText (Files.content row) 500).
Proof.
  intros Hw Hrun r Hr. pose proof (reachable_tidy openai w Hw) as Ht.
  destruct (In_search_results openai query limit w results w' r Hrun Hr)
    as (q & j & Hj & ->).
  apply In_select_embeddings_join_files in Hj
    as (e & f & He & Hf & Hid & Hpath & Hmtime & Htext & _).
  destruct (tidy_row (db w) f Ht Hf) as [Hrows (n & Hn)].
  exists f. cbn [toSearchResult SearchResult.path SearchResult.mtime SearchResult.content].
  rewrite Hpath, Hmtime, Htext. split; [exact Hrows|]. split; [reflexivity|].
  assert (Hin : In (Embeddings.chunk_index e, Embeddings.chunk_text e)
                   (chunk_entries (db w) (Files.id f))).
  { unfold chunk_entries.
    apply (in_map (fun e => (Embeddings.chunk_index e, Embeddings.chunk_text e))).
    apply filter_In. split; [exact He|]. apply Z.eqb_eq. now symmetry. }
  rewrite Hn in Hin.
  apply (in_map snd) in Hin. rewrite numbered_texts in Hin.
  cbn [snd] in Hin. eapply In_firstn_In, Hin.
Qed.

Lemma search_hits_are_current_witness :
  let openai := fun (_ : nat) (input : list jsstring) =>
                  Some (map (fun _ => [1; 0]%float) input) in
  let file content :=
    {| IndexedFile.path := JsString.lit "a.txt"; IndexedFile.content := content;
       IndexedFile.mtime := 1000; IndexedFile.size := 5;
       IndexedFile.extension := JsString.lit ".txt" |} in
  let w := snd (indexFiles openai [file (JsString.lit "old"); file (JsString.lit "new")]
                           initial_world) in
  forallb (fun r => JsString.eqb (SearchResult.content r) (JsString.lit "new"))
          (match fst (search openai (JsString.lit "query") 5 w) with
           | Normal results => results
           | Throw _ => []
           end) = true
  /\ exists row,
       file_rows (db w) (JsString.lit "a.txt") = [row]
       /\ In (JsString.lit "new") (chunkText (Files.content row) 500).
Proof.
  intros openai file w. split; [reflexivity|].
  destruct (search_hits_are_current openai (JsString.lit "query") 5 w
              (snd (search openai (JsString.lit "query") 5 w))
              [{| SearchResult.path := JsString.lit "a.txt";
                  SearchResult.content := JsString.lit "new";
                  SearchResult.score := 1; SearchResult.mtime := 1000 |}])
    with (r := {| SearchResult.path := JsString.lit "a.txt";
                  SearchResult.content := JsString.lit "new";
                  SearchResult.score := 1; SearchResult.mtime := 1000 |})
    as (row & H1 & _ & H2).
  - apply reachable_indexFiles, reachable_initial.
  - vm_compute. reflexivity.
  - now left.
  - now exists row.
Defined.

(** X17: How many results a search returns, NaN scores or not: the first
    [limit] entries of a ranking of all stored chunks; with a negative
    [limit], all but the last [-limit] entries. The store is not written. *)
Theorem search_result_count
    (openai : nat -> list jsstring -> option (list (list float)))
    (query : jsstring) (limit : Z) (w : World) (q : list float)
    (rest : list (list float)) :
  openai (requests w) [query] = Some (q :: rest) ->
  exists ranked results w',
    search openai query limit w = (Normal results, w')
    /\ db w' = db w
    /\ Permutation ranked (scored q w)
    /\ results = firstn (length results) ranked
    /\ Z.of_nat (length results)
       = (let n := Z.of_nat (length (select_embeddings_join_files (db w))) in
          if limit <? 0 then Z.max (n + limit) 0 else Z.min limit n)%Z.
Proof.
  intros Hq. rewrite (search_normal openai query limit w q rest Hq).
  set (ranked := Array_sort by_score_desc (scored q w)).
  assert (Hlen : length ranked = length (select_embeddings_join_files (db w))).
  { unfold ranked, Array_sort, scored. now rewrite stable_sort_length, length_map. }
  exists ranked. eexists. eexists. split; [reflexivity|]. split; [reflexivity|].
  split; [apply stable_sort_perm|].
  unfold Array_slice. rewrite Hlen. cbn [skipn Z.to_nat].
  change (Z.min 0 (Z.of_nat (length (select_embeddings_join_files (db w)))) <? 0)%Z
    with false.
  set (n := Z.of_nat (length (select_embeddings_join_files (db w)))).
  assert (Hfrom : (if (0 <? 0)%Z then Z.max (n + 0) 0 else Z.min 0 n) = 0%Z)
    by (cbn; lia).
  rewrite Hfrom. cbn [Z.to_nat skipn]. rewrite Z.sub_0_r.
  assert (Hn : Z.of_nat (length ranked) = n) by (unfold n; now rewrite Hlen).
  split.
  - rewrite length_firstn. f_equal. destruct (Z.ltb_spec limit 0); lia.
  - rewrite length_firstn. destruct (Z.ltb_spec limit 0); lia.
Qed.

Lemma search_result_count_witness :
  let openai := fun (_ : nat) (input : list jsstring) =>
                  Some (map (fun _ => [1; 0]%float) input) in
  let file name :=
    {| IndexedFile.path := name; IndexedFile.content := JsString.lit "text";
       IndexedFile.mtime := 1000; IndexedFile.size := 4;
       IndexedFile.extension := JsString.lit ".txt" |} in
  let input := [file (JsString.lit "a.txt"); file (JsString.lit "b.txt");
                file (JsString.lit "c.txt")] in
  let w := snd (indexFiles openai input initial_world) in
  exists results w',
    search openai (JsString.lit "query") (-1) w = (Normal results, w')
    /\ length results = 2.
Proof.
  intros openai file input w.
  destruct (search_result_count openai (JsString.lit "query") (-1) w [1; 0]%float [])
    as (ranked & results & w' & H1 & _ & _ & _ & H2).
  - reflexivity.
  - exists results, w'. split; [exact H1|].
    vm_compute in H2. now apply Nat2Z.inj.
Defined.

(* ================================================================= *)
(** ** What a search scans *)

Section FullScan.

Lemma filter_unique_id (rows : list Files.row) (f : Files.row) :
  NoDup (map Files.id rows) -> In f rows ->
  filter (fun r => (Files.id r =? Files.id f)%Z) rows = [f].
Proof.
  induction rows as [|x rows IH]; intros Hnd Hf; [contradiction|].
  cbn [map] in Hnd. inversion_clear Hnd as [|? ? Hx Hrows]. cbn [filter].
  destruct Hf as [->|Hf].
  - rewrite Z.eqb_refl. f_equal. apply filter_nil_iff. intros r Hr.
    apply Z.eqb_neq. intros Heq. apply Hx. rewrite <- Heq. now apply in_map.
  - replace (Files.id x =? Files.id f)%Z with false; [now apply IH|].
    symmetry. apply Z.eqb_neq. intros Heq. apply Hx. rewrite Heq. now apply in_map.
Qed.

(** With unique rowids and no chunk record without its file record, the
    join returns every chunk record once, in table order. *)
Lemma select_embeddings_join_files_texts d :
  consistent d -> foreign_keys d = true ->
  map Joined.chunk_text (select_embeddings_join_files d)
  = map Embeddings.chunk_text (embeddings d).
Proof.
  intros Hd Hfk. unfold select_embeddings_join_files.
  pose proof (foreign_key _ Hd Hfk) as Hin.
  induction (embeddings d) as [|e rows IH]; [reflexivity|].
  cbn [flat_map map]. rewrite map_app, IH by (intros e' He'; apply Hin; now right).
  destruct (proj1 (in_map_iff _ _ _) (Hin e (or_introl eq_refl))) as (f & Hid & Hf).
  rewrite <- Hid, (filter_unique_id _ f (unique_ids _ Hd) Hf). reflexivity.
Qed.

End FullScan.

(** X18: The search is a full scan. In a store that the process reaches, a
    search whose [limit] is at least the number of chunk records returns
    every stored chunk exactly once. *)
Theorem search_scans_every_chunk
    (openai : nat -> list jsstring -> option (list (list float)))
    (query : jsstring) (limit : Z) (w : World) (q : list float)
    (rest : list (list float)) :
  reachable openai w ->
  openai (requests w) [query] = Some (q :: rest) ->
  (Z.of_nat (length (embeddings (db w))) <= limit)%Z ->
  exists results w',
    search openai query limit w = (Normal results, w')
    /\ Permutation (map SearchResult.content results)
                   (map Embeddings.chunk_text (embeddings (db w))).
Proof.
  intros Hw Hq Hlimit. apply reachable_consistent in Hw as [Hd Hfk].
  rewrite (search_normal openai query limit w q rest Hq).
  eexists. eexists. split; [reflexivity|].
  rewrite <- (select_embeddings_join_files_texts (db w) Hd Hfk).
  assert (Hlen : length (select_embeddings_join_files (db w)) = length (embeddings (db w)))
    by (rewrite <- (length_map Joined.chunk_text),
          (select_embeddings_join_files_texts (db w) Hd Hfk); apply length_map).
  rewrite Array_slice_prefix by lia.
  rewrite firstn_all2
    by (unfold Array_sort, scored; rewrite stable_sort_length, length_map; lia).
  eapply Permutation_trans.
  - apply Permutation_map. unfold Array_sort. apply stable_sort_perm.
  - unfold scored. rewrite map_map. cbn [toSearchResult SearchResult.content].
    apply Permutation_refl.
Qed.

Lemma search_scans_every_chunk_witness :
  let openai := fun (_ : nat) (input : list jsstring) =>
                  Some (map (fun _ => [1; 0]%float) input) in
  let file name content :=
    {| IndexedFile.path := name; IndexedFile.content := content;
       IndexedFile.mtime := 1000; IndexedFile.size := 4;
       IndexedFile.extension := JsString.lit ".txt" |} in
  let input := [file (JsString.lit "a.txt") (JsString.lit "one");
                file (JsString.lit "b.txt") (JsString.lit "two")] in
  let w := snd (indexFiles openai input initial_world) in
  exists results w',
    search openai (JsString.lit "query") 5 w = (Normal results, w')
    /\ Permutation (map SearchResult.content results)
                   [JsString.lit "one"; JsString.lit "two"].
Proof.
  intros openai file input w.
  apply (search_scans_every_chunk openai (JsString.lit "query") 5 w [1; 0]%float []).
  - apply reachable_indexFiles, reachable_initial.
  - reflexivity.
  - vm_compute. discriminate.
Defined.

(* ================================================================= *)
(** ** Indexing one file and searching it *)

(** X19: Indexing one short file into a new store and searching it. A file
    whose content fits one chunk and is not blank is stored as its trimmed
    content; any search with [limit >= 1] then returns that chunk as its
    only result, scored against the stored vector, which is the client's
    vector rounded to binary32. *)
Theorem index_then_search_one_file
    (openai : nat -> list jsstring -> option (list (list float)))
    (file : IndexedFile.t) (query : jsstring) (limit : Z)
    (v q : list float) (rest rest' : list (list float)) :
  (Z.of_nat (length (IndexedFile.content file)) <= 500)%Z ->
  non_space (IndexedFile.content file) <> [] ->
  openai 0 [JsString.trim (IndexedFile.content file)] = Some (v :: rest) ->
  openai 1 [query] = Some (q :: rest') ->
  (1 <= limit)%Z ->
  exists w w',
    indexFiles openai [file] initial_world = (Normal JsUndefined, w)
    /\ search openai query limit w
       = (Normal [{| SearchResult.path := IndexedFile.path file;
                     SearchResult.content := JsString.trim (IndexedFile.content file);
                     SearchResult.score := cosineSimilarity q (Float32Array v);
                     SearchResult.mtime := IndexedFile.mtime file |}],
          w').
Proof.
  intros Hlen Hns Hv Hq Hlimit.
  assert (Hchunks : chunkText (IndexedFile.content file) 500
                    = [JsString.trim (IndexedFile.content file)]).
  { unfold chunkText. rewrite (chunkText_loop_short _ 500 Hlen), trim_snoc_LF.
    destruct (JsString.trim (IndexedFile.content file)) eqn:E; [|reflexivity].
    now destruct (trim_non_space _ Hns). }
  eexists. eexists. split.
  - unfold indexFiles, indexFiles_loop, indexFile, bind at 1 2 3, insertFile.
    rewrite Hchunks. cbn [initial_world db requests length embedBatches].
    unfold insertFile_run. cbn [empty_db files embeddings sqlite_sequence foreign_keys
                                 filter app map existsb].
    cbn [Nat.ltb Nat.leb].
    rewrite Array_slice_batch by (cbn; lia). cbn [skipn firstn batchSize].
    unfold bind at 1, embeddings_create. cbn [requests db]. rewrite Hv.
    unfold bind at 1. cbn [storeEmbeddings nth_error].
    unfold bind at 1, insertEmbedding, insertEmbedding_run.
    cbn [db foreign_keys negb orb files existsb file_row Files.id].
    change (rowid_bound empty_db + 1 =? rowid_bound empty_db + 1)%Z with true.
    cbn [orb]. unfold ret, bind. reflexivity.
  - match goal with |- search _ _ _ ?w = _ =>
      rewrite (search_normal openai query limit w q rest' Hq) end.
    f_equal. rewrite Array_slice_prefix by lia.
    unfold scored, select_embeddings_join_files, replace_embedding.
    cbn [db embeddings files filter app flat_map map Embeddings.file_id Files.id
         file_row].
    change (rowid_bound empty_db + 1 =? rowid_bound empty_db + 1)%Z with true.
    cbn [map app]. unfold Array_sort. cbn [stable_sort insert_sorted].
    destruct (Z.to_nat limit) as [|n] eqn:E; [lia|].
    cbn [firstn]. rewrite firstn_nil. reflexivity.
Qed.

Lemma index_then_search_one_file_witness :
  let openai := fun (n : nat) (_ : list jsstring) =>
                  match n with
                  | 0 => Some [[3; 4]%float]
                  | _ => Some [[4; 3]%float]
                  end in
  let file :=
    {| IndexedFile.path := JsString.lit "a.txt";
       IndexedFile.content := JsString.lit "line1" ++ LF :: JsString.lit "line2" ++ [LF];
       IndexedFile.mtime := 1000; IndexedFile.size := 12;
       IndexedFile.extension := JsString.lit ".txt" |} in
  exists w w',
    indexFiles openai [file] initial_world = (Normal JsUndefined, w)
    /\ search openai (JsString.lit "query") 5 w
       = (Normal [{| SearchResult.path := JsString.lit "a.txt";
                     SearchResult.content := JsString.lit "line1" ++ LF :: JsString.lit "line2";
                     SearchResult.score := (24 / 25)%float;
                     SearchResult.mtime := 1000 |}],
          w').
Proof.
  intros openai file.
  destruct (index_then_search_one_file openai file (JsString.lit "query") 5
              [3; 4]%float [4; 3]%float [] [])
    as (w & w' & H1 & H2).
  - vm_compute. discriminate.
  - vm_compute. discriminate.
  - reflexivity.
  - reflexivity.
  - lia.
  - exists w, w'. split; [exact H1|exact H2].
Defined.

(* ================================================================= *)
(** ** The recency query on the stores that indexing leaves *)

Section SortAndFilter.
Context {A : Type}.
Variable after : A -> A -> bool.
Hypothesis after_asym : forall x y, after x y = true -> after y x = false.
Hypothesis in_order_trans :
  forall x y z, after x y = false -> after y z = false -> after x z = false.

Lemma stable_sort_strongly_sorted l :
  StronglySorted (in_order after) (stable_sort after l).
Proof.
  apply Sorted_StronglySorted.
  - intros x y z. apply in_order_trans.
  - now apply stable_sort_sorted.
Qed.

(** Filtering commutes with the insertion into a sorted list. *)
Lemma insert_sorted_filter_commute (p : A -> bool) x l :
  StronglySorted (in_order after) l ->
  filter p (insert_sorted after x l)
  = if p x then insert_sorted after x (filter p l) else filter p l.
Proof.
  induction l as [|y l IH]; intros Hs.
  - simpl. now destruct (p x).
  - inversion_clear Hs as [|? ? Hl Hy]. simpl insert_sorted.
    destruct (after x y) eqn:Exy.
    + cbn [filter]. rewrite IH by assumption.
      destruct (p y) eqn:Ey, (p x) eqn:Ex; try reflexivity.
      simpl insert_sorted. now rewrite Exy.
    + cbn [filter]. destruct (p x) eqn:Ex; [|reflexivity].
      assert (Hall : forall z, In z (y :: l) -> after x z = false).
      { intros z [<-|Hz]; [exact Exy|]. rewrite Forall_forall in Hy.
        exact (in_order_trans x y z Exy (Hy z Hz)). }
      change (if p y then y :: filter p l else filter p l) with (filter p (y :: l)).
      destruct (filter p (y :: l)) as [|z l'] eqn:E; [reflexivity|].
      simpl insert_sorted. rewrite Hall; [reflexivity|].
      assert (Hz : In z (filter p (y :: l))) by (rewrite E; now left).
      now apply filter_In in Hz.
Qed.

Lemma stable_sort_filter_commute (p : A -> bool) l :
  filter p (stable_sort after l) = stable_sort after (filter p l).
Proof.
  induction l as [|x l IH]; [reflexivity|].
  simpl stable_sort. rewrite insert_sorted_filter_commute
    by apply stable_sort_strongly_sorted.
  cbn [filter]. destruct (p x); [|exact IH]. simpl stable_sort. now rewrite IH.
Qed.

(** In a sorted list, a class that is closed towards the front is a
    prefix. *)
Lemma sorted_filter_prefix (p : A -> bool) l :
  StronglySorted (in_order after) l ->
  (forall x y, after x y = false -> p y = true -> p x = true) ->
  l = filter p l ++ filter (fun x => negb (p x)) l.
Proof.
  intros Hs Hp. induction Hs as [|x l Hs IH Hx]; [reflexivity|].
  cbn [filter]. destruct (p x) eqn:Ex; cbn [negb app]; [now rewrite <- IH|].
  assert (Hnone : filter p l = []).
  { apply filter_nil_iff. intros y Hy. rewrite Forall_forall in Hx.
    destruct (p y) eqn:Ey; [|reflexivity].
    rewrite (Hp x y (Hx y Hy) Ey) in Ex. discriminate. }
  rewrite Hnone in *. cbn [app] in *. now rewrite <- IH.
Qed.

End SortAndFilter.

(** X20: A longer window only adds older files: the list for [days] is the
    beginning of the list for [days' >= days], and what follows was modified
    at or before the cutoff of [days]. *)
Theorem getRecentFiles_window_grows (now days days' : Z) (d : Database) :
  (days <= days')%Z ->
  exists older,
    getRecentFiles now days' d = getRecentFiles now days d ++ older
    /\ Forall (fun f => (RecentFile.mtime f <= now - days * 86400 * 1000)%Z) older.
Proof.
  intros Hdays. unfold getRecentFiles, select_files_modified_after.
  set (c := (now - days * 24 * 60 * 60 * 1000)%Z).
  set (c' := (now - days' * 24 * 60 * 60 * 1000)%Z).
  set (after := mtime_desc).
  set (p := fun r : Files.row => (c <? Files.mtime r)%Z).
  assert (Hasym : forall x y, after x y = true -> after y x = false)
    by exact mtime_desc_asym.
  assert (Htrans : forall x y z, after x y = false -> after y z = false -> after x z = false)
    by exact mtime_desc_trans.
  set (rows' := stable_sort after (filter (fun r => (c' <? Files.mtime r)%Z) (files d))).
  assert (Hsplit : rows' = filter p rows' ++ filter (fun x => negb (p x)) rows').
  { apply (sorted_filter_prefix after).
    - now apply stable_sort_strongly_sorted.
    - intros x y. unfold after, p. rewrite mtime_desc_false, !Z.ltb_lt. lia. }
  assert (Hrecent : filter p rows' = stable_sort after (filter p (files d))).
  { unfold rows'. rewrite (stable_sort_filter_commute after Hasym Htrans). f_equal.
    apply filter_filter_sub. intros x _. unfold p. rewrite !Z.ltb_lt.
    unfold c, c'. nia. }
  exists (map recent_of (filter (fun x => negb (p x)) rows')). split.
  - rewrite <- map_app, <- Hrecent, <- Hsplit. reflexivity.
  - apply Forall_map, Forall_forall. intros r Hr. apply filter_In in Hr as [_ Hr].
    apply negb_true_iff, Z.ltb_ge in Hr. cbn [recent_of RecentFile.mtime].
    unfold c in Hr. lia.
Qed.

Lemma getRecentFiles_window_grows_witness :
  let openai := fun (_ : nat) (input : list jsstring) =>
                  Some (map (fun _ => [1; 0]%float) input) in
  let file name mtime :=
    {| IndexedFile.path := name; IndexedFile.content := JsString.lit "text";
       IndexedFile.mtime := mtime; IndexedFile.size := 4;
       IndexedFile.extension := JsString.lit ".txt" |} in
  let input := [file (JsString.lit "old.txt") 50000000%Z;
                file (JsString.lit "new.txt") 190000000%Z] in
  let d := db (snd (indexFiles openai input initial_world)) in
  map RecentFile.path (getRecentFiles 200000000 1 d) = [JsString.lit "new.txt"]
  /\ exists older,
       getRecentFiles 200000000 2 d = getRecentFiles 200000000 1 d ++ older
       /\ Forall (fun f => (RecentFile.mtime f <= 200000000 - 1 * 86400 * 1000)%Z) older.
Proof.
  intros openai file input d. split; [reflexivity|].
  apply (getRecentFiles_window_grows 200000000 1 2 d). lia.
Defined.

(** X21: The recency query lists a path at most once, in every store that
    the process reaches. *)
Theorem getRecentFiles_lists_a_path_once
    (openai : nat -> list jsstring -> option (list (list float))) (w : World)
    (now days : Z) :
  reachable openai w ->
  NoDup (map RecentFile.path (getRecentFiles now days (db w))).
Proof.
  intros Hw. apply reachable_tidy, tidy_unique_paths in Hw.
  apply (Permutation_NoDup
           (Permutation_sym (Permutation_map RecentFile.path
                               (getRecentFiles_perm now days (db w))))).
  rewrite map_map. cbn [recent_of RecentFile.path].
  now apply NoDup_map_filter.
Qed.

Lemma getRecentFiles_lists_a_path_once_witness :
  let openai := fun (_ : nat) (input : list jsstring) =>
                  Some (map (fun _ => [1; 0]%float) input) in
  let file mtime :=
    {| IndexedFile.path := JsString.lit "a.txt"; IndexedFile.content := JsString.lit "text";
       IndexedFile.mtime := mtime; IndexedFile.size := 4;
       IndexedFile.extension := JsString.lit ".txt" |} in
  let w := snd (indexFiles openai [file 1000%Z; file 2000%Z] initial_world) in
  getRecentFiles 3000 1 (db w)
  = [{| RecentFile.path := JsString.lit "a.txt"; RecentFile.mtime := 2000 |}]
  /\ NoDup (map RecentFile.path (getRecentFiles 3000 1 (db w))).
Proof.
  intros openai file w. split; [reflexivity|].
  apply (getRecentFiles_lists_a_path_once openai w 3000 1).
  apply reachable_indexFiles, reachable_initial.
Defined.

(** X22: After a completed [indexFiles], the recency query shows a path of
    the input with the modification time of the last file given for it, and
    only when that time is after the cutoff: the times of earlier versions
    are gone. *)
Theorem getRecentFiles_after_indexFiles
    (openai : nat -> list jsstring -> option (list (list float)))
    (input : list IndexedFile.t) (w w' : World) (v : jsval)
    (file : IndexedFile.t) (now days : Z) (f : RecentFile.t) :
  consistent (db w) ->
  indexFiles openai input w = (Normal v, w') ->
  latest input (RecentFile.path f) = Some file ->
  (In f (getRecentFiles now days (db w')) <->
   RecentFile.mtime f = IndexedFile.mtime file
   /\ (now - days * 86400 * 1000 < IndexedFile.mtime file)%Z).
Proof.
  intros Hd Hrun Hlatest. unfold indexFiles, bind, ret in Hrun.
  destruct (indexFiles_loop openai input w) as [[[]|e] w1] eqn:E; [|discriminate].
  injection Hrun as _ <-.
  apply indexFiles_loop_normal in E as (_ & _ & _ & Hcommitted); [|exact Hd].
  destruct (Hcommitted _ _ Hlatest) as (row & Hrows & (Hp & _ & Hm & _) & _).
  apply latest_path in Hlatest as [Hpath _]. rewrite Hpath in Hrows.
  rewrite getRecentFiles_in. split.
  - intros (row' & Hin & Hcut & ->). cbn [recent_of RecentFile.path] in Hrows.
    assert (Hrow' : In row' (file_rows (db w1) (Files.path row')))
      by (apply filter_In; split; [exact Hin|apply JsStringFacts.eqb_refl]).
    rewrite Hrows in Hrow'. destruct Hrow' as [<-|[]].
    cbn [recent_of RecentFile.mtime]. rewrite <- Hm. split; [reflexivity|lia].
  - intros [Hmt Hcut]. exists row.
    assert (Hin : In row (file_rows (db w1) (RecentFile.path f)))
      by (rewrite Hrows; now left).
    apply filter_In in Hin as [Hin _]. split; [exact Hin|]. split; [lia|].
    destruct f as [fp fm]. cbn [RecentFile.path RecentFile.mtime] in *.
    unfold recent_of. now rewrite Hp, Hm, Hpath, Hmt.
Qed.

Lemma getRecentFiles_after_indexFiles_witness :
  let openai := fun (_ : nat) (input : list jsstring) =>
                  Some (map (fun _ => [1; 0]%float) input) in
  let file mtime :=
    {| IndexedFile.path := JsString.lit "a.txt"; IndexedFile.content := JsString.lit "text";
       IndexedFile.mtime := mtime; IndexedFile.size := 4;
       IndexedFile.extension := JsString.lit ".txt" |} in
  let w := snd (indexFiles openai [file 5000%Z; file 1000%Z] initial_world) in
  In {| RecentFile.path := JsString.lit "a.txt"; RecentFile.mtime := 1000 |}
     (getRecentFiles 3000 1 (db w)).
Proof.
  intros openai file w.
  apply (getRecentFiles_after_indexFiles openai [file 5000%Z; file 1000%Z]
           initial_world w JsUndefined (file 1000%Z) 3000 1).
  - exact consistent_empty_db.
  - reflexivity.
  - reflexivity.
  - split; [reflexivity|cbn; lia].
Defined.

(* ================================================================= *)
(** ** The tool layer *)

Section ToolLayerFacts.
Variable openai : nat -> list jsstring -> option (list (list float)).
Variable indexDirectory : jsstring -> option (list IndexedFile.t).
Variable readFile : jsstring -> option jsstring.
Variable toFixed3 : float -> jsstring.
Variable toISOString : Z -> option jsstring.
Variable message : failure -> jsstring.

(** A search reads the store and does not write it, however it ends. *)
Lemma search_db query limit w :
  db (snd (search openai query limit w)) = db w.
Proof.
  unfold search, bind, embeddings_create, throw.
  destruct (openai (requests w) [query]) as [[|q data]|]; reflexivity.
Qed.

Lemma handleSemanticSearch_db query limit w :
  db (snd (handleSemanticSearch openai toFixed3 query limit w)) = db w.
Proof.
  unfold handleSemanticSearch. pose proof (search_db query limit w) as H.
  destruct (search openai query limit w) as [[results|e] w']; exact H.
Qed.

Lemma handleRecentActivity_world now days w :
  snd (handleRecentActivity toISOString now days w) = w.
Proof.
  unfold handleRecentActivity. now destruct (formatRecent toISOString _).
Qed.

Lemma handleSummarizeFile_world filePath w :
  snd (handleSummarizeFile readFile filePath w) = w.
Proof. unfold handleSummarizeFile. now destruct (readFile filePath). Qed.

End ToolLayerFacts.

(** X23: The default of [limit]: a [semantic_search] request with [limit]
    absent or 0 is served with limit 5. When the client answers the query,
    the response is no error and the store is as before; it reports
    [min 5 n] results for a store of [n] chunks, each of them a scored chunk
    of the store, no chunk twice. When no score is NaN, the results are
    those of [search] with limit 5, in descending order of score. *)
Theorem semantic_search_limit_defaults
    (openai : nat -> list jsstring -> option (list (list float)))
    (indexDirectory : jsstring -> option (list IndexedFile.t))
    (readFile : jsstring -> option jsstring)
    (toFixed3 : float -> jsstring) (toISOString : Z -> option jsstring)
    (message : failure -> jsstring)
    (now : Z) (args : ToolArguments.t) (w : World) (q : list float)
    (rest : list (list float)) :
  ToolArguments.limit args = None \/ ToolArguments.limit args = Some 0%Z ->
  openai (requests w) [ToolArguments.query args] = Some (q :: rest) ->
  exists results others w',
    callTool openai indexDirectory readFile toFixed3 toISOString message now
      {| CallToolRequest.name := JsString.lit "semantic_search";
         CallToolRequest.arguments := Some args |} w
    = ({| ToolResult.text :=
            JsString.lit "Found " ++ Number_toString (Z.of_nat (length results))
            ++ JsString.lit " results:" ++ [LF; LF]
            ++ JsString.join (map (formatResult toFixed3) results);
          ToolResult.isError := false |},
       w')
    /\ db w' = db w
    /\ Z.of_nat (length results)
       = Z.min 5 (Z.of_nat (length (select_embeddings_join_files (db w))))
    /\ Permutation (results ++ others) (scored q w)
    /\ (forallb score_is_number (scored q w) = true ->
        search openai (ToolArguments.query args) 5 w = (Normal results, w')
        /\ Sorted ge_score results).
Proof.
  intros Hlimit Hq.
  assert (Hdefault : or_default (ToolArguments.limit args) 5 = 5%Z)
    by (destruct Hlimit as [-> | ->]; reflexivity).
  pose proof (search_normal openai (ToolArguments.query args) 5 w q rest Hq) as Hrun.
  rewrite Array_slice_prefix in Hrun by lia.
  set (sorted := Array_sort by_score_desc (scored q w)) in *.
  exists (firstn (Z.to_nat 5) sorted), (skipn (Z.to_nat 5) sorted).
  eexists. split; [|split; [|split; [|split]]].
  - unfold callTool. cbn [CallToolRequest.name CallToolRequest.arguments].
    change (JsString.eqb (JsString.lit "semantic_search") (JsString.lit "index_directory"))
      with false.
    change (JsString.eqb (JsString.lit "semantic_search") (JsString.lit "semantic_search"))
      with true.
    cbn iota. rewrite Hdefault. unfold handleSemanticSearch. rewrite Hrun. reflexivity.
  - reflexivity.
  - rewrite length_firstn. unfold sorted, Array_sort, scored.
    rewrite stable_sort_length, length_map. lia.
  - rewrite firstn_skipn. apply stable_sort_perm.
  - intros Hnum. split; [exact Hrun|].
    apply Sorted_firstn. unfold sorted. rewrite Array_sort_by_score by exact Hnum.
    now apply stable_sort_lt_score_sorted.
Qed.

Lemma semantic_search_limit_defaults_witness :
  let openai := fun (_ : nat) (input : list jsstring) =>
                  Some (map (fun _ => [1; 0]%float) input) in
  let file name :=
    {| IndexedFile.path := name; IndexedFile.content := JsString.lit "text";
       IndexedFile.mtime := 1000; IndexedFile.size := 4;
       IndexedFile.extension := JsString.lit ".txt" |} in
  let w := snd (indexFiles openai [file (JsString.lit "a.txt")] initial_world) in
  let args := {| ToolArguments.path := []; ToolArguments.query := JsString.lit "text";
                 ToolArguments.limit := Some 0%Z; ToolArguments.days := None |} in
  exists results w',
    search openai (JsString.lit "text") 5 w = (Normal results, w')
    /\ length results = 1.
Proof.
  intros openai file w args.
  destruct (semantic_search_limit_defaults openai (fun _ => None) (fun _ => None)
              (fun _ => []) (fun _ => None) (fun _ => []) 0 args w [1; 0]%float [])
    as (results & others & w' & _ & _ & H2 & _ & H3).
  - now right.
  - reflexivity.
  - exists results, w'. split; [apply H3; vm_compute; reflexivity|].
    vm_compute in H2. now apply Nat2Z.inj.
Defined.



(** X25: What the request handler never does: only [index_directory]
    writes to the store. A request without arguments, whatever tool it
    names ([recent_activity], which requires none, included), and a request
    for a tool that does not exist are answered with an error and change
    nothing; every other tool than [index_directory] leaves the store as
    it is. *)
Theorem callTool_store_untouched
    (openai : nat -> list jsstring -> option (list (list float)))
    (indexDirectory : jsstring -> option (list IndexedFile.t))
    (readFile : jsstring -> option jsstring)
    (toFixed3 : float -> jsstring) (toISOString : Z -> option jsstring)
    (message : failure -> jsstring)
    (now : Z) (request : CallToolRequest.t) (w : World) :
  let call := callTool openai indexDirectory readFile toFixed3 toISOString message now in
  let name := CallToolRequest.name request in
  (CallToolRequest.arguments request = None ->
   call request w
   = ({| ToolResult.text := JsString.lit "Error: Missing arguments";
         ToolResult.isError := true |}, w))
  /\ (forall args,
        CallToolRequest.arguments request = Some args ->
        ~ In name [JsString.lit "index_directory"; JsString.lit "semantic_search";
                   JsString.lit "summarize_file"; JsString.lit "recent_activity"] ->
        call request w
        = ({| ToolResult.text := JsString.lit "Error: Unknown tool: " ++ name;
              ToolResult.isError := true |}, w))
  /\ (name <> JsString.lit "index_directory" -> db (snd (call request w)) = db w).
Proof.
  intros call name. unfold call, callTool. fold name. split; [|split].
  - intros ->. reflexivity.
  - intros args -> Hname. cbn [In] in Hname.
    repeat match goal with
           | |- context [JsString.eqb name ?s] =>
               replace (JsString.eqb name s) with false
                 by (symmetry; apply JsStringFacts.eqb_neq; intros E; apply Hname;
                     rewrite E; tauto)
           end.
    reflexivity.
  - intros Hname. destruct (CallToolRequest.arguments request) as [args|]; [|reflexivity].
    replace (JsString.eqb name (JsString.lit "index_directory")) with false
      by (symmetry; now apply JsStringFacts.eqb_neq).
    destruct (JsString.eqb name (JsString.lit "semantic_search")).
    { pose proof (handleSemanticSearch_db openai toFixed3 (ToolArguments.query args)
                    (or_default (ToolArguments.limit args) 5) w) as H.
      destruct (handleSemanticSearch _ _ _ _ w) as [[r|f] w']; exact H. }
    destruct (JsString.eqb name (JsString.lit "summarize_file")).
    { pose proof (handleSummarizeFile_world readFile (ToolArguments.path args) w) as H.
      destruct (handleSummarizeFile _ _ w) as [[r|f] w']; cbn [snd] in *; now subst. }
    destruct (JsString.eqb name (JsString.lit "recent_activity")).
    { pose proof (handleRecentActivity_world toISOString now
                    (or_default (ToolArguments.days args) 7) w) as H.
      destruct (handleRecentActivity _ _ _ w) as [[r|f] w']; cbn [snd] in *; now subst. }
    reflexivity.
Qed.

Lemma callTool_store_untouched_witness :
  let openai := fun (_ : nat) (input : list jsstring) =>
                  Some (map (fun _ => [1; 0]%float) input) in
  let call := callTool openai (fun _ => None) (fun _ => None) (fun _ => [])
                       (fun _ => None) (fun _ => []) 0 in
  call {| CallToolRequest.name := JsString.lit "recent_activity";
          CallToolRequest.arguments := None |} initial_world
  = ({| ToolResult.text := JsString.lit "Error: Missing arguments";
        ToolResult.isError := true |}, initial_world)
  /\ db (snd (call {| CallToolRequest.name := JsString.lit "semantic_search";
                      CallToolRequest.arguments :=
                        Some {| ToolArguments.path := []; ToolArguments.query := JsString.lit "q";
                                ToolArguments.limit := None; ToolArguments.days := None |} |}
                   initial_world))
     = db initial_world.
Proof.
  intros openai call. split.
  - apply (callTool_store_untouched openai (fun _ => None) (fun _ => None) (fun _ => [])
             (fun _ => None) (fun _ => []) 0
             {| CallToolRequest.name := JsString.lit "recent_activity";
                CallToolRequest.arguments := None |} initial_world).
    reflexivity.
  - apply (callTool_store_untouched openai (fun _ => None) (fun _ => None) (fun _ => [])
             (fun _ => None) (fun _ => []) 0).
    cbn. discriminate.
Defined.

(** X26: [index_directory] answers with the number of files that the
    enumerator returned when all of them were indexed. An error response
    does not mean that nothing was written: when an embedding request fails,
    the files before the failing one are committed if their paths do not
    come again, and the failing file has its new record in the store. *)
Theorem index_directory_response
    (openai : nat -> list jsstring -> option (list (list float)))
    (indexDirectory : jsstring -> option (list IndexedFile.t))
    (readFile : jsstring -> option jsstring)
    (toFixed3 : float -> jsstring) (toISOString : Z -> option jsstring)
    (message : failure -> jsstring)
    (now : Z) (args : ToolArguments.t) (input : list IndexedFile.t)
    (w w' : World) (result : ToolResult.t) :
  consistent (db w) ->
  indexDirectory (ToolArguments.path args) = Some input ->
  callTool openai indexDirectory readFile toFixed3 toISOString message now
    {| CallToolRequest.name := JsString.lit "index_directory";
       CallToolRequest.arguments := Some args |} w
  = (result, w') ->
  if ToolResult.isError result then
    exists pre file post row e,
      input = pre ++ file :: post
      /\ fst (indexFiles openai input w) = Throw e
      /\ file_rows (db w') (IndexedFile.path file) = [row]
      /\ row_of file row
      /\ forall f, In f pre ->
           ~ In (IndexedFile.path f) (map IndexedFile.path (file :: post)) ->
           latest pre (IndexedFile.path f) = Some f ->
           committed (db w') f
  else
    ToolResult.text result
    = JsString.lit "Indexed " ++ Number_toString (Z.of_nat (length input))
      ++ JsString.lit " files from " ++ ToolArguments.path args
    /\ forall p file, latest input p = Some file -> committed (db w') file.
Proof.
  intros Hd Hinput. unfold callTool.
  cbn [CallToolRequest.name CallToolRequest.arguments].
  change (JsString.eqb (JsString.lit "index_directory") (JsString.lit "index_directory"))
    with true.
  cbn iota. unfold handleIndexDirectory. rewrite Hinput.
  unfold indexFiles, bind, ret.
  destruct (indexFiles_loop openai input w) as [[[]|e] w1] eqn:E.
  - intros H. injection H as <- <-. cbn [success ToolResult.isError ToolResult.text].
    split; [reflexivity|].
    now apply (indexFiles_loop_normal openai input w w1 Hd E).
  - intros H. injection H as <- <-. cbn [error_result ToolResult.isError fst].
    apply indexFiles_loop_throw in E as (pre & file & post & w0 & -> & Hpre & Hfile).
    pose proof (indexFiles_loop_normal openai pre w w0 Hd Hpre)
      as (Hd0 & _ & _ & Hcommitted).
    pose proof (indexFile_spec openai file w0 _ w1 Hd0 Hfile)
      as (_ & _ & Hframe & row & chunks & n & Hview & Hrow & _).
    apply view_single in Hview as [Hrows _].
    exists pre, file, post, row, e. split; [reflexivity|]. split; [reflexivity|].
    split; [exact Hrows|]. split; [exact Hrow|].
    intros f Hf Hfresh Hlatest.
    apply committed_view. apply Hcommitted, committed_view in Hlatest
      as (row' & chunks' & Hview' & Hrow' & Hent').
    exists row', chunks'. rewrite Hframe; [now split|].
    intros Heq. apply Hfresh. left. now symmetry.
Qed.

Lemma index_directory_response_witness :
  let openai := fun (n : nat) (input : list jsstring) =>
                  match n with
                  | 0 => Some (map (fun _ => [1; 0]%float) input)
                  | _ => None
                  end in
  let file name :=
    {| IndexedFile.path := name; IndexedFile.content := JsString.lit "text";
       IndexedFile.mtime := 1000; IndexedFile.size := 4;
       IndexedFile.extension := JsString.lit ".txt" |} in
  let input := [file (JsString.lit "a.txt"); file (JsString.lit "b.txt")] in
  let call := callTool openai (fun _ => Some input) (fun _ => None) (fun _ => [])
                       (fun _ => None) (fun _ => JsString.lit "rejected") 0
                       {| CallToolRequest.name := JsString.lit "index_directory";
                          CallToolRequest.arguments :=
                            Some {| ToolArguments.path := JsString.lit "dir";
                                    ToolArguments.query := [];
                                    ToolArguments.limit := None; ToolArguments.days := None |} |}
                       initial_world in
  fst call = {| ToolResult.text := JsString.lit "Error: rejected";
                ToolResult.isError := true |}
  /\ exists pre file post row,
       input = pre ++ file :: post
       /\ file_rows (db (snd call)) (IndexedFile.path file) = [row].
Proof.
  intros openai file input call. split; [reflexivity|].
  pose proof (index_directory_response openai (fun _ => Some input) (fun _ => None)
                (fun _ => []) (fun _ => None) (fun _ => JsString.lit "rejected") 0
                {| ToolArguments.path := JsString.lit "dir"; ToolArguments.query := [];
                   ToolArguments.limit := None; ToolArguments.days := None |}
                input initial_world (snd call) (fst call)
                consistent_empty_db eq_refl eq_refl) as H.
  cbn [ToolResult.isError fst call] in H.
  destruct H as (pre & f & post & row & e & H1 & _ & H2 & _).
  exists pre, f, post, row. split; [exact H1|exact H2].
Defined.
